(** * Voice-to-Xero workflow engine: sessions, line-item loop, voice pipeline,
      session store and credential resolution.

    Shallow embedding of
      - [app/api/workflow_base/base_session.py]
      - [app/api/invoice_workflow/session_store.py]
      - [app/api/invoice_workflow/routes/{step,workflow,submission}_routes.py]
      - [app/api/contact_workflow/session_store.py]
      - [app/api/invoice_workflow/step_handlers.py]
      - [app/api/common/token_auth.py]
      - [app/api/routes.py] (the mobile key-validation endpoint)
      - [app/api/contact_workflow/validators/session_validators.py]
      - [app/api/contact_workflow/routes/workflow_routes.py]
      - [app/api/invoice_workflow/validators/field_validators.py]
    followed by the properties of the specification that were checked
    against it. *)

From Stdlib Require Import ZArith List String Ascii Bool Lia.
From stdpp Require Import base option list strings gmap fin_maps.
Import ListNotations.

Local Open Scope string_scope.
Local Open Scope Z_scope.
Local Open Scope list_scope.

(** ** Python values and built-ins *)

(** A Python [float] is kept as the literal it was converted from: either a
    [Decimal] (coefficient and exponent) or the text handed to [float()].
    No property below computes with floats. *)
Record Decimal := mkDecimal { coefficient : Z; exponent : Z }.

Inductive pyfloat :=
| FloatOfDecimal (d : Decimal)
| FloatOfStr (s : string).

(** Values stored inside a line-item or address dict. *)
Inductive atom :=
| AStr (s : string)
| AFloat (f : pyfloat).

(** Values stored under the keys of [invoice_data], [contact_data] and
    [workflow_data]. Inner dicts keep insertion order. *)
#[local] Unset Elimination Schemes.
Inductive pyval :=
| PNone
| PStr (s : string)
| PDict (d : list (string * atom))
| PList (l : list pyval).
#[local] Set Elimination Schemes.

(** The exceptions that the modelled code raises or lets escape. *)
Inductive exn :=
| ValueError (msg : string)
| TypeError
| AttributeError
| IndexError
| KeyError
| StepValidationError (field : string) (message : string)
| OtherError (msg : string).

Inductive outcome (A : Type) :=
| Return (a : A)
| Raise (e : exn).
Arguments Return {A} a.
Arguments Raise {A} e.

(** [bool(v)] *)
Definition truthy (v : pyval) : bool :=
  match v with
  | PNone => false
  | PStr s => negb (String.eqb s "")
  | PDict d => match d with [] => false | _ => true end
  | PList l => match l with [] => false | _ => true end
  end.

(** [bool(d.get(k))] *)
Definition truthy_get (d : gmap string pyval) (k : string) : bool :=
  match d !! k with
  | Some v => truthy v
  | None => false
  end.

(** [d.get(k) is None] *)
Definition get_is_none (d : gmap string pyval) (k : string) : bool :=
  match d !! k with
  | Some PNone | None => true
  | Some _ => false
  end.

(** [len(v)]; [None] has no length. *)
Definition py_len (v : pyval) : outcome Z :=
  match v with
  | PNone => Raise TypeError
  | PStr s => Return (Z.of_nat (String.length s))
  | PDict d => Return (Z.of_nat (length d))
  | PList l => Return (Z.of_nat (length l))
  end.

(** [d[k] = v] on an insertion-ordered dict. *)
Fixpoint dict_set {A} (k : string) (v : A) (d : list (string * A)) : list (string * A) :=
  match d with
  | [] => [(k, v)]
  | (k', v') :: d' =>
      if String.eqb k k' then (k, v) :: d' else (k', v') :: dict_set k v d'
  end.

Fixpoint dict_get {A} (k : string) (d : list (string * A)) : option A :=
  match d with
  | [] => None
  | (k', v') :: d' => if String.eqb k k' then Some v' else dict_get k d'
  end.

(** [l.index(x)]: position of the first occurrence, [ValueError] when absent. *)
Fixpoint index (x : string) (l : list string) : option nat :=
  match l with
  | [] => None
  | y :: l' => if String.eqb x y then Some O
               else match index x l' with
                    | Some i => Some (S i)
                    | None => None
                    end
  end.

(** [x in l] *)
Definition mem (x : string) (l : list string) : bool :=
  existsb (String.eqb x) l.

(** [s.split(sep)] for a one-character separator. *)
Fixpoint split_on (sep : ascii) (s : string) : list string :=
  match s with
  | EmptyString => [""]
  | String c s' =>
      if Ascii.eqb c sep then "" :: split_on sep s'
      else match split_on sep s' with
           | [] => [String c ""]
           | w :: ws => String c w :: ws
           end
  end.

(** [sep.join(parts)] *)
Fixpoint join (sep : string) (parts : list string) : string :=
  match parts with
  | [] => ""
  | [p] => p
  | p :: ps => p +:+ sep +:+ join sep ps
  end.

(** [s.replace(old, "")] for a non-empty [old]. *)
Fixpoint remove_all (fuel : nat) (old s : string) : string :=
  match fuel with
  | O => s
  | S fuel' =>
      match s with
      | EmptyString => EmptyString
      | String c s' =>
          if String.prefix old s
          then remove_all fuel' old (String.substring (String.length old)
                                       (String.length s - String.length old) s)
          else String c (remove_all fuel' old s')
      end
  end.

Definition is_space (c : ascii) : bool :=
  let n := nat_of_ascii c in
  ((9 <=? n) && (n <=? 13) || (28 <=? n) && (n <=? 32))%nat.

Fixpoint lstrip (s : string) : string :=
  match s with
  | String c s' => if is_space c then lstrip s' else s
  | EmptyString => EmptyString
  end.

Fixpoint rstrip (s : string) : string :=
  match s with
  | EmptyString => EmptyString
  | String c s' =>
      match rstrip s' with
      | EmptyString => if is_space c then EmptyString else String c EmptyString
      | r => String c r
      end
  end.

(** [s.strip()] *)
Definition strip (s : string) : string := rstrip (lstrip s).

Definition lower_char (c : ascii) : ascii :=
  let n := nat_of_ascii c in
  if ((65 <=? n) && (n <=? 90))%nat then ascii_of_nat (n + 32) else c.

(** [s.lower()] on ASCII text. *)
Fixpoint lower (s : string) : string :=
  match s with
  | EmptyString => EmptyString
  | String c s' => String (lower_char c) (lower s')
  end.

(** [s[n:]] *)
Definition drop_prefix (n : nat) (s : string) : string :=
  String.substring n (String.length s - n) s.

(** [int()] and [float()] on text, and the name sanitizer of
    [validators/field_validators.py], are not reproduced: which strings they
    accept and what they return are parameters of the development. *)
Class Builtins := {
  int_of_str : string -> option Z;
  float_accepts : string -> bool;
  sanitize_name : string -> outcome string
}.

(** Time stamps are microseconds; [timedelta(minutes=30)]. *)
Definition time := Z.
Definition thirty_minutes : Z := 30 * 60 * 1000000.

(** ** [workflow_base/base_session.py] *)

(** The abstract methods of [BaseWorkflowSession]. *)
Class Workflow := {
  get_workflow_steps : list string;
  get_initial_step : string;
  validate_step_data : string -> gmap string pyval -> outcome bool
}.

Module Base.

Record session := mk {
  session_id : string;
  current_step : string;
  completed_steps : list string;
  workflow_data : gmap string pyval;
  step_errors : gmap string string;
  created_at : time;
  updated_at : time
}.

Definition set_current_step (v : string) (s : session) : session :=
  mk (session_id s) v (completed_steps s) (workflow_data s) (step_errors s)
     (created_at s) (updated_at s).

Definition set_completed_steps (v : list string) (s : session) : session :=
  mk (session_id s) (current_step s) v (workflow_data s) (step_errors s)
     (created_at s) (updated_at s).

Definition set_workflow_data (v : gmap string pyval) (s : session) : session :=
  mk (session_id s) (current_step s) (completed_steps s) v (step_errors s)
     (created_at s) (updated_at s).

Definition set_step_errors (v : gmap string string) (s : session) : session :=
  mk (session_id s) (current_step s) (completed_steps s) (workflow_data s) v
     (created_at s) (updated_at s).

Definition set_updated_at (v : time) (s : session) : session :=
  mk (session_id s) (current_step s) (completed_steps s) (workflow_data s)
     (step_errors s) (created_at s) v.

Section Methods.
Context {W : Workflow}.

(** [__init__]: [session_id or str(uuid.uuid4())]; the two clock reads are
    the arguments [t_created] and [t_updated]. *)
Definition init (sid : option string) (uuid4 : string)
    (t_created t_updated : time) : session :=
  let id := match sid with
            | Some i => if String.eqb i "" then uuid4 else i
            | None => uuid4
            end in
  mk id get_initial_step [] ∅ ∅ t_created t_updated.

(** [advance_step]: [steps.index] raises when the current step is not a step
    of the workflow, before anything is written. *)
Definition advance_step (now : time) (s : session)
    : session * outcome (option string) :=
  let steps := get_workflow_steps in
  match index (current_step s) steps with
  | None => (s, Raise (ValueError "not in list"))
  | Some current_idx =>
      if (Z.of_nat current_idx <? Z.of_nat (length steps) - 1)%Z
      then
        let next := nth (current_idx + 1)%nat steps "" in
        (set_updated_at now (set_current_step next s), Return (Some next))
      else (s, Return None)
  end.

Definition can_advance (s : session) : outcome bool :=
  if negb (mem (current_step s) (completed_steps s)) then Return false
  else validate_step_data (current_step s) (workflow_data s).

Definition go_to_step (now : time) (step : string) (s : session)
    : session * bool :=
  let steps := get_workflow_steps in
  match index step steps with
  | None => (s, false)
  | Some target_idx =>
      if (Z.of_nat target_idx <=? Z.of_nat (length (completed_steps s)))%Z
      then (set_updated_at now (set_current_step step s), true)
      else (s, false)
  end.

Definition mark_step_complete (now : time) (step : string)
    (data : gmap string pyval) (s : session) : session :=
  let s1 := if negb (mem step (completed_steps s))
            then set_completed_steps (completed_steps s ++ [step]) s
            else s in
  let s2 := set_workflow_data (data ∪ workflow_data s1) s1 in
  let s3 := set_updated_at now s2 in
  set_step_errors (delete step (step_errors s3)) s3.

End Methods.
End Base.

(** ** Pydantic models of the two workflows ([models.py]) *)

Inductive VATRate := STANDARD | REDUCED | ZERO_RATED | EXEMPT.

Definition VATRate_value (v : VATRate) : string :=
  match v with
  | STANDARD => "standard"
  | REDUCED => "reduced"
  | ZERO_RATED => "zero_rated"
  | EXEMPT => "exempt"
  end.

(** One constructor per model class. A [date] is kept as its [isoformat()]
    text. *)
Inductive parsed_result :=
| InvoiceContactNameStep (contact_name : string) (is_organization : bool)
| InvoiceDueDateStep (due_date : string) (days_from_now : option Z)
| InvoiceLineItemStep (description : string) (quantity unit_price : Decimal)
    (account_code : string) (vat_rate : VATRate)
| ContactNameStep (name : string) (is_organization : bool)
| ContactEmailStep (email_address : string)
| ContactAddressStep (address_line1 city postal_code country : string)
| ContactConfirmation (confirmed : bool) (corrections_needed : option string).

(** ** [invoice_workflow/session_store.py] *)

Module Invoice.

Definition INVOICE_STEPS : list string :=
  ["welcome"; "contact_name"; "due_date"; "line_item"; "review";
   "final_submit"; "complete"].

Definition validate_step_data_impl (step : string) (data : gmap string pyval) : bool :=
  if String.eqb step "contact_name" then truthy_get data "contact_name"
  else if String.eqb step "due_date" then truthy_get data "due_date"
  else if String.eqb step "line_item"
       then truthy_get data "line_items" || truthy_get data "current_line_item"
  else mem step ["welcome"; "review"; "final_submit"; "complete"].

#[export] Instance workflow : Workflow := {|
  get_workflow_steps := INVOICE_STEPS;
  get_initial_step := "welcome";
  validate_step_data := fun step data => Return (validate_step_data_impl step data)
|}.

Record session := mk {
  base : Base.session;
  invoice_data : gmap string pyval;
  line_item_count : Z;
  max_line_items : Z;
  has_pending_item : bool;
  transcripts : gmap string string;
  parsed_results : gmap string parsed_result;
  errors : gmap string string
}.

Definition current_step (s : session) : string := Base.current_step (base s).
Definition completed_steps (s : session) : list string := Base.completed_steps (base s).
Definition updated_at (s : session) : time := Base.updated_at (base s).

Definition set_base (v : Base.session) (s : session) : session :=
  mk v (invoice_data s) (line_item_count s) (max_line_items s)
     (has_pending_item s) (transcripts s) (parsed_results s) (errors s).

Definition set_invoice_data (v : gmap string pyval) (s : session) : session :=
  mk (base s) v (line_item_count s) (max_line_items s)
     (has_pending_item s) (transcripts s) (parsed_results s) (errors s).

Definition set_line_item_count (v : Z) (s : session) : session :=
  mk (base s) (invoice_data s) v (max_line_items s)
     (has_pending_item s) (transcripts s) (parsed_results s) (errors s).

Definition set_has_pending_item (v : bool) (s : session) : session :=
  mk (base s) (invoice_data s) (line_item_count s) (max_line_items s)
     v (transcripts s) (parsed_results s) (errors s).

Definition set_transcripts (v : gmap string string) (s : session) : session :=
  mk (base s) (invoice_data s) (line_item_count s) (max_line_items s)
     (has_pending_item s) v (parsed_results s) (errors s).

Definition set_parsed_results (v : gmap string parsed_result) (s : session) : session :=
  mk (base s) (invoice_data s) (line_item_count s) (max_line_items s)
     (has_pending_item s) (transcripts s) v (errors s).

Definition set_errors (v : gmap string string) (s : session) : session :=
  mk (base s) (invoice_data s) (line_item_count s) (max_line_items s)
     (has_pending_item s) (transcripts s) (parsed_results s) v.

Definition set_current_step (v : string) (s : session) : session :=
  set_base (Base.set_current_step v (base s)) s.

Definition set_completed_steps (v : list string) (s : session) : session :=
  set_base (Base.set_completed_steps v (base s)) s.

Definition initial_invoice_data : gmap string pyval :=
  <["contact_name" := PNone]>
  (<["due_date" := PNone]>
  (<["line_items" := PList []]>
  (<["current_line_item" := PNone]> ∅))).

(** [InvoiceWorkflowSession.__init__] *)
Definition init (sid : option string) (uuid4 : string)
    (t_created t_updated : time) : session :=
  mk (Base.init sid uuid4 t_created t_updated)
     initial_invoice_data 0 10 false ∅ ∅ ∅.

(** [advance_step]: the override that keeps the loop on ["line_item"]. *)
Definition advance_step (now : time) (s : session)
    : session * outcome (option string) :=
  if String.eqb (current_step s) "line_item" && has_pending_item s
  then (s, Return (Some (current_step s)))
  else
    let '(b, r) := Base.advance_step now (base s) in
    (set_base b s, r).

Definition can_advance (s : session) : bool :=
  validate_step_data_impl (current_step s) (invoice_data s).

Definition parse_invoice_data (step : string) (parsed : parsed_result)
    : gmap string pyval :=
  match parsed with
  | InvoiceContactNameStep contact_name _ =>
      if String.eqb step "contact_name"
      then {[ "contact_name" := PStr contact_name ]} else ∅
  | InvoiceDueDateStep due_date _ =>
      if String.eqb step "due_date"
      then {[ "due_date" := PStr due_date ]} else ∅
  | InvoiceLineItemStep description quantity unit_price account_code vat_rate =>
      if String.eqb step "line_item"
      then {[ "current_line_item" :=
                PDict [("description", AStr description);
                       ("quantity", AFloat (FloatOfDecimal quantity));
                       ("unit_price", AFloat (FloatOfDecimal unit_price));
                       ("account_code", AStr account_code);
                       ("vat_rate", AStr (VATRate_value vat_rate))] ]}
      else ∅
  | _ => ∅
  end.

(** [add_line_item]: the capacity test and the [append] both come before any
    write, so a raised exception leaves the session as it was. *)
Definition add_line_item (item_data : pyval) (s : session)
    : session * outcome unit :=
  match invoice_data s !! "line_items" with
  | None => (s, Raise KeyError)
  | Some items =>
      match py_len items with
      | Raise e => (s, Raise e)
      | Return n =>
          if (n >=? max_line_items s)%Z
          then (s, Raise (ValueError "Maximum line items allowed"))
          else
            match items with
            | PList l =>
                let l' := l ++ [item_data] in
                let d1 := <["line_items" := PList l']> (invoice_data s) in
                let s1 := set_invoice_data d1 s in
                let s2 := set_line_item_count (Z.of_nat (length l')) s1 in
                let s3 := set_invoice_data
                            (<["current_line_item" := PNone]> (invoice_data s2)) s2 in
                (set_has_pending_item false s3, Return tt)
            | _ => (s, Raise AttributeError)
            end
      end
  end.

Definition clear_current_item (s : session) : session :=
  set_has_pending_item false
    (set_invoice_data (<["current_line_item" := PNone]> (invoice_data s)) s).

(** [store_step_result] *)
Definition store_step_result (now : time) (step : string)
    (result : parsed_result) (transcript : string) (s : session) : session :=
  let s1 := set_transcripts (<[step := transcript]> (transcripts s)) s in
  let s2 := set_parsed_results (<[step := result]> (parsed_results s1)) s1 in
  let parsed_data := parse_invoice_data step result in
  let s3 := set_invoice_data (parsed_data ∪ invoice_data s2) s2 in
  let s4 := set_base (Base.set_workflow_data
                        (parsed_data ∪ Base.workflow_data (base s3)) (base s3)) s3 in
  let s5 := if String.eqb step "line_item" && truthy_get parsed_data "current_line_item"
            then set_has_pending_item true s4 else s4 in
  if negb (bool_decide (parsed_data = ∅)) && negb (String.eqb step "line_item")
  then set_base (Base.mark_step_complete now step parsed_data (base s5)) s5
  else s5.

(** [to_invoice_create] returns a dict ([true]) or [None] ([false]); the
    list handed to [all] is built first, so [len] may raise. *)
Definition to_invoice_create (s : session) : outcome bool :=
  match invoice_data s !! "contact_name", invoice_data s !! "due_date",
        invoice_data s !! "line_items" with
  | Some c, Some d, Some items =>
      match py_len items with
      | Raise e => Raise e
      | Return n => Return (truthy c && truthy d && (n >? 0)%Z)
      end
  | _, _, _ => Raise KeyError
  end.

(** [reset]: every attribute that the method assigns. *)
Definition reset (now : time) (s : session) : session :=
  let b := Base.mk (Base.session_id (base s)) "welcome" [] ∅ ∅
                   (Base.created_at (base s)) now in
  mk b initial_invoice_data 0 (max_line_items s) (has_pending_item s) ∅ ∅ ∅.

Section UpdateField.
Context {B : Builtins}.

(** The value written by the line-item branch, [ValueError] when [float()]
    rejects the text. *)
Definition line_item_field_value (field field_value : string) : outcome atom :=
  if String.eqb field "quantity" then
    if float_accepts field_value
    then Return (AFloat (FloatOfStr field_value))
    else Raise (ValueError "could not convert string to float")
  else if String.eqb field "unit_price" then
    let clean_value := strip (remove_all (String.length field_value) "£" field_value) in
    if float_accepts clean_value
    then Return (AFloat (FloatOfStr clean_value))
    else Raise (ValueError "could not convert string to float")
  else Return (AStr field_value).

(** [line_items[idx][field] = v] with Python's negative indices. *)
Definition assign_item_field (items : pyval) (idx : Z) (field : string) (v : atom)
    : outcome pyval :=
  match items with
  | PList l =>
      let n := Z.of_nat (length l) in
      if ((idx <? - n) || (n <=? idx))%Z then Raise IndexError
      else
        let i := Z.to_nat (if (idx <? 0)%Z then idx + n else idx)%Z in
        match l !! i with
        | Some (PDict d) => Return (PList (<[i := PDict (dict_set field v d)]> l))
        | Some _ => Raise TypeError
        | None => Raise IndexError
        end
  | PStr str =>
      let n := Z.of_nat (String.length str) in
      if ((idx <? - n) || (n <=? idx))%Z then Raise IndexError else Raise TypeError
  | PDict _ => Raise KeyError
  | PNone => Raise TypeError
  end.

Definition touch (now : time) (s : session) : session :=
  set_base (Base.set_updated_at now (base s)) s.

Definition address_key (field_name : string) : string :=
  if String.eqb field_name "address_line1" then "AddressLine1"
  else if String.eqb field_name "city" then "City"
  else if String.eqb field_name "postal_code" then "PostalCode"
  else if String.eqb field_name "country" then "Country"
  else field_name.

(** [update_field]: [ValueError] and [IndexError] are caught inside the
    line-item branch; anything else escapes before [updated_at] is set. *)
Definition update_field (now : time) (field_name field_value : string)
    (s : session) : session * outcome unit :=
  if String.prefix "line_item_" field_name then
    let parts := split_on "_" field_name in
    if (4 <=? Z.of_nat (length parts))%Z then
      match int_of_str (nth 2 parts "") with
      | None => (touch now s, Return tt)
      | Some idx =>
          let field := join "_" (skipn 3 parts) in
          match py_len (default (PList []) (invoice_data s !! "line_items")) with
          | Raise e => (s, Raise e)
          | Return n =>
              if (idx <? n)%Z then
                match line_item_field_value field field_value with
                | Raise _ => (touch now s, Return tt)
                | Return v =>
                    match invoice_data s !! "line_items" with
                    | None => (s, Raise KeyError)
                    | Some items =>
                        match assign_item_field items idx field v with
                        | Return items' =>
                            (touch now (set_invoice_data
                               (<["line_items" := items']> (invoice_data s)) s),
                             Return tt)
                        | Raise IndexError => (touch now s, Return tt)
                        | Raise (ValueError _) => (touch now s, Return tt)
                        | Raise e => (s, Raise e)
                        end
                    end
                end
              else (touch now s, Return tt)
          end
      end
    else (touch now s, Return tt)
  else if mem field_name ["contact_name"; "contact_id"; "due_date"] then
    (touch now (set_invoice_data
       (<[field_name := PStr field_value]> (invoice_data s)) s), Return tt)
  else if mem field_name ["address_line1"; "city"; "postal_code"; "country"] then
    let d1 := if get_is_none (invoice_data s) "address"
              then <["address" := PDict []]> (invoice_data s)
              else invoice_data s in
    match d1 !! "address" with
    | Some (PDict a) =>
        (touch now (set_invoice_data
           (<["address" := PDict (dict_set (address_key field_name)
                                     (AStr field_value) a)]> d1) s), Return tt)
    | Some _ => (set_invoice_data d1 s, Raise TypeError)
    | None => (set_invoice_data d1 s, Raise KeyError)
    end
  else
    (touch now (set_invoice_data
       (<[field_name := PStr field_value]> (invoice_data s)) s), Return tt).
End UpdateField.

(** The module-level registry [_sessions]. *)
Abbreviation store := (gmap string session).

Definition expired (now : time) (s : session) : bool :=
  (now - updated_at s >? thirty_minutes)%Z.

(** [get_invoice_session]. [now] is the clock read of the expiry test;
    [uuid4], [t_created] and [t_updated] are what the constructor draws. *)
Definition get_invoice_session (now : time) (uuid4 : string)
    (t_created t_updated : time) (session_id : option string) (st : store)
    : store * session :=
  let fresh := init session_id uuid4 t_created t_updated in
  match session_id with
  | Some sid =>
      if negb (String.eqb sid "") then
        match st !! sid with
        | Some session =>
            if expired now session
            then (<[sid := fresh]> (delete sid st), fresh)
            else (st, session)
        | None => (<[Base.session_id (base fresh) := fresh]> st, fresh)
        end
      else (<[Base.session_id (base fresh) := fresh]> st, fresh)
  | None => (<[Base.session_id (base fresh) := fresh]> st, fresh)
  end.

(** [cleanup_expired_sessions] *)
Definition expired_ids (now : time) (st : store) : list string :=
  (filter (fun p => expired now p.2 = true) (map_to_list st)).*1.

Definition cleanup_expired_sessions (now : time) (st : store) : store * Z :=
  let ids := expired_ids now st in
  (foldl (fun m sid => delete sid m) st ids, Z.of_nat (length ids)).

End Invoice.

(** ** [invoice_workflow/step_handlers.py] *)

Module InvoiceSteps.

Definition MAX_AUDIO_SIZE : Z := 10 * 1024 * 1024.

(** [fastapi.UploadFile]: [size] is [None] when the attribute is missing or
    unset. *)
Record UploadFile := mkUpload {
  filename : option string;
  size : option Z;
  content : list Byte.byte
}.

(** What a structured-output request can come back with: a parsed model,
    [parsed = None], a pydantic [ValidationError] (location and message of
    its first error, when it has one), or any other exception. *)
Inductive llm_reply (A : Type) :=
| Parsed (a : A)
| NotParsed
| InvalidOutput (first : option (option string * option string))
| ApiFailure (e : exn).
Arguments Parsed {A} a.
Arguments NotParsed {A}.
Arguments InvalidOutput {A} first.
Arguments ApiFailure {A} e.

(** The OpenAI client, as far as the handlers use it. *)
Record OpenAI := mkClient {
  transcriptions_create : string -> list Byte.byte -> outcome string;
  parse_contact_name : string -> llm_reply (string * bool);
  parse_due_date : string -> llm_reply (string * option Z);
  parse_line_item :
    string -> llm_reply (string * Decimal * Decimal * string * VATRate)
}.

(** Requests sent to the external collaborators, oldest first. *)
Inductive call :=
| WhisperCall (name : string) (audio : list Byte.byte)
| ChatCall (model_class : string) (transcript : string).

Definition too_large : exn :=
  StepValidationError "audio"
    "Audio file too large. Please keep recordings under 10MB.".

(** The [try] block of [transcribe_audio]. *)
Definition transcribe_audio_try (client : OpenAI) (audio_file : UploadFile)
    : outcome string * list call :=
  let declared_too_large :=
    match size audio_file with
    | Some n => negb (n =? 0)%Z && (n >? MAX_AUDIO_SIZE)%Z
    | None => false
    end in
  if declared_too_large then (Raise too_large, [])
  else
    let audio_content := content audio_file in
    if (Z.of_nat (length audio_content) >? MAX_AUDIO_SIZE)%Z
    then (Raise too_large, [])
    else
      let name := match filename audio_file with
                  | Some f => if String.eqb f "" then "audio.webm" else f
                  | None => "audio.webm"
                  end in
      match transcriptions_create client name audio_content with
      | Return text => (Return (strip text), [WhisperCall name audio_content])
      | Raise e => (Raise e, [WhisperCall name audio_content])
      end.

(** [transcribe_audio]: every exception of the block, the size rejection
    included, is re-raised as a [StepValidationError] on the audio field. *)
Definition transcribe_audio (client : OpenAI) (audio_file : UploadFile)
    : outcome string * list call :=
  match transcribe_audio_try client audio_file with
  | (Return t, calls) => (Return t, calls)
  | (Raise _, calls) =>
      (Raise (StepValidationError "audio"
                "Failed to transcribe audio. Please try speaking again."), calls)
  end.

(** The [except ValidationError] clause of [process_voice_step]. *)
Definition validation_error (first : option (option string * option string)) : exn :=
  match first with
  | None => StepValidationError "unknown" "Validation failed"
  | Some (loc, msg) =>
      StepValidationError (default "unknown" loc)
                          (default "Please provide valid information" msg)
  end.

Section Parsers.
Context {B : Builtins}.

Definition _parse_contact_name_step (client : OpenAI) (transcript : string)
    : outcome (string * parsed_result) :=
  match parse_contact_name client transcript with
  | ApiFailure e => Raise e
  | InvalidOutput first => Raise (validation_error first)
  | NotParsed =>
      Raise (StepValidationError "contact_name"
               "Could not understand the name. Please speak clearly.")
  | Parsed (contact_name, is_organization) =>
      match sanitize_name contact_name with
      | Return sanitized => Return (transcript, InvoiceContactNameStep sanitized is_organization)
      | Raise (ValueError msg) => Raise (StepValidationError "contact_name" msg)
      | Raise e => Raise e
      end
  end.

Definition _parse_due_date_step (client : OpenAI) (transcript : string)
    : outcome (string * parsed_result) :=
  match parse_due_date client transcript with
  | ApiFailure e => Raise e
  | InvalidOutput first => Raise (validation_error first)
  | NotParsed =>
      Raise (StepValidationError "due_date"
               "Could not understand the due date. Please try again.")
  | Parsed (due_date, days_from_now) =>
      Return (transcript, InvoiceDueDateStep due_date days_from_now)
  end.

Definition _parse_line_item_step (client : OpenAI) (transcript : string)
    : outcome (string * parsed_result) :=
  match parse_line_item client transcript with
  | ApiFailure e => Raise e
  | InvalidOutput first => Raise (validation_error first)
  | NotParsed =>
      Raise (StepValidationError "line_item"
               "Could not understand the line item details.")
  | Parsed (description, quantity, unit_price, account_code, vat_rate) =>
      Return (transcript,
              InvoiceLineItemStep description quantity unit_price account_code vat_rate)
  end.

(** [process_voice_step] *)
Definition process_voice_step (client : OpenAI) (audio_file : UploadFile)
    (step : string) : outcome (string * parsed_result) * list call :=
  match transcribe_audio client audio_file with
  | (Raise e, calls) => (Raise e, calls)
  | (Return transcript, calls) =>
      if String.eqb step "contact_name" then
        (_parse_contact_name_step client transcript,
         calls ++ [ChatCall "InvoiceContactNameStep" transcript])
      else if String.eqb step "due_date" then
        (_parse_due_date_step client transcript,
         calls ++ [ChatCall "InvoiceDueDateStep" transcript])
      else if String.eqb step "line_item" then
        (_parse_line_item_step client transcript,
         calls ++ [ChatCall "InvoiceLineItemStep" transcript])
      else (Raise (ValueError "Unknown voice step"), calls)
  end.
End Parsers.
End InvoiceSteps.

(** ** [invoice_workflow/routes]: what each handler does to the session

    Every handler starts with [get_invoice_session(session_id)] and mutates
    the object it gets; here the handler is a function of that session.
    Requests turned away before the session is fetched (authentication,
    malformed session id, rate limit) touch nothing and are not modelled.
    The response is reduced to success, or the status and JSON error code of
    the failure branch taken.

    [workflow_routes.py] also defines [/confirm-line-item],
    [/add-another-item] and [/proceed-to-review]; the aggregator includes
    [step_routes.py] first (see [contact_workflow/routes/__init__.py]), so the
    handlers of [step_routes.py], modelled here, are the ones that serve
    these paths. *)

Module InvoiceRoutes.
Import Invoice InvoiceSteps.

Inductive response :=
| Success
| Failure (status : Z) (code : string).

(** [step or session.current_step], [if step and ...]: a form field is
    truthy when present and non-empty. *)
Definition form_value (v : option string) : option string :=
  match v with
  | Some x => if String.eqb x "" then None else Some x
  | None => None
  end.

(** [GET /new] with a [session_id] query parameter. *)
Definition new_invoice_workflow (step : option string) (s : session)
    : session * response :=
  match form_value step with
  | Some st =>
      if mem st (completed_steps s) || String.eqb st (current_step s)
      then (set_current_step st s, Success)
      else (s, Success)
  | None => (s, Success)
  end.

(** [POST /start] *)
Definition start_invoice_workflow (now : time) (s : session)
    : session * response :=
  if String.eqb (current_step s) "welcome" then
    match advance_step now s with
    | (s', Return _) => (s', Success)
    | (s', Raise _) => (s', Failure 500 "")
    end
  else (s, Success).

(** [POST /go-to-step] *)
Definition go_to_step (step : string) (s : session) : session * response :=
  if negb (mem step (@get_workflow_steps workflow))
  then (s, Failure 400 "INVALID_STEP")
  else
    let can_navigate :=
      if String.eqb step "line_item" && truthy_get (invoice_data s) "line_items"
      then true
      else if mem step (completed_steps s) || String.eqb step (current_step s)
      then true
      else false in
    if can_navigate
    then (set_current_step step s, Success)
    else (s, Failure 400 "STEP_NOT_ACCESSIBLE").

(** [POST /reset] *)
Definition reset_workflow (now : time) (s : session) : session * response :=
  (reset now s, Success).

Section WithBuiltins.
Context {B : Builtins}.

(** [POST /step]. [csrf_ok] is the outcome of the CSRF test that only web
    requests go through; [api_key] is what [get_openai_api_key] returned. *)
Definition process_invoice_step (now : time) (is_mobile csrf_ok : bool)
    (api_key : option string) (client : OpenAI) (audio_file : UploadFile)
    (step : string) (s : session) : session * response * list call :=
  if negb is_mobile && negb csrf_ok then (s, Failure 403 "", [])
  else
    match form_value api_key with
    | None => (s, Failure 400 "API_KEY_MISSING", [])
    | Some _ =>
        match process_voice_step client audio_file step with
        | (Return (transcript, parsed), calls) =>
            (store_step_result now step parsed transcript s, Success, calls)
        | (Raise (StepValidationError _ _), calls) =>
            (s, Failure 400 "VALIDATION_ERROR", calls)
        | (Raise _, calls) => (s, Failure 500 "PROCESSING_ERROR", calls)
        end
    end.

(** [POST /update-field] *)
Definition update_invoice_field (now : time) (field_name field_value : string)
    (s : session) : session * response :=
  match update_field now field_name field_value s with
  | (s', Return _) => (s', Success)
  | (s', Raise _) => (s', Failure 500 "UPDATE_ERROR")
  end.
End WithBuiltins.

(** [POST /confirm-step]; [step] is the optional form field. *)
Definition confirm_step (now : time) (step : option string) (s : session)
    : session * response :=
  let current := default (current_step s) (form_value step) in
  if String.eqb current "line_item" && has_pending_item s
  then (s, Success)
  else
    let s1 := if negb (String.eqb current "line_item")
                 && negb (mem current (completed_steps s))
              then set_completed_steps (completed_steps s ++ [current]) s
              else s in
    match advance_step now s1 with
    | (s2, Return _) => (s2, Success)
    | (s2, Raise _) => (s2, Failure 500 "CONFIRMATION_ERROR")
    end.

(** The shared opening of the three decision handlers:
    [if current_item: session.add_line_item(current_item)]. *)
Definition save_current_item (s : session) : session * outcome unit :=
  match invoice_data s !! "current_line_item" with
  | Some current_item =>
      if truthy current_item then add_line_item current_item s
      else (s, Return tt)
  | None => (s, Return tt)
  end.

Definition mark_line_item_complete (s : session) : session :=
  if negb (mem "line_item" (completed_steps s))
  then set_completed_steps (completed_steps s ++ ["line_item"]) s
  else s.

(** [POST /confirm-line-item] of [step_routes.py] *)
Definition confirm_line_item (add_another : string) (s : session)
    : session * response :=
  match save_current_item s with
  | (s1, Raise _) => (s1, Failure 500 "LINE_ITEM_ERROR")
  | (s1, Return _) =>
      if String.eqb (lower add_another) "true"
      then (set_has_pending_item false (set_current_step "line_item" s1), Success)
      else
        let s2 := mark_line_item_complete s1 in
        (set_has_pending_item false (set_current_step "review" s2), Success)
  end.

(** [POST /add-another-item] of [step_routes.py] *)
Definition add_another_item (s : session) : session * response :=
  match save_current_item s with
  | (s1, Raise _) => (s1, Failure 500 "ADD_ITEM_ERROR")
  | (s1, Return _) => (set_current_step "line_item" s1, Success)
  end.

(** [POST /proceed-to-review] of [step_routes.py] *)
Definition proceed_to_review (s : session) : session * response :=
  match save_current_item s with
  | (s1, Raise _) => (s1, Failure 500 "REVIEW_ERROR")
  | (s1, Return _) =>
      if negb (truthy_get (invoice_data s1) "line_items")
      then (s1, Failure 400 "NO_LINE_ITEMS")
      else (set_current_step "review" (mark_line_item_complete s1), Success)
  end.

(** [POST /clear-line-item]: the chained comparison does not evaluate [len]
    for a negative index. *)
Definition clear_line_item (item_index : Z) (s : session) : session * response :=
  if (item_index <? 0)%Z then (s, Success)
  else
    match py_len (default (PList []) (invoice_data s !! "line_items")) with
    | Raise _ => (s, Failure 500 "CLEAR_ITEM_ERROR")
    | Return n =>
        if (item_index <? n)%Z then
          match invoice_data s !! "line_items" with
          | Some (PList l) =>
              let l' := delete (Z.to_nat item_index) l in
              (set_line_item_count (Z.of_nat (length l'))
                 (set_invoice_data (<["line_items" := PList l']> (invoice_data s)) s),
               Success)
          | _ => (s, Failure 500 "CLEAR_ITEM_ERROR")
          end
        else (s, Success)
    end.

(** [POST /clear-all-line-items] *)
Definition clear_all_line_items (s : session) : session * response :=
  let s1 := set_invoice_data (<["line_items" := PList []]> (invoice_data s)) s in
  let s2 := set_line_item_count 0 s1 in
  let s3 := set_invoice_data (<["current_line_item" := PNone]> (invoice_data s2)) s2 in
  (set_has_pending_item false s3, Success).

Definition mark_review_complete (s : session) : session :=
  if negb (mem "review" (completed_steps s))
  then set_completed_steps (completed_steps s ++ ["review"]) s
  else s.

(** [POST /proceed-to-submit] *)
Definition proceed_to_submit (s : session) : session * response :=
  match to_invoice_create s with
  | Raise _ => (s, Failure 500 "")
  | Return false => (s, Failure 400 "")
  | Return true => (set_current_step "final_submit" (mark_review_complete s), Success)
  end.

(** [POST /submit-to-xero]. [xero] is how the exchange with the accounting
    service ended: [None] when the invoice was created, otherwise the failure
    response that the handler returns. *)
Definition submit_to_xero (xero : option response) (s : session)
    : session * response :=
  match to_invoice_create s with
  | Raise _ => (s, Failure 500 "SUBMISSION_ERROR")
  | Return false => (s, Failure 400 "INVALID_DATA")
  | Return true =>
      match xero with
      | Some failure => (s, failure)
      | None => (set_current_step "complete" s, Success)
      end
  end.

(** [POST /complete] *)
Definition complete_invoice_workflow (s : session) : session * response :=
  (set_current_step "complete" s, Success).

(** *** Requests as data *)

Inductive op :=
| NewWorkflow (step : option string)
| Start
| GoToStep (step : string)
| Reset
| VoiceStep (is_mobile csrf_ok : bool) (api_key : option string)
    (client : OpenAI) (audio_file : UploadFile) (step : string)
| ConfirmStep (step : option string)
| ConfirmLineItem (add_another : string)
| AddAnotherItem
| ProceedToReview
| UpdateField (field_name field_value : string)
| ClearLineItem (item_index : Z)
| ClearAllLineItems
| ProceedToSubmit
| SubmitToXero (xero : option response)
| Complete
| Expired (t_created t_updated : time).

Section Handle.
Context {B : Builtins}.

(** One request served at time [now]. [Expired] stands for the case where
    [get_invoice_session] found the stored session too old and replaced it
    by a new one under the same id. *)
Definition handle (now : time) (o : op) (s : session) : session * response :=
  match o with
  | NewWorkflow step => new_invoice_workflow step s
  | Start => start_invoice_workflow now s
  | GoToStep step => go_to_step step s
  | Reset => reset_workflow now s
  | VoiceStep is_mobile csrf_ok api_key client audio_file step =>
      (process_invoice_step now is_mobile csrf_ok api_key client audio_file step s).1
  | ConfirmStep step => confirm_step now step s
  | ConfirmLineItem add_another => confirm_line_item add_another s
  | AddAnotherItem => add_another_item s
  | ProceedToReview => proceed_to_review s
  | UpdateField field_name field_value => update_invoice_field now field_name field_value s
  | ClearLineItem item_index => clear_line_item item_index s
  | ClearAllLineItems => clear_all_line_items s
  | ProceedToSubmit => proceed_to_submit s
  | SubmitToXero xero => submit_to_xero xero s
  | Complete => complete_invoice_workflow s
  | Expired t_created t_updated =>
      (init (Some (Base.session_id (base s))) "" t_created t_updated, Success)
  end.

(** Serving a list of timed requests in order. *)
Definition run (reqs : list (time * op)) (s : session) : session :=
  foldl (fun acc r => (handle r.1 r.2 acc).1) s reqs.

(** Sessions that a client can bring about: a new session, then requests
    that satisfy [allowed]. *)
Inductive reachable_by (allowed : op -> Prop) : session -> Prop :=
| reach_init sid uuid4 t_created t_updated :
    reachable_by allowed (init sid uuid4 t_created t_updated)
| reach_step s now o :
    reachable_by allowed s -> allowed o ->
    reachable_by allowed (handle now o s).1.

Definition reachable : session -> Prop := reachable_by (fun _ => True).
End Handle.
End InvoiceRoutes.

(** ** [contact_workflow/session_store.py] *)

Module Contact.

Definition CONTACT_STEPS : list string :=
  ["welcome"; "name"; "email"; "address"; "review"; "final_submit"; "complete"].

Definition atom_truthy (a : option atom) : bool :=
  match a with
  | Some (AStr x) => negb (String.eqb x "")
  | Some (AFloat _) => true
  | None => false
  end.

(** [validate_step_data]: the list given to [all] is built in full, so
    [.get] is called on whatever is stored under ["address"]. *)
Definition validate_step_data_impl (step : string) (data : gmap string pyval)
    : outcome bool :=
  if String.eqb step "name" then Return (truthy_get data "name")
  else if String.eqb step "email" then Return (truthy_get data "email_address")
  else if String.eqb step "address" then
    match data !! "address" with
    | None => Return false
    | Some (PDict a) =>
        Return (truthy (PDict a) && atom_truthy (dict_get "AddressLine1" a)
                && atom_truthy (dict_get "City" a)
                && atom_truthy (dict_get "PostalCode" a))
    | Some _ => Raise AttributeError
    end
  else Return (mem step ["welcome"; "review"; "final_submit"; "complete"]).

#[export] Instance workflow : Workflow := {|
  get_workflow_steps := CONTACT_STEPS;
  get_initial_step := "welcome";
  validate_step_data := validate_step_data_impl
|}.

Record session := mk {
  base : Base.session;
  contact_data : gmap string pyval;
  transcripts : gmap string string;
  parsed_results : gmap string parsed_result;
  errors : gmap string string
}.

Definition current_step (s : session) : string := Base.current_step (base s).
Definition completed_steps (s : session) : list string := Base.completed_steps (base s).

Definition initial_contact_data : gmap string pyval :=
  <["name" := PNone]> (<["email_address" := PNone]> (<["address" := PNone]> ∅)).

Definition init (sid : option string) (uuid4 : string)
    (t_created t_updated : time) : session :=
  mk (Base.init sid uuid4 t_created t_updated) initial_contact_data ∅ ∅ ∅.

Definition parse_contact_data (step : string) (parsed : parsed_result)
    : gmap string pyval :=
  match parsed with
  | ContactNameStep name _ =>
      if String.eqb step "name" then {[ "name" := PStr name ]} else ∅
  | ContactEmailStep email_address =>
      if String.eqb step "email"
      then {[ "email_address" := PStr email_address ]} else ∅
  | ContactAddressStep address_line1 city postal_code country =>
      if String.eqb step "address"
      then {[ "address" := PDict [("AddressLine1", AStr address_line1);
                                  ("City", AStr city);
                                  ("PostalCode", AStr postal_code);
                                  ("Country", AStr country)] ]}
      else ∅
  | _ => ∅
  end.

(** [store_step_result] *)
Definition store_step_result (now : time) (step : string)
    (result : parsed_result) (transcript : string) (s : session) : session :=
  let transcripts' := <[step := transcript]> (transcripts s) in
  let parsed_results' := <[step := result]> (parsed_results s) in
  let parsed_data := parse_contact_data step result in
  let contact_data' := parsed_data ∪ contact_data s in
  let b1 := Base.set_workflow_data (parsed_data ∪ Base.workflow_data (base s)) (base s) in
  let b2 := if negb (bool_decide (parsed_data = ∅))
            then Base.mark_step_complete now step parsed_data b1
            else b1 in
  mk b2 contact_data' transcripts' parsed_results' (errors s).


(** [can_advance]: the override reads [contact_data]. *)
Definition can_advance (s : session) : outcome bool :=
  validate_step_data_impl (current_step s) (contact_data s).

(** [reset]: every attribute of the session except its id and creation
    time is assigned. *)
Definition reset (now : time) (s : session) : session :=
  mk (Base.mk (Base.session_id (base s)) "welcome" [] ∅ ∅
              (Base.created_at (base s)) now)
     initial_contact_data ∅ ∅ ∅.

End Contact.

(** ** [common/token_auth.py] *)

Module TokenAuth.

Record TokenPayload := mkPayload {
  session_id : string;
  xero_connected : bool;
  openai_valid : bool;
  tenant_id : option string;
  exp : time;
  iat : time
}.

Record MobileSession := mkMobile {
  ms_session_id : string;
  xero_token : option (list (string * string));
  openai_api_key : option string;
  ms_tenant_id : option string;
  created_at : time;
  last_accessed : time
}.

(** A request, as far as credential resolution reads it: the value of the
    [Authorization] header and the signed cookie session. *)
Record Request := mkRequest {
  authorization : option string;
  cookie : gmap string string
}.

(** [request.app.state]: [validate_token] is the JWT check of
    [MobileAuthManager] (signature and expiry, [None] on failure);
    [get_session_data] and [get_api_key] are the cookie readers of
    [SecureSessionManager]. *)
Record AppState := mkApp {
  validate_token : string -> option TokenPayload;
  get_session_data : Request -> string -> option (list (string * string));
  get_api_key : Request -> option string
}.

Abbreviation mobile_sessions := (gmap string MobileSession).

(** [extract_bearer_token] *)
Definition extract_bearer_token (request : Request) : option string :=
  let auth_header := default "" (authorization request) in
  if String.prefix "Bearer " auth_header
  then Some (drop_prefix 7 auth_header)
  else None.

(** [MobileAuthManager.get_mobile_session]: a hit refreshes
    [last_accessed] in place. *)
Definition get_mobile_session (now : time) (sid : string) (ms : mobile_sessions)
    : mobile_sessions * option MobileSession :=
  match ms !! sid with
  | Some session =>
      let session' := mkMobile (ms_session_id session) (xero_token session)
                        (openai_api_key session) (ms_tenant_id session)
                        (created_at session) now in
      (<[sid := session']> ms, Some session')
  | None => (ms, None)
  end.

Definition dict_truthy {A} (d : option (list A)) : bool :=
  match d with
  | Some (_ :: _) => true
  | _ => false
  end.

Definition str_truthy (x : option string) : bool :=
  match x with
  | Some v => negb (String.eqb v "")
  | None => false
  end.

(** [get_xero_token] *)
Definition get_xero_token (app : AppState) (now : time) (request : Request)
    (ms : mobile_sessions) : mobile_sessions * option (list (string * string)) :=
  match extract_bearer_token request with
  | Some token =>
      if negb (String.eqb token "") then
        match validate_token app token with
        | Some payload =>
            match get_mobile_session now (session_id payload) ms with
            | (ms', Some session) =>
                if dict_truthy (xero_token session)
                then (ms', xero_token session)
                else (ms', None)
            | (ms', None) => (ms', None)
            end
        | None => (ms, None)
        end
      else (ms, get_session_data app request "xero_token")
  | None => (ms, get_session_data app request "xero_token")
  end.

(** [get_openai_api_key] *)
Definition get_openai_api_key (app : AppState) (now : time) (request : Request)
    (ms : mobile_sessions) : mobile_sessions * option string :=
  match extract_bearer_token request with
  | Some token =>
      if negb (String.eqb token "") then
        match validate_token app token with
        | Some payload =>
            match get_mobile_session now (session_id payload) ms with
            | (ms', Some session) =>
                if str_truthy (openai_api_key session)
                then (ms', openai_api_key session)
                else (ms', None)
            | (ms', None) => (ms', None)
            end
        | None => (ms, None)
        end
      else (ms, get_api_key app request)
  | None => (ms, get_api_key app request)
  end.


(** [MobileAuthManager.create_mobile_session]: an entry under the same id is
    replaced. *)
Definition create_mobile_session (now : time) (sid : string)
    (xero : option (list (string * string))) (api_key tenant : option string)
    (ms : mobile_sessions) : mobile_sessions * MobileSession :=
  let session := mkMobile sid xero api_key tenant now now in
  (<[sid := session]> ms, session).

(** [MobileAuthManager.update_mobile_session]: an argument left at [None]
    keeps what is stored. *)
Definition update_mobile_session (now : time) (sid : string)
    (xero : option (list (string * string))) (api_key tenant : option string)
    (ms : mobile_sessions) : mobile_sessions * option MobileSession :=
  match ms !! sid with
  | None => (ms, None)
  | Some session =>
      let session' :=
        mkMobile (ms_session_id session)
          (match xero with Some _ => xero | None => xero_token session end)
          (match api_key with Some _ => api_key | None => openai_api_key session end)
          (match tenant with Some _ => tenant | None => ms_tenant_id session end)
          (created_at session) now in
      (<[sid := session']> ms, Some session')
  end.

(** [MobileAuthManager.delete_mobile_session] *)
Definition delete_mobile_session (sid : string) (ms : mobile_sessions)
    : mobile_sessions * bool :=
  match ms !! sid with
  | Some _ => (delete sid ms, true)
  | None => (ms, false)
  end.

(** [timedelta(hours=n)] in microseconds. *)
Definition hours (n : Z) : Z := n * (60 * 60 * 1000000).

(** [session.last_accessed < cutoff] *)
Definition stale (now : time) (max_age_hours : Z) (session : MobileSession) : bool :=
  (last_accessed session <? now - hours max_age_hours)%Z.

Definition stale_ids (now : time) (max_age_hours : Z) (ms : mobile_sessions)
    : list string :=
  (filter (fun p => stale now max_age_hours p.2 = true) (map_to_list ms)).*1.

(** [MobileAuthManager.cleanup_expired_sessions] *)
Definition cleanup_expired_sessions (now : time) (max_age_hours : Z)
    (ms : mobile_sessions) : mobile_sessions * Z :=
  let expired := stale_ids now max_age_hours ms in
  (foldl (fun m sid => delete sid m) ms expired, Z.of_nat (length expired)).

(** [require_mobile_auth]: the [HTTPException] is given by its status and
    the code of its detail; [mobile_auth] is the manager's [validate_token]. *)
Definition require_mobile_auth (request : Request)
    (mobile_auth : string -> option TokenPayload) : (Z * string) + TokenPayload :=
  match extract_bearer_token request with
  | Some token =>
      if String.eqb token "" then inl (401, "AUTH_REQUIRED")
      else
        match mobile_auth token with
        | Some payload => inr payload
        | None => inl (401, "INVALID_TOKEN")
        end
  | None => inl (401, "AUTH_REQUIRED")
  end.

End TokenAuth.

(** ** [contact_workflow/step_handlers.py]: the transcription step is the
    same code as in the invoice workflow. *)
Module ContactSteps.
Definition MAX_AUDIO_SIZE : Z := 10 * 1024 * 1024.

Definition transcribe_audio_try (client : InvoiceSteps.OpenAI)
    (audio_file : InvoiceSteps.UploadFile)
    : outcome string * list InvoiceSteps.call :=
  let declared_too_large :=
    match InvoiceSteps.size audio_file with
    | Some n => negb (n =? 0)%Z && (n >? MAX_AUDIO_SIZE)%Z
    | None => false
    end in
  if declared_too_large then (Raise InvoiceSteps.too_large, [])
  else
    let audio_content := InvoiceSteps.content audio_file in
    if (Z.of_nat (length audio_content) >? MAX_AUDIO_SIZE)%Z
    then (Raise InvoiceSteps.too_large, [])
    else
      let name := match InvoiceSteps.filename audio_file with
                  | Some f => if String.eqb f "" then "audio.webm" else f
                  | None => "audio.webm"
                  end in
      match InvoiceSteps.transcriptions_create client name audio_content with
      | Return text =>
          (Return (strip text), [InvoiceSteps.WhisperCall name audio_content])
      | Raise e => (Raise e, [InvoiceSteps.WhisperCall name audio_content])
      end.

Definition transcribe_audio (client : InvoiceSteps.OpenAI)
    (audio_file : InvoiceSteps.UploadFile)
    : outcome string * list InvoiceSteps.call :=
  match transcribe_audio_try client audio_file with
  | (Return t, calls) => (Return t, calls)
  | (Raise _, calls) =>
      (Raise (StepValidationError "audio"
                "Failed to transcribe audio. Please try speaking again."), calls)
  end.
End ContactSteps.

(** ** [routes.py]: storing a validated OpenAI key for a mobile client *)

Module AuthRoutes.
Import TokenAuth.

(** [POST /auth/mobile/validate-openai]. [key_check] is how
    [OpenAIValidator.validate_api_key] ended; [t_read] and [t_write] are the
    clock reads of the look-up and of the write that follows it. *)
Definition mobile_validate_openai (app : AppState) (t_read t_write : time)
    (key_check : outcome bool) (request : Request) (api_key : string)
    (ms : mobile_sessions) : mobile_sessions * InvoiceRoutes.response :=
  match extract_bearer_token request with
  | None => (ms, InvoiceRoutes.Failure 401 "AUTH_REQUIRED")
  | Some token =>
      if String.eqb token "" then (ms, InvoiceRoutes.Failure 401 "AUTH_REQUIRED")
      else
        match validate_token app token with
        | None => (ms, InvoiceRoutes.Failure 401 "INVALID_TOKEN")
        | Some payload =>
            match key_check with
            | Raise _ => (ms, InvoiceRoutes.Failure 500 "VALIDATION_ERROR")
            | Return false => (ms, InvoiceRoutes.Failure 400 "OPENAI_NOT_VALID")
            | Return true =>
                match get_mobile_session t_read (session_id payload) ms with
                | (ms1, Some _) =>
                    ((update_mobile_session t_write (session_id payload)
                        None (Some api_key) None ms1).1,
                     InvoiceRoutes.Success)
                | (ms1, None) =>
                    ((create_mobile_session t_write (session_id payload)
                        None (Some api_key) (tenant_id payload) ms1).1,
                     InvoiceRoutes.Success)
                end
            end
        end
  end.

End AuthRoutes.

(** ** [contact_workflow/validators/session_validators.py] *)

Module SessionValidators.

(** The dict that [validate_step_transition] returns. *)
Record transition := mkTransition {
  is_valid : bool;
  error : option string;
  can_proceed : bool
}.

(** [validate_step_transition]; [list.index] raises when the step is
    absent. *)
Definition validate_step_transition (current_step next_step : string)
    (workflow_steps completed_steps : list string) : outcome transition :=
  if negb (mem current_step workflow_steps)
  then Return (mkTransition false (Some ("Invalid current step: " +:+ current_step)) false)
  else if negb (mem next_step workflow_steps)
  then Return (mkTransition false (Some ("Invalid next step: " +:+ next_step)) false)
  else
    match index current_step workflow_steps with
    | None => Raise (ValueError "not in list")
    | Some current_idx =>
        match index next_step workflow_steps with
        | None => Raise (ValueError "not in list")
        | Some next_idx =>
            if (Z.of_nat next_idx =? Z.of_nat current_idx + 1)%Z
            then Return (mkTransition true None true)
            else if mem next_step completed_steps
            then Return (mkTransition true None false)
            else if String.eqb next_step current_step
            then Return (mkTransition true None false)
            else Return (mkTransition false
                           (Some ("Cannot transition from " +:+ current_step
                                  +:+ " to " +:+ next_step)) false)
        end
    end.

End SessionValidators.

(** ** [contact_workflow/routes/workflow_routes.py] *)

Module ContactRoutes.
Import Contact.

Definition set_current_step (v : string) (s : session) : session :=
  mk (Base.set_current_step v (base s)) (contact_data s) (transcripts s)
     (parsed_results s) (errors s).

(** [POST /go-to-step], once the session has been fetched. *)
Definition go_to_step (step : string) (s : session)
    : session * InvoiceRoutes.response :=
  if negb (mem step (@get_workflow_steps workflow))
  then (s, InvoiceRoutes.Failure 400 "INVALID_STEP")
  else if mem step (completed_steps s) || String.eqb step (current_step s)
  then (set_current_step step s, InvoiceRoutes.Success)
  else (s, InvoiceRoutes.Failure 400 "STEP_NOT_ACCESSIBLE").

End ContactRoutes.

(** ** [invoice_workflow/validators/field_validators.py]

    The text is read as ASCII: outside it, [str.split] and the [\s] of the
    pattern know white space that [is_space] does not. *)

Module FieldValidators.

(** [s.split()]: the maximal runs of characters that are not white space. *)
Fixpoint split_ws (s : string) : list string :=
  match s with
  | EmptyString => []
  | String c s' =>
      if is_space c then split_ws s'
      else
        match s' with
        | EmptyString => [String c EmptyString]
        | String c' _ =>
            if is_space c' then String c EmptyString :: split_ws s'
            else
              match split_ws s' with
              | w :: ws => String c w :: ws
              | [] => [String c EmptyString]
              end
        end
  end.

(** The character class of [allowed_pattern] in [sanitize_name]. *)
Definition name_char (c : ascii) : bool :=
  let n := nat_of_ascii c in
  ((97 <=? n) && (n <=? 122) || (65 <=? n) && (n <=? 90)
   || (48 <=? n) && (n <=? 57))%nat
  || is_space c
  || existsb (Ascii.eqb c) ["-"; "'"; "."; ","; "&"]%char.

Fixpoint all_chars (p : ascii -> bool) (s : string) : bool :=
  match s with
  | EmptyString => true
  | String c s' => p c && all_chars p s'
  end.

(** [re.match(r"^[...]+$", s)] for a character class that contains the
    newline: the text is not empty and every character is in the class. *)
Definition matches_class (p : ascii -> bool) (s : string) : bool :=
  negb (String.eqb s "") && all_chars p s.

(** [sanitize_name] *)
Definition sanitize_name (name : string) : outcome string :=
  if String.eqb name "" || String.eqb (strip name) ""
  then Raise (ValueError "Name cannot be empty")
  else
    let name := join " " (split_ws name) in
    if (Z.of_nat (String.length name) >? 255)%Z
    then Raise (ValueError "Name cannot exceed 255 characters")
    else if negb (matches_class name_char name)
    then Raise (ValueError
                  ("Name contains invalid characters. Only letters, numbers, spaces, "
                   +:+ "hyphens, apostrophes, periods, commas, and ampersands are allowed."))
    else Return name.

End FieldValidators.

(** An instance of the built-ins for evaluating examples: it reads plain
    decimal numerals (where it agrees with Python) and rejects everything
    else; names pass the sanitizer unchanged. *)
Definition is_digit (c : ascii) : bool :=
  let n := nat_of_ascii c in ((48 <=? n) && (n <=? 57))%nat.

Fixpoint digits_value (acc : Z) (s : string) : option Z :=
  match s with
  | EmptyString => Some acc
  | String c s' =>
      if is_digit c
      then digits_value (10 * acc + Z.of_nat (nat_of_ascii c - 48)) s'
      else None
  end.

Definition decimal_int (s : string) : option Z :=
  match s with
  | EmptyString => None
  | String "-" (String c r) => option_map Z.opp (digits_value 0 (String c r))
  | _ => digits_value 0 s
  end.

Definition plain_builtins : Builtins := {|
  int_of_str := decimal_int;
  float_accepts := fun s => bool_decide (is_Some (decimal_int s));
  sanitize_name := fun n => Return n
|}.

(** ** Sample requests and sessions, used to evaluate the handlers *)

Module Sample.
Import Invoice InvoiceSteps InvoiceRoutes.
#[local] Existing Instance plain_builtins.

Definition client : OpenAI := {|
  transcriptions_create := fun _ _ => Return "ten hours of consulting";
  parse_contact_name := fun _ => Parsed ("Acme Ltd", true);
  parse_due_date := fun _ => Parsed ("2025-12-31", None);
  parse_line_item := fun _ =>
    Parsed ("Consulting", mkDecimal 10 0, mkDecimal 150 0, "200", STANDARD)
|}.

Definition audio : UploadFile :=
  mkUpload (Some "clip.webm") (Some 3) [Byte.x52; Byte.x49; Byte.x46].

(** A mobile voice submission of [step]. *)
Definition voice (step : string) : op :=
  VoiceStep true true (Some "sk-sample") client audio step.

Definition fresh : session := init (Some "s1") "" 0 0.

(** Start, name and due date given and confirmed: the session waits on
    ["line_item"]. *)
Definition at_line_item : session :=
  run [(1, Start); (2, voice "contact_name"); (3, ConfirmStep None);
       (4, voice "due_date"); (5, ConfirmStep None)] fresh.

(** A line item has been parsed and waits for the decision. *)
Definition with_pending : session := run [(6, voice "line_item")] at_line_item.

Definition item : pyval :=
  PDict [("description", AStr "Consulting");
         ("quantity", AFloat (FloatOfDecimal (mkDecimal 10 0)));
         ("unit_price", AFloat (FloatOfDecimal (mkDecimal 150 0)));
         ("account_code", AStr "200");
         ("vat_rate", AStr "standard")].

(** An application whose cookie session holds an API key and a Xero token
    and whose JWT check turns every token down, and a request that carries a
    bearer token. *)
Definition cookie_app : TokenAuth.AppState := {|
  TokenAuth.validate_token := fun _ => None;
  TokenAuth.get_session_data := fun _ _ => Some [("access_token", "xero-cookie")];
  TokenAuth.get_api_key := fun _ => Some "sk-cookie"
|}.

Definition bearer_request : TokenAuth.Request :=
  TokenAuth.mkRequest (Some "Bearer stale.jwt.token") ∅.

(** A contact session whose name step has been given once. *)
Definition contact_named : Contact.session :=
  Contact.store_step_result 1 "name" (ContactNameStep "Acme Ltd" true)
    "acme limited" (Contact.init (Some "c1") "" 0 0).


(** One item committed with "add another", then back to the contact name. *)
Definition one_item_back_on_contact_name : session :=
  run [(7, AddAnotherItem); (8, GoToStep "contact_name")] with_pending.

(** An item is pending and the client goes back to the contact name. *)
Definition pending_back_on_contact_name : session :=
  run [(7, GoToStep "contact_name")] with_pending.

(** Ten rounds of "parse an item, add another". *)
Definition full : session :=
  run (concat (repeat [(7, voice "line_item"); (8, AddAnotherItem)] 10)) at_line_item.

(** An application whose JWT check accepts one token, for the mobile session
    ["m1"], and a request that carries it. *)
Definition payload : TokenAuth.TokenPayload :=
  TokenAuth.mkPayload "m1" true false None 86400000000 0.

Definition jwt_app : TokenAuth.AppState := {|
  TokenAuth.validate_token :=
    fun token => if String.eqb token "good.jwt" then Some payload else None;
  TokenAuth.get_session_data := fun _ _ => None;
  TokenAuth.get_api_key := fun _ => None
|}.

Definition good_request : TokenAuth.Request :=
  TokenAuth.mkRequest (Some "Bearer good.jwt") ∅.

(** The built-ins with the name sanitizer of the source. *)
Definition sanitizing_builtins : Builtins := {|
  int_of_str := decimal_int;
  float_accepts := fun s => bool_decide (is_Some (decimal_int s));
  sanitize_name := FieldValidators.sanitize_name
|}.

End Sample.

(** ** Notions used in the statements *)

(** The step that follows [current] in the ordered list. *)
Definition next_step (steps : list string) (current : string) : option string :=
  match index current steps with
  | Some i => steps !! S i
  | None => None
  end.


(** The "proceed to review" decision, in its two request forms. *)
Definition proceed_decision (o : InvoiceRoutes.op) : Prop :=
  o = InvoiceRoutes.ProceedToReview
  \/ exists add_another,
       o = InvoiceRoutes.ConfirmLineItem add_another
       /\ lower add_another <> "true".

(** The "add another" decision, in its two request forms. *)
Definition add_another_decision (o : InvoiceRoutes.op) : Prop :=
  o = InvoiceRoutes.AddAnotherItem
  \/ exists add_another,
       o = InvoiceRoutes.ConfirmLineItem add_another
       /\ lower add_another = "true".


(** The pending line item, [None] standing for Python's [None]. *)
Definition pending_item (s : Invoice.session) : option pyval :=
  match Invoice.invoice_data s !! "current_line_item" with
  | Some PNone | None => None
  | Some v => Some v
  end.

(** The pending-item rule as the specification words it. *)
Definition pending_only_on_line_item (s : Invoice.session) : Prop :=
  (pending_item s <> None \/ Invoice.has_pending_item s = true) ->
  Invoice.current_step s = "line_item".

(** A voice submission for the line-item step. *)
Definition line_item_submission (o : InvoiceRoutes.op) : Prop :=
  exists is_mobile csrf_ok api_key client audio_file,
    o = InvoiceRoutes.VoiceStep is_mobile csrf_ok api_key client audio_file "line_item".

(** Requests other than a reset and an edit of the field that holds the
    pending item. *)
Definition keeps_pending_slot (o : InvoiceRoutes.op) : Prop :=
  o <> InvoiceRoutes.Reset
  /\ forall v, o <> InvoiceRoutes.UpdateField "current_line_item" v.

(** Requests whose step argument, where the handler takes one from the
    client to record it, names a step of the workflow. *)
Definition names_known_step (o : InvoiceRoutes.op) : Prop :=
  forall step, o = InvoiceRoutes.ConfirmStep (Some step) ->
               step = "" \/ In step Invoice.INVOICE_STEPS.


(** Two sessions with the same invoice data, capacity and pending flag:
    what a handler that only moves through the steps preserves. *)
Definition same_invoice (s s' : Invoice.session) : Prop :=
  Invoice.invoice_data s' = Invoice.invoice_data s
  /\ Invoice.max_line_items s' = Invoice.max_line_items s
  /\ Invoice.has_pending_item s' = Invoice.has_pending_item s.

(** The upload is over the limit: by its declared size, or by the number of
    bytes read from it. *)
Definition oversized (f : InvoiceSteps.UploadFile) : Prop :=
  (exists n, InvoiceSteps.size f = Some n /\ (n > InvoiceSteps.MAX_AUDIO_SIZE)%Z)
  \/ (Z.of_nat (length (InvoiceSteps.content f)) > InvoiceSteps.MAX_AUDIO_SIZE)%Z.

(** The pending slot and the pending flag agree: the slot holds [None] and
    the flag is down, or it holds a non-empty item dict and the flag is up. *)
Definition pending_consistent (s : Invoice.session) : Prop :=
  match Invoice.invoice_data s !! "current_line_item" with
  | Some PNone => Invoice.has_pending_item s = false
  | Some (PDict (_ :: _)) => Invoice.has_pending_item s = true
  | _ => False
  end.

(** The counter of committed items agrees with the list, for as long as the
    value stored under ["line_items"] is a list. *)
Definition count_in_sync (s : Invoice.session) : Prop :=
  forall l, Invoice.invoice_data s !! "line_items" = Some (PList l) ->
            Invoice.line_item_count s = Z.of_nat (length l).

(** Every key of the registry maps to the session that carries it as its
    id. *)
Definition keyed_by_id (st : Invoice.store) : Prop :=
  forall k s, st !! k = Some s -> Base.session_id (Invoice.base s) = k.

(** [k] calls of [advance_step] in a row. *)
Definition advance_times {W : Workflow} (now : time) (k : nat)
    (b : Base.session) : Base.session :=
  Nat.iter k (fun b' => (Base.advance_step now b').1) b.

(** The steps that take a voice recording. *)
Definition voice_step_name (step : string) : Prop :=
  step = "contact_name" \/ step = "due_date" \/ step = "line_item".

(** The draft has what a submission needs: a contact name, a due date and a
    non-empty value under ["line_items"]. *)
Definition draft_complete (s : Invoice.session) : Prop :=
  exists c d items n,
    Invoice.invoice_data s !! "contact_name" = Some c /\ truthy c = true
    /\ Invoice.invoice_data s !! "due_date" = Some d /\ truthy d = true
    /\ Invoice.invoice_data s !! "line_items" = Some items
    /\ py_len items = Return n /\ (n > 0)%Z.

(** Text whose characters are all ASCII. *)
Definition ascii_text (s : string) : Prop :=
  FieldValidators.all_chars (fun c => (nat_of_ascii c <? 128)%nat) s = true.

(** A word: not empty, no white space. *)
Definition word (w : string) : Prop :=
  w <> "" /\ FieldValidators.all_chars (fun c => negb (is_space c)) w = true.

(** * Properties *)

(** Case analysis on the scrutinee of a [match] or [if] of the goal. *)
Ltac break_match :=
  match goal with
  | |- context [match ?x with _ => _ end] => destruct x eqn:?
  end.

(** ** Lists of step names *)

Lemma mem_In (x : string) (l : list string) : mem x l = true <-> In x l.
Proof.
  unfold mem. rewrite existsb_exists. split.
  - intros (y & Hy & Heq). apply String.eqb_eq in Heq. by subst.
  - intros H. exists x. split; [done | apply String.eqb_refl].
Qed.

Lemma mem_false (x : string) (l : list string) : mem x l = false <-> ~ In x l.
Proof.
  rewrite <- mem_In. destruct (mem x l); split; congruence.
Qed.

Lemma index_lookup (x : string) (l : list string) (i : nat) :
  index x l = Some i -> l !! i = Some x.
Proof.
  revert i. induction l as [|y l IH]; intros i; simpl; [done |].
  destruct (String.eqb_spec x y) as [-> | Hne].
  - intros [= <-]. done.
  - destruct (index x l) as [j|]; [| done].
    intros [= <-]. simpl. by apply IH.
Qed.

Lemma index_Some_In (x : string) (l : list string) (i : nat) :
  index x l = Some i -> In x l.
Proof.
  intros H. apply index_lookup in H.
  apply list_elem_of_In. by eapply list_elem_of_lookup_2.
Qed.

Lemma index_None (x : string) (l : list string) :
  index x l = None <-> ~ In x l.
Proof.
  induction l as [|y l IH]; simpl; [tauto |].
  destruct (String.eqb_spec x y) as [-> | Hne].
  - split; [done | intros H; exfalso; apply H; by left].
  - destruct (index x l) as [j|] eqn:E.
    + split; [done |]. intros H. exfalso. apply H. right.
      by eapply index_Some_In.
    + split; [| done]. intros _ [Heq | Hin]; [congruence |].
      by apply (proj1 IH).
Qed.

Lemma index_In (x : string) (l : list string) :
  In x l -> exists i, index x l = Some i.
Proof.
  intros H. destruct (index x l) as [i|] eqn:E; [by exists i |].
  by apply index_None in E.
Qed.

Lemma index_lt (x : string) (l : list string) (i : nat) :
  index x l = Some i -> (i < length l)%nat.
Proof. intros H. apply index_lookup in H. by eapply lookup_lt_Some. Qed.

(** ** Advancing to the next step *)

Section Advance.
Context {W : Workflow}.


End Advance.



(** ** Committing line items *)

Section LineItems.
Import Invoice InvoiceRoutes.

Lemma add_line_item_spec (item : pyval) (s : session) :
  match add_line_item item s with
  | (s', Return _) =>
      exists l, invoice_data s !! "line_items" = Some (PList l)
        /\ (Z.of_nat (length l) < max_line_items s)%Z
        /\ invoice_data s' =
             <["current_line_item" := PNone]>
               (<["line_items" := PList (l ++ [item])]> (invoice_data s))
        /\ base s' = base s
        /\ has_pending_item s' = false
        /\ max_line_items s' = max_line_items s
  | (s', Raise _) => s' = s
  end.
Proof.
  unfold add_line_item.
  destruct (invoice_data s !! "line_items") as [items|] eqn:Hitems; [| done].
  destruct (py_len items) as [n|e] eqn:Hlen; [| done].
  destruct (Z.geb_spec n (max_line_items s)) as [Hge | Hlt]; [done |].
  destruct items as [| str | d | l]; try done.
  exists l. simpl in Hlen. injection Hlen as <-. repeat split; done.
Qed.


Lemma save_current_item_spec (s : session) :
  match save_current_item s with
  | (s', Return _) =>
      s' = s
      \/ exists item l,
           invoice_data s !! "current_line_item" = Some item
           /\ truthy item = true
           /\ invoice_data s !! "line_items" = Some (PList l)
           /\ (Z.of_nat (length l) < max_line_items s)%Z
           /\ invoice_data s' =
                <["current_line_item" := PNone]>
                  (<["line_items" := PList (l ++ [item])]> (invoice_data s))
           /\ base s' = base s
           /\ has_pending_item s' = false
           /\ max_line_items s' = max_line_items s
  | (s', Raise _) => s' = s
  end.
Proof.
  unfold save_current_item.
  destruct (invoice_data s !! "current_line_item") as [item|] eqn:Hcur; [| by left].
  destruct (truthy item) eqn:Htruthy; [| by left].
  pose proof (add_line_item_spec item s) as Hadd.
  destruct (add_line_item item s) as [s' [[]|e]]; [| done].
  destruct Hadd as (l & H1 & H2 & H3 & H4 & H5 & H6).
  right. exists item, l. repeat split; done.
Qed.




Lemma parse_invoice_data_items (step : string) (r : parsed_result) :
  parse_invoice_data step r !! "line_items" = None.
Proof.
  destruct r; simpl; try done;
    destruct (String.eqb step _); by rewrite ?lookup_singleton_ne, ?lookup_empty.
Qed.


Lemma assign_item_field_list (items : pyval) idx field v (r : pyval) :
  assign_item_field items idx field v = Return r ->
  exists l l', items = PList l /\ r = PList l' /\ length l' = length l.
Proof.
  unfold assign_item_field. intros H.
  destruct items as [| str | d | l]; try done.
  - by destruct (_ || _).
  - destruct (_ || _); [done |].
    destruct (l !! _) as [[| ? | d | ?]|]; try done.
    injection H as <-. eexists _, _. repeat split. by rewrite length_insert.
Qed.

Section WithBuiltins.
Context {B : Builtins}.




Lemma same_invoice_refl (s : session) : same_invoice s s.
Proof. by repeat split. Qed.

Lemma same_invoice_trans (s1 s2 s3 : session) :
  same_invoice s1 s2 -> same_invoice s2 s3 -> same_invoice s1 s3.
Proof. intros (? & ? & ?) (? & ? & ?). repeat split; congruence. Qed.

Lemma same_invoice_advance now (s : session) :
  same_invoice s (advance_step now s).1.
Proof.
  unfold advance_step, Base.advance_step.
  repeat break_match; simplify_eq; by repeat split.
Qed.

Lemma same_invoice_new step (s : session) :
  same_invoice s (new_invoice_workflow step s).1.
Proof. unfold new_invoice_workflow. repeat break_match; by repeat split. Qed.

Lemma same_invoice_start now (s : session) :
  same_invoice s (start_invoice_workflow now s).1.
Proof.
  unfold start_invoice_workflow.
  destruct (String.eqb _ _); [| apply same_invoice_refl].
  pose proof (same_invoice_advance now s).
  by destruct (advance_step now s) as [s' [r|e]].
Qed.

Lemma same_invoice_go_to_step step (s : session) :
  same_invoice s (go_to_step step s).1.
Proof. unfold go_to_step. repeat break_match; by repeat split. Qed.

Lemma same_invoice_confirm_step now step (s : session) :
  same_invoice s (confirm_step now step s).1.
Proof.
  unfold confirm_step.
  destruct (_ && _); [apply same_invoice_refl |].
  match goal with
  | |- context [advance_step now ?s1] =>
      pose proof (same_invoice_advance now s1) as Ha;
      destruct (advance_step now s1) as [s2 [r|e]]
  end; simpl in *;
    (eapply same_invoice_trans; [| exact Ha]);
    destruct (_ && _); by repeat split.
Qed.

Lemma same_invoice_proceed_to_submit (s : session) :
  same_invoice s (proceed_to_submit s).1.
Proof.
  unfold proceed_to_submit, mark_review_complete.
  repeat break_match; by repeat split.
Qed.

Lemma same_invoice_submit xero (s : session) :
  same_invoice s (submit_to_xero xero s).1.
Proof. unfold submit_to_xero. repeat break_match; by repeat split. Qed.



Lemma reachable_by_run (allowed : op -> Prop) (reqs : list (time * op))
    (s : session) :
  Forall (fun r => allowed r.2) reqs ->
  reachable_by allowed s -> reachable_by allowed (run reqs s).
Proof.
  revert s. induction reqs as [|[now o] reqs IH]; intros s Hall Hs; [done |].
  apply Forall_cons in Hall as [Ho Hall].
  apply IH; [done |]. by apply reach_step.
Qed.

Lemma reachable_run (reqs : list (time * op)) (s : session) :
  reachable s -> reachable (run reqs s).
Proof.
  apply reachable_by_run. by apply Forall_forall.
Qed.

End WithBuiltins.
End LineItems.



(** ** Re-submitting a completed step *)




(** ** Oversized audio *)

Lemma transcribe_audio_try_oversized client (f : InvoiceSteps.UploadFile) :
  oversized f ->
  InvoiceSteps.transcribe_audio_try client f = (Raise InvoiceSteps.too_large, []).
Proof.
  intros Hbig. unfold InvoiceSteps.transcribe_audio_try. cbv zeta.
  destruct (InvoiceSteps.size f) as [n|] eqn:Hsize.
  - destruct (negb (n =? 0)%Z && (n >? InvoiceSteps.MAX_AUDIO_SIZE)%Z) eqn:Hdecl;
      [done |].
    destruct Hbig as [(m & Hs & Hm) | Hlen].
    + exfalso. simplify_eq. unfold InvoiceSteps.MAX_AUDIO_SIZE in *.
      apply andb_false_iff in Hdecl as [Hz | Hgt].
      * apply negb_false_iff, Z.eqb_eq in Hz. lia.
      * rewrite Z.gtb_ltb in Hgt. apply Z.ltb_ge in Hgt. lia.
    + destruct (Z.gtb_spec (Z.of_nat (length (InvoiceSteps.content f)))
                 InvoiceSteps.MAX_AUDIO_SIZE); [done | lia].
  - destruct Hbig as [(m & Hs & _) | Hlen]; [congruence |].
    destruct (Z.gtb_spec (Z.of_nat (length (InvoiceSteps.content f)))
                InvoiceSteps.MAX_AUDIO_SIZE); [done | lia].
Qed.

Lemma contact_transcribe_audio_try_eq client (f : InvoiceSteps.UploadFile) :
  ContactSteps.transcribe_audio_try client f
    = InvoiceSteps.transcribe_audio_try client f.
Proof. reflexivity. Qed.

(** C9. A voice submission whose audio is over 10 MiB fails with a
    [StepValidationError] whose field is ["audio"], in the transcription step
    of either workflow and so in the whole pipeline; no request is sent to the
    transcription or extraction collaborator; and the step handler returns the
    session exactly as it received it, answering with the validation error
    whenever the request gets as far as the pipeline. *)
Theorem oversized_audio_rejected
    (B : Builtins) (client : InvoiceSteps.OpenAI)
    (f : InvoiceSteps.UploadFile) (step : string) :
  oversized f ->
  (exists msg,
      InvoiceSteps.transcribe_audio client f
        = (Raise (StepValidationError "audio" msg), []))
  /\ (exists msg,
        ContactSteps.transcribe_audio client f
          = (Raise (StepValidationError "audio" msg), []))
  /\ (exists msg,
        InvoiceSteps.process_voice_step client f step
          = (Raise (StepValidationError "audio" msg), []))
  /\ (forall (now : time) (is_mobile csrf_ok : bool) (api_key : option string)
             (s : Invoice.session),
        exists resp,
          InvoiceRoutes.process_invoice_step now is_mobile csrf_ok api_key
            client f step s = (s, resp, [])
          /\ resp <> InvoiceRoutes.Success
          /\ (is_mobile || csrf_ok = true ->
              InvoiceRoutes.form_value api_key <> None ->
              resp = InvoiceRoutes.Failure 400 "VALIDATION_ERROR")).
Proof.
  intros Hbig.
  assert (Ht : InvoiceSteps.transcribe_audio client f
               = (Raise (StepValidationError "audio"
                    "Failed to transcribe audio. Please try speaking again."), [])).
  { unfold InvoiceSteps.transcribe_audio.
    by rewrite transcribe_audio_try_oversized. }
  assert (Hp : InvoiceSteps.process_voice_step client f step
               = (Raise (StepValidationError "audio"
                    "Failed to transcribe audio. Please try speaking again."), [])).
  { unfold InvoiceSteps.process_voice_step. by rewrite Ht. }
  split; [eauto |]. split.
  { eexists. unfold ContactSteps.transcribe_audio.
    rewrite contact_transcribe_audio_try_eq.
    by rewrite transcribe_audio_try_oversized. }
  split; [eauto |].
  intros now is_mobile csrf_ok api_key s.
  unfold InvoiceRoutes.process_invoice_step. rewrite Hp.
  destruct is_mobile, csrf_ok; simpl;
    destruct (InvoiceRoutes.form_value api_key);
    eexists; (split; [reflexivity |]); split; try done; intros; done.
Qed.

Lemma oversized_audio_rejected_witness :
  oversized (InvoiceSteps.mkUpload (Some "long.webm") None
               (repeat Byte.x00 (Z.to_nat 10485761)))
  /\ exists msg,
       InvoiceSteps.process_voice_step (B := plain_builtins) Sample.client
         (InvoiceSteps.mkUpload (Some "long.webm") None
            (repeat Byte.x00 (Z.to_nat 10485761))) "contact_name"
       = (Raise (StepValidationError "audio" msg), []).
Proof.
  assert (Hbig : oversized (InvoiceSteps.mkUpload (Some "long.webm") None
                              (repeat Byte.x00 (Z.to_nat 10485761)))).
  { right. cbn [InvoiceSteps.content]. rewrite repeat_length.
    rewrite Z2Nat.id by lia. unfold InvoiceSteps.MAX_AUDIO_SIZE. lia. }
  split; [exact Hbig |].
  exact (proj1 (proj2 (proj2 (oversized_audio_rejected plain_builtins
           Sample.client _ "contact_name" Hbig)))).
Defined.

(** ** Credential resolution *)

Section Credentials.
Import TokenAuth.

(** Without a bearer token the answer is the cookie session's. *)
Lemma no_bearer_uses_cookie (app : AppState) (now : time) (request : Request)
    (ms : mobile_sessions) :
  extract_bearer_token request = None \/ extract_bearer_token request = Some "" ->
  get_openai_api_key app now request ms = (ms, get_api_key app request)
  /\ get_xero_token app now request ms
       = (ms, get_session_data app request "xero_token").
Proof.
  intros [H | H]; unfold get_openai_api_key, get_xero_token; by rewrite H.
Qed.

(** C10. For a request that carries a non-empty bearer token, the API key and
    the Xero token that are resolved do not depend on the cookie session at
    all: two applications that validate tokens alike, and two requests with
    the same [Authorization] header, get the same answer whatever their
    cookie readers and cookies hold. The answer is [None] when the token does
    not validate, when no mobile session is stored under its session id, and
    when that mobile session holds no such credential. *)
Theorem bearer_never_falls_back
    (app app' : AppState) (now : time) (request request' : Request)
    (ms : mobile_sessions) (token : string) :
  extract_bearer_token request = Some token ->
  token <> "" ->
  validate_token app' = validate_token app ->
  authorization request' = authorization request ->
  get_openai_api_key app' now request' ms = get_openai_api_key app now request ms
  /\ get_xero_token app' now request' ms = get_xero_token app now request ms
  /\ (validate_token app token = None ->
      (get_openai_api_key app now request ms).2 = None
      /\ (get_xero_token app now request ms).2 = None)
  /\ (forall payload,
        validate_token app token = Some payload ->
        ms !! session_id payload = None ->
        (get_openai_api_key app now request ms).2 = None
        /\ (get_xero_token app now request ms).2 = None)
  /\ (forall payload session,
        validate_token app token = Some payload ->
        ms !! session_id payload = Some session ->
        (str_truthy (openai_api_key session) = false ->
         (get_openai_api_key app now request ms).2 = None)
        /\ (dict_truthy (xero_token session) = false ->
            (get_xero_token app now request ms).2 = None)).
Proof.
  intros Htok Hne Hval Hauth.
  assert (Htok' : extract_bearer_token request' = Some token).
  { unfold extract_bearer_token in *. by rewrite Hauth. }
  assert (Hnonempty : negb (String.eqb token "") = true).
  { apply negb_true_iff. by apply String.eqb_neq. }
  unfold get_openai_api_key, get_xero_token.
  rewrite Htok, Htok', Hnonempty, Hval.
  split; [done |]. split; [done |]. split; [| split].
  - intros ->. done.
  - intros payload -> Hms. unfold get_mobile_session. by rewrite Hms.
  - intros payload session -> Hms. unfold get_mobile_session. rewrite Hms. simpl.
    split; intros ->; done.
Qed.
End Credentials.

Lemma bearer_never_falls_back_witness :
  TokenAuth.get_api_key Sample.cookie_app Sample.bearer_request = Some "sk-cookie"
  /\ (TokenAuth.get_openai_api_key Sample.cookie_app 0 Sample.bearer_request ∅).2
     = None
  /\ (TokenAuth.get_xero_token Sample.cookie_app 0 Sample.bearer_request ∅).2
     = None.
Proof.
  split; [reflexivity |].
  assert (Hne : "stale.jwt.token" <> "") by discriminate.
  exact (proj1 (proj2 (proj2
           (bearer_never_falls_back Sample.cookie_app Sample.cookie_app 0
              Sample.bearer_request Sample.bearer_request ∅ "stale.jwt.token"
              eq_refl Hne eq_refl eq_refl))) eq_refl).
Defined.

(** ** The session store *)

Section Store.
Import Invoice.

Lemma foldl_delete_lookup (ids : list string) (st : gmap string session) (k : string) :
  foldl (fun m sid => delete sid m) st ids !! k
    = if decide (k ∈ ids) then None else st !! k.
Proof.
  revert st. induction ids as [|i ids IH]; intros st.
  - done.
  - cbn [foldl]. rewrite IH.
    destruct (decide (k ∈ ids)) as [Hin | Hnin].
    + rewrite decide_True; [done | by right].
    + destruct (decide (k = i)) as [-> | Hne].
      * rewrite decide_True by left. apply lookup_delete_eq.
      * rewrite decide_False; [by apply lookup_delete_ne |].
        by intros [?|?]%elem_of_cons.
Qed.

Lemma elem_of_expired_ids (now : time) (st : gmap string session) (k : string) :
  k ∈ expired_ids now st <-> exists s, st !! k = Some s /\ expired now s = true.
Proof.
  unfold expired_ids. rewrite list_elem_of_fmap. split.
  - intros ([k' s] & -> & Hin). apply list_elem_of_filter in Hin as [Hexp Hin].
    apply elem_of_map_to_list in Hin. eauto.
  - intros (s & Hs & Hexp). exists (k, s). split; [done |].
    apply list_elem_of_filter. split; [done |]. by apply elem_of_map_to_list.
Qed.

(** C6. For a session id that is present (not the empty string):
    a stored session not older than thirty minutes is returned as it is and
    the store is left alone; a stored session older than that, or an unknown
    id, gives a new session in its initial state, stored under the same id,
    the other entries being kept. Cleaning up removes exactly the sessions
    older than thirty minutes and reports how many they were. *)
Theorem session_store_spec
    (now : time) (uuid4 : string) (t_created t_updated : time) (sid : string)
    (st : gmap string session) :
  sid <> "" ->
  (forall s, st !! sid = Some s ->
             (now - updated_at s <= thirty_minutes)%Z ->
             get_invoice_session now uuid4 t_created t_updated (Some sid) st
               = (st, s))
  /\ ((st !! sid = None
       \/ exists s, st !! sid = Some s /\ (now - updated_at s > thirty_minutes)%Z) ->
      let fresh := init (Some sid) uuid4 t_created t_updated in
      let r := get_invoice_session now uuid4 t_created t_updated (Some sid) st in
      r.2 = fresh
      /\ Base.session_id (base fresh) = sid
      /\ current_step fresh = "welcome"
      /\ completed_steps fresh = []
      /\ invoice_data fresh = initial_invoice_data
      /\ has_pending_item fresh = false
      /\ r.1 !! sid = Some fresh
      /\ forall k, k <> sid -> r.1 !! k = st !! k)
  /\ (forall k,
        (cleanup_expired_sessions now st).1 !! k
          = match st !! k with
            | Some s => if expired now s then None else Some s
            | None => None
            end)
  /\ (forall k s, st !! k = Some s ->
        ((cleanup_expired_sessions now st).1 !! k = None
         <-> (now - updated_at s > thirty_minutes)%Z)).
Proof.
  intros Hsid.
  assert (Hne : negb (String.eqb sid "") = true).
  { apply negb_true_iff. by apply String.eqb_neq. }
  assert (Hclean : forall k,
            (cleanup_expired_sessions now st).1 !! k
              = match st !! k with
                | Some s => if expired now s then None else Some s
                | None => None
                end).
  { intros k. unfold cleanup_expired_sessions. simpl.
    rewrite foldl_delete_lookup.
    destruct (decide (k ∈ expired_ids now st)) as [Hin | Hnin].
    - apply elem_of_expired_ids in Hin as (s & -> & ->). done.
    - destruct (st !! k) as [s|] eqn:Hk; [| done].
      destruct (expired now s) eqn:Hexp; [| done].
      exfalso. apply Hnin. apply elem_of_expired_ids. eauto. }
  split; [| split; [| split]].
  - intros s Hs Hage. unfold get_invoice_session. rewrite Hne, Hs.
    unfold expired.
    by destruct (Z.gtb_spec (now - updated_at s) thirty_minutes); [lia |].
  - intros Hcase fresh r.
    assert (Hid : Base.session_id (base fresh) = sid).
    { subst fresh. simpl. unfold Base.init. simpl.
      by rewrite (proj1 (negb_true_iff _) Hne). }
    assert (Hr : r = (<[sid := fresh]> (delete sid st), fresh)
                 \/ r = (<[sid := fresh]> st, fresh)).
    { subst r. unfold get_invoice_session. rewrite Hne.
      destruct Hcase as [Hnone | (s & Hs & Hage)].
      - rewrite Hnone. right. fold fresh. by rewrite Hid.
      - rewrite Hs. left. unfold expired.
        by destruct (Z.gtb_spec (now - updated_at s) thirty_minutes); [| lia]. }
    repeat split; try done.
    + by destruct Hr as [-> | ->].
    + destruct Hr as [-> | ->]; simpl; apply lookup_insert_eq.
    + intros k Hk. destruct Hr as [-> | ->]; simpl.
      * by rewrite lookup_insert_ne, lookup_delete_ne.
      * by rewrite lookup_insert_ne.
  - exact Hclean.
  - intros k s Hs. rewrite Hclean, Hs. unfold expired.
    destruct (Z.gtb_spec (now - updated_at s) thirty_minutes); split; try done; lia.
Qed.
End Store.

Lemma session_store_spec_witness :
  Invoice.get_invoice_session 10 "" 10 10 (Some "s1") {[ "s1" := Sample.fresh ]}
    = ({[ "s1" := Sample.fresh ]}, Sample.fresh)
  /\ (Invoice.get_invoice_session 1800000001 "" 1800000001 1800000001 (Some "s1")
        {[ "s1" := Sample.fresh ]}).2
     = Invoice.init (Some "s1") "" 1800000001 1800000001.
Proof.
  assert (Hsid : "s1" <> "") by discriminate.
  split.
  - apply (proj1 (session_store_spec 10 "" 10 10 "s1"
                    {[ "s1" := Sample.fresh ]} Hsid)).
    + vm_compute. reflexivity.
    + vm_compute. discriminate.
  - apply (proj1 (proj2 (session_store_spec 1800000001 "" 1800000001 1800000001
                           "s1" {[ "s1" := Sample.fresh ]} Hsid))).
    right. exists Sample.fresh. split.
    + vm_compute. reflexivity.
    + vm_compute. reflexivity.
Defined.

(** ** Navigation *)


Section Navigation.
Context {W : Workflow}.


End Navigation.


Lemma route_go_to_step_effect (target : string) (s : Invoice.session) :
  (InvoiceRoutes.go_to_step target s).1
    = match (InvoiceRoutes.go_to_step target s).2 with
      | InvoiceRoutes.Success => Invoice.set_current_step target s
      | InvoiceRoutes.Failure _ _ => s
      end.
Proof.
  unfold InvoiceRoutes.go_to_step.
  destruct (negb _); [done |].
  destruct (_ && _); [done |]. by destruct (_ || _).
Qed.



(** ** What the handlers do to the step bookkeeping *)

Section Steps.
Import Invoice InvoiceRoutes.

Lemma advance_step_completed now (s : session) :
  completed_steps (advance_step now s).1 = completed_steps s.
Proof.
  unfold advance_step. destruct (_ && _); [done |].
  unfold Base.advance_step, completed_steps.
  destruct (index _ _); [| done]. by destruct (_ <? _)%Z.
Qed.

Lemma advance_step_current now (s : session) :
  In (current_step s) INVOICE_STEPS ->
  In (current_step (advance_step now s).1) INVOICE_STEPS.
Proof.
  intros Hin. unfold advance_step.
  destruct (_ && _); [done |].
  unfold Base.advance_step, current_step in *.
  change (@get_workflow_steps workflow) with INVOICE_STEPS.
  destruct (index _ INVOICE_STEPS) as [i|] eqn:Hi; [| done].
  destruct (Z.ltb_spec (Z.of_nat i) (Z.of_nat (length INVOICE_STEPS) - 1));
    [| done].
  cbn [fst base Base.current_step set_base Base.set_updated_at
       Base.set_current_step].
  apply nth_In. lia.
Qed.

Lemma save_current_item_base (s : session) :
  base (save_current_item s).1 = base s.
Proof.
  pose proof (save_current_item_spec s) as H.
  destruct (save_current_item s) as [s' [[]|e]]; simpl; [| by subst].
  by destruct H as [-> | (? & ? & ? & ? & ? & ? & ? & ? & ?)].
Qed.

Lemma store_step_result_fields now step r t (s : session) :
  let parsed_data := parse_invoice_data step r in
  let b1 := Base.set_workflow_data
              (parsed_data ∪ Base.workflow_data (base s)) (base s) in
  base (store_step_result now step r t s)
    = (if negb (bool_decide (parsed_data = ∅)) && negb (String.eqb step "line_item")
       then Base.mark_step_complete now step parsed_data b1 else b1)
  /\ invoice_data (store_step_result now step r t s)
       = parsed_data ∪ invoice_data s
  /\ has_pending_item (store_step_result now step r t s)
       = (if String.eqb step "line_item"
             && truthy_get parsed_data "current_line_item"
          then true else has_pending_item s)
  /\ max_line_items (store_step_result now step r t s) = max_line_items s.
Proof.
  unfold store_step_result.
  destruct (String.eqb step "line_item" && truthy_get _ _);
    destruct (negb (bool_decide _) && negb _); by repeat split.
Qed.

Lemma parse_invoice_data_nonempty step r :
  parse_invoice_data step r <> ∅ ->
  step = "contact_name" \/ step = "due_date" \/ step = "line_item".
Proof.
  destruct r; simpl; try done.
  - destruct (String.eqb_spec step "contact_name"); [by left | done].
  - destruct (String.eqb_spec step "due_date"); [by right; left | done].
  - destruct (String.eqb_spec step "line_item"); [by right; right | done].
Qed.

Lemma store_step_result_steps now step r t (s : session) :
  current_step (store_step_result now step r t s) = current_step s
  /\ (completed_steps (store_step_result now step r t s) = completed_steps s
      \/ (~ In step (completed_steps s)
          /\ (step = "contact_name" \/ step = "due_date")
          /\ completed_steps (store_step_result now step r t s)
             = completed_steps s ++ [step])).
Proof.
  destruct (store_step_result_fields now step r t s) as (Hbase & _).
  unfold current_step, completed_steps. rewrite Hbase. clear Hbase.
  destruct (negb (bool_decide _) && negb _) eqn:Hmark; [| by split; [| left]].
  apply andb_true_iff in Hmark as [Hne Hstep].
  apply negb_true_iff, bool_decide_eq_false in Hne.
  apply negb_true_iff, String.eqb_neq in Hstep.
  unfold Base.mark_step_complete. simpl.
  destruct (mem step (Base.completed_steps (base s))) eqn:Hmem; simpl.
  - by split; [| left].
  - split; [done |]. right. apply mem_false in Hmem. split; [done |].
    split; [| done].
    destruct (parse_invoice_data_nonempty _ _ Hne) as [? | [? | ?]]; tauto.
Qed.

Section WithBuiltins.
Context {B : Builtins}.

Lemma update_field_steps now name value (s : session) :
  current_step (update_field now name value s).1 = current_step s
  /\ completed_steps (update_field now name value s).1 = completed_steps s.
Proof.
  unfold update_field, current_step, completed_steps.
  repeat break_match; by simpl.
Qed.

(** How one request changes [completed_steps]: not at all, or it empties the
    list, or it appends one step that was not in it. The appended step is
    ["line_item"] only for the proceed decision; otherwise it is a step of
    the workflow or the step that a confirm request names. *)
Lemma handle_completed_steps now (o : op) (s : session) :
  completed_steps (handle now o s).1 = completed_steps s
  \/ completed_steps (handle now o s).1 = []
  \/ exists x,
       ~ In x (completed_steps s)
       /\ completed_steps (handle now o s).1 = completed_steps s ++ [x]
       /\ ((x = "line_item" /\ proceed_decision o)
           \/ x = "contact_name" \/ x = "due_date" \/ x = "review"
           \/ (x <> "line_item"
               /\ exists step, o = ConfirmStep step
                    /\ x = default (current_step s) (form_value step))).
Proof.
  destruct o; simpl.
  - left. unfold new_invoice_workflow. by repeat break_match.
  - left. unfold start_invoice_workflow.
    destruct (String.eqb _ _); [| done].
    pose proof (advance_step_completed now s).
    by destruct (advance_step now s) as [? [?|?]].
  - left. unfold go_to_step. by repeat break_match.
  - right. by left.
  - unfold process_invoice_step.
    destruct (negb is_mobile && negb csrf_ok); [by left |].
    destruct (form_value api_key); [| by left].
    destruct (InvoiceSteps.process_voice_step client audio_file step)
      as [[[tr parsed]|e] calls].
    + simpl. destruct (store_step_result_steps now step parsed tr s)
        as [_ [Hsame | (Hnin & Hstep & Happ)]]; [by left |].
      right. right. exists step. split; [done |]. split; [done |].
      destruct Hstep as [-> | ->]; tauto.
    + left. by destruct e.
  - unfold confirm_step.
    set (current := default (current_step s) (form_value step)).
    destruct (String.eqb current "line_item" && has_pending_item s); [by left |].
    match goal with
    | |- context [advance_step now ?s1] =>
        pose proof (advance_step_completed now s1) as Ha;
        assert (Hfst : completed_steps
                         (let '(s2, r) := advance_step now s1 in
                          match r with
                          | Return _ => (s2, Success)
                          | Raise _ => (s2, Failure 500 "CONFIRMATION_ERROR")
                          end).1 = completed_steps s1)
          by (by destruct (advance_step now s1) as [? [?|?]])
    end.
    simpl in Hfst. rewrite Hfst. clear Hfst Ha.
    destruct (String.eqb_spec current "line_item") as [Hli | Hli]; simpl; [by left |].
    destruct (mem current (completed_steps s)) eqn:Hmem; simpl; [by left |].
    right. right. exists current. apply mem_false in Hmem.
    split; [done |]. split; [done |]. do 4 right. split; [done |]. by exists step.
  - unfold confirm_line_item.
    pose proof (save_current_item_base s) as Hb.
    destruct (save_current_item s) as [s1 [[]|e]]; simpl in Hb;
      unfold completed_steps; simpl; [| left; by rewrite Hb].
    destruct (String.eqb_spec (lower add_another) "true") as [Ht | Hf]; simpl.
    + left. by rewrite Hb.
    + unfold mark_line_item_complete, completed_steps. rewrite Hb.
      destruct (mem "line_item" _) eqn:Hmem; simpl; rewrite ?Hb; [by left |].
      right. right. exists "line_item". apply mem_false in Hmem.
      split; [done |]. split; [done |]. left. split; [done |].
      right. by exists add_another.
  - left. unfold add_another_item.
    pose proof (save_current_item_base s) as Hb.
    destruct (save_current_item s) as [s1 [[]|e]]; simpl in Hb;
      unfold completed_steps; simpl; by rewrite Hb.
  - unfold proceed_to_review.
    pose proof (save_current_item_base s) as Hb.
    destruct (save_current_item s) as [s1 [[]|e]]; simpl in Hb;
      unfold completed_steps; simpl; [| left; by rewrite Hb].
    destruct (negb _); simpl; [left; by rewrite Hb |].
    unfold mark_line_item_complete, completed_steps. rewrite Hb.
    destruct (mem "line_item" _) eqn:Hmem; simpl; rewrite ?Hb; [by left |].
    right. right. exists "line_item". apply mem_false in Hmem.
    split; [done |]. split; [done |]. left. split; [done |]. by left.
  - left. unfold update_invoice_field.
    pose proof (update_field_steps now field_name field_value s) as [_ Hc].
    by destruct (update_field now field_name field_value s) as [? [?|?]].
  - left. unfold clear_line_item. by repeat break_match.
  - by left.
  - unfold proceed_to_submit, mark_review_complete.
    destruct (to_invoice_create s) as [[]|]; simpl; try by left.
    unfold completed_steps.
    destruct (mem "review" _) eqn:Hmem; simpl; [by left |].
    right. right. exists "review". apply mem_false in Hmem.
    split; [done |]. split; [done |]. tauto.
  - left. unfold submit_to_xero. by repeat break_match.
  - by left.
  - right. by left.
Qed.

Lemma handle_current_step now (o : op) (s : session) :
  In (current_step s) INVOICE_STEPS ->
  (forall x, In x (completed_steps s) -> In x INVOICE_STEPS) ->
  In (current_step (handle now o s).1) INVOICE_STEPS.
Proof.
  intros Hcur Hdone.
  assert (Hconst : forall x, mem x INVOICE_STEPS = true -> In x INVOICE_STEPS)
    by (intros x; apply mem_In).
  destruct o; simpl.
  - unfold new_invoice_workflow.
    destruct (form_value step) as [st|]; [| done].
    destruct (mem st (completed_steps s) || String.eqb st (current_step s)) eqn:Hc;
      [| done].
    unfold current_step at 1. simpl.
    apply orb_true_iff in Hc as [Hc | Hc].
    + apply Hdone. by apply mem_In.
    + apply String.eqb_eq in Hc. by subst.
  - unfold start_invoice_workflow.
    destruct (String.eqb _ _); [| done].
    pose proof (advance_step_current now s Hcur).
    by destruct (advance_step now s) as [? [?|?]].
  - unfold go_to_step.
    change (@get_workflow_steps workflow) with INVOICE_STEPS.
    destruct (mem step INVOICE_STEPS) eqn:Hstep; simpl; [| done].
    repeat break_match; try done; unfold current_step; simpl; by apply Hconst.
  - unfold current_step. simpl. by apply Hconst.
  - unfold process_invoice_step.
    destruct (negb is_mobile && negb csrf_ok); [done |].
    destruct (form_value api_key); [| done].
    destruct (InvoiceSteps.process_voice_step client audio_file step)
      as [[[tr parsed]|e] calls].
    + simpl. by rewrite (proj1 (store_step_result_steps now step parsed tr s)).
    + by destruct e.
  - unfold confirm_step.
    destruct (_ && has_pending_item s); [done |].
    match goal with
    | |- context [advance_step now ?s1] =>
        assert (Hcur1 : In (current_step s1) INVOICE_STEPS)
          by (by destruct (negb _ && negb _));
        pose proof (advance_step_current now s1 Hcur1);
        by destruct (advance_step now s1) as [? [?|?]]
    end.
  - unfold confirm_line_item.
    pose proof (save_current_item_base s) as Hb.
    destruct (save_current_item s) as [s1 [[]|e]]; simpl in Hb;
      [| unfold current_step; simpl; by rewrite Hb].
    destruct (String.eqb _ _); unfold current_step; simpl; by apply Hconst.
  - unfold add_another_item.
    pose proof (save_current_item_base s) as Hb.
    destruct (save_current_item s) as [s1 [[]|e]]; simpl in Hb;
      unfold current_step; simpl; [by apply Hconst | by rewrite Hb].
  - unfold proceed_to_review.
    pose proof (save_current_item_base s) as Hb.
    destruct (save_current_item s) as [s1 [[]|e]]; simpl in Hb;
      [| unfold current_step; simpl; by rewrite Hb].
    destruct (negb _); unfold current_step; simpl;
      [by rewrite Hb | by apply Hconst].
  - unfold update_invoice_field.
    pose proof (update_field_steps now field_name field_value s) as [Hc _].
    destruct (update_field now field_name field_value s) as [? [?|?]];
      simpl in *; by rewrite Hc.
  - unfold clear_line_item. by repeat break_match.
  - done.
  - unfold proceed_to_submit.
    destruct (to_invoice_create s) as [[]|]; try done.
    unfold current_step. simpl. by apply Hconst.
  - unfold submit_to_xero.
    repeat break_match; try done. unfold current_step. simpl. by apply Hconst.
  - unfold current_step. simpl. by apply Hconst.
  - unfold current_step. simpl. by apply Hconst.
Qed.

Lemma reachable_NoDup (allowed : op -> Prop) (s : session) :
  reachable_by allowed s -> NoDup (completed_steps s).
Proof.
  induction 1 as [sid uuid4 t1 t2 | s now o _ IH _]; [constructor |].
  destruct (handle_completed_steps now o s)
    as [-> | [-> | (x & Hnin & -> & _)]]; [done | constructor |].
  apply NoDup_app. split; [done |]. split; [| apply NoDup_singleton].
  intros y Hy ->%list_elem_of_singleton. by apply Hnin, list_elem_of_In.
Qed.

(** As long as confirm requests name steps of the workflow, the current step
    and all completed steps are steps of the workflow. *)
Lemma reachable_known_steps (s : session) :
  reachable_by names_known_step s ->
  In (current_step s) INVOICE_STEPS
  /\ forall x, In x (completed_steps s) -> In x INVOICE_STEPS.
Proof.
  induction 1 as [sid uuid4 t1 t2 | s now o _ [IHcur IHdone] Hknown].
  - split; [by left | done].
  - split; [by apply handle_current_step |].
    intros x Hx.
    destruct (handle_completed_steps now o s)
      as [Heq | [Heq | (y & Hnin & Heq & Hy)]]; rewrite Heq in Hx.
    + by apply IHdone.
    + done.
    + apply in_app_or in Hx as [Hx | [<- | []]]; [by apply IHdone |].
      destruct Hy as [[-> _] | [-> | [-> | [-> | (Hne & step & -> & ->)]]]];
        try (apply mem_In; reflexivity).
      unfold form_value. destruct step as [st|]; simpl; [| done].
      destruct (String.eqb_spec st "") as [-> | Hst]; simpl; [done |].
      by destruct (Hknown st eq_refl).
Qed.
End WithBuiltins.
End Steps.

(** C1, the failing request. A confirm request that names a step unknown to
    the workflow gets that name appended to [completed_steps]: on a new
    session, confirming ["bogus"] leaves [completed_steps = ["bogus"]], which
    is not a step of the invoice workflow. (No request produces a duplicate,
    [reachable_NoDup]; and when confirm requests name workflow steps only,
    every completed step is a workflow step, [reachable_known_steps].) *)
Theorem confirm_step_records_unknown_step :
  Invoice.completed_steps
    (InvoiceRoutes.confirm_step 1 (Some "bogus") Sample.fresh).1 = ["bogus"]
  /\ ~ In "bogus" Invoice.INVOICE_STEPS
  /\ InvoiceRoutes.reachable (B := plain_builtins)
       (InvoiceRoutes.confirm_step 1 (Some "bogus") Sample.fresh).1.
Proof.
  split; [reflexivity |]. split.
  - vm_compute. intuition discriminate.
  - apply (InvoiceRoutes.reach_step (B := plain_builtins) _ Sample.fresh 1
             (InvoiceRoutes.ConfirmStep (Some "bogus"))); [| done].
    apply InvoiceRoutes.reach_init.
Qed.

(** ** The line-item loop *)


Section Loop.
Import Invoice InvoiceRoutes.



Lemma mark_line_item_complete_fields (s : session) :
  invoice_data (mark_line_item_complete s) = invoice_data s
  /\ has_pending_item (mark_line_item_complete s) = has_pending_item s.
Proof. unfold mark_line_item_complete. by destruct (negb _). Qed.


Section WithBuiltins.
Context {B : Builtins}.


End WithBuiltins.
End Loop.



(** ** The pending item *)

(** With an item pending, the client goes back to ["contact_name"]: the
    item stays pending and the flag stays up although the current step is no
    longer ["line_item"]. *)
Lemma pending_survives_navigation :
  InvoiceRoutes.reachable (B := plain_builtins) Sample.pending_back_on_contact_name
  /\ ~ pending_only_on_line_item Sample.pending_back_on_contact_name.
Proof.
  split.
  - unfold Sample.pending_back_on_contact_name, Sample.with_pending,
      Sample.at_line_item.
    do 3 apply reachable_run. apply InvoiceRoutes.reach_init.
  - intros H.
    assert (Hstep : Invoice.current_step Sample.pending_back_on_contact_name
                    = "line_item").
    { apply H. right. vm_compute. reflexivity. }
    vm_compute in Hstep. discriminate Hstep.
Qed.

Section Pending.
Import Invoice InvoiceRoutes.

Lemma pending_consistent_same (s s' : session) :
  invoice_data s' !! "current_line_item" = invoice_data s !! "current_line_item" ->
  has_pending_item s' = has_pending_item s ->
  pending_consistent s -> pending_consistent s'.
Proof. unfold pending_consistent. by intros -> ->. Qed.

Lemma pending_consistent_same_invoice (s s' : session) :
  same_invoice s s' -> pending_consistent s -> pending_consistent s'.
Proof.
  intros (Hd & _ & Hf). apply pending_consistent_same; [by rewrite Hd | done].
Qed.

Lemma pending_consistent_flag (s : session) :
  pending_consistent s ->
  (has_pending_item s = true <-> pending_item s <> None).
Proof.
  unfold pending_consistent, pending_item.
  destruct (invoice_data s !! "current_line_item") as [[| ? | [|? ?] | ?]|];
    try done; intros ->; split; done.
Qed.

Lemma pending_consistent_cleared (s : session) :
  invoice_data s !! "current_line_item" = Some PNone ->
  has_pending_item s = false ->
  pending_consistent s.
Proof. unfold pending_consistent. by intros -> ->. Qed.

(** After the shared opening of the decision handlers the slot is empty and
    the flag is down, unless the commit was refused. *)
Lemma save_current_item_clears (s : session) :
  pending_consistent s ->
  match save_current_item s with
  | (s1, Return _) =>
      invoice_data s1 !! "current_line_item" = Some PNone
      /\ has_pending_item s1 = false
  | (s1, Raise _) => s1 = s
  end.
Proof.
  intros Hcons. unfold pending_consistent in Hcons.
  pose proof (add_line_item_spec) as Hadd.
  unfold save_current_item.
  destruct (invoice_data s !! "current_line_item") as [[| ? | [|? ?] | ?]|] eqn:Hcur;
    try done; simpl.
  specialize (Hadd (PDict (p :: l)) s).
  destruct (add_line_item (PDict (p :: l)) s) as [s1 [[]|e]]; [| done].
  destruct Hadd as (l' & _ & _ & Hdata & _ & Hflag & _).
  split; [| done]. rewrite Hdata. apply lookup_insert_eq.
Qed.

Lemma parse_invoice_data_pending (step : string) (r : parsed_result) :
  (exists d, parse_invoice_data step r !! "current_line_item" = Some (PDict d)
             /\ d <> [] /\ step = "line_item")
  \/ parse_invoice_data step r !! "current_line_item" = None.
Proof.
  destruct r; simpl; try (by right).
  - right. by destruct (String.eqb step _).
  - right. by destruct (String.eqb step _).
  - destruct (String.eqb_spec step "line_item") as [-> | Hne]; [| by right].
    left. eexists. split; [apply lookup_singleton_eq |]. done.
Qed.

Lemma pending_consistent_store now step r t (s : session) :
  pending_consistent s -> pending_consistent (store_step_result now step r t s).
Proof.
  intros Hcons.
  destruct (store_step_result_fields now step r t s) as (_ & Hdata & Hflag & _).
  destruct (parse_invoice_data_pending step r) as [(d & Hd & Hne & ->) | Hnone].
  - unfold pending_consistent. rewrite Hdata, Hflag.
    rewrite (lookup_union_Some_l _ _ _ _ Hd).
    unfold truthy_get. rewrite Hd. by destruct d.
  - eapply pending_consistent_same; [| | exact Hcons].
    + rewrite Hdata. by apply lookup_union_r.
    + rewrite Hflag. unfold truthy_get. rewrite Hnone.
      by rewrite andb_false_r.
Qed.

Lemma store_step_result_flag now step r t (s : session) :
  has_pending_item (store_step_result now step r t s) = true ->
  has_pending_item s = true \/ step = "line_item".
Proof.
  destruct (store_step_result_fields now step r t s) as (_ & _ & Hflag & _).
  rewrite Hflag.
  destruct (String.eqb_spec step "line_item") as [-> | Hne]; [by right |].
  simpl. by left.
Qed.

Section WithBuiltins.
Context {B : Builtins}.

Lemma update_field_pending now name value (s : session) :
  name <> "current_line_item" ->
  invoice_data (update_field now name value s).1 !! "current_line_item"
    = invoice_data s !! "current_line_item"
  /\ has_pending_item (update_field now name value s).1 = has_pending_item s.
Proof.
  intros Hname. unfold update_field.
  repeat break_match; simpl; (split; [| done]);
    by rewrite ?lookup_insert_ne by (done || congruence).
Qed.

Lemma update_field_flag now name value (s : session) :
  has_pending_item (update_field now name value s).1 = has_pending_item s.
Proof. unfold update_field. by repeat break_match. Qed.

Lemma clear_line_item_pending idx (s : session) :
  invoice_data (clear_line_item idx s).1 !! "current_line_item"
    = invoice_data s !! "current_line_item"
  /\ has_pending_item (clear_line_item idx s).1 = has_pending_item s.
Proof.
  unfold clear_line_item.
  repeat break_match; simpl; (split; [| done]); by rewrite ?lookup_insert_ne.
Qed.

Lemma pending_consistent_handle now (o : op) (s : session) :
  keeps_pending_slot o ->
  pending_consistent s -> pending_consistent (handle now o s).1.
Proof.
  intros [Hreset Hedit] Hcons. destruct o; simpl.
  - eapply pending_consistent_same_invoice; [apply same_invoice_new | done].
  - eapply pending_consistent_same_invoice; [apply same_invoice_start | done].
  - eapply pending_consistent_same_invoice; [apply same_invoice_go_to_step | done].
  - done.
  - unfold process_invoice_step.
    destruct (negb is_mobile && negb csrf_ok); [done |].
    destruct (form_value api_key); [| done].
    destruct (InvoiceSteps.process_voice_step client audio_file step)
      as [[[tr parsed]|e] calls]; [| by destruct e].
    by apply pending_consistent_store.
  - eapply pending_consistent_same_invoice; [apply same_invoice_confirm_step | done].
  - unfold confirm_line_item.
    pose proof (save_current_item_clears s Hcons) as Hsave.
    destruct (save_current_item s) as [s1 [[]|e]]; simpl; [| by subst].
    destruct Hsave as [Hslot Hflag].
    destruct (mark_line_item_complete_fields s1) as (Hd & _).
    destruct (String.eqb _ _); simpl; apply pending_consistent_cleared; simpl;
      by rewrite ?Hd.
  - unfold add_another_item.
    pose proof (save_current_item_clears s Hcons) as Hsave.
    destruct (save_current_item s) as [s1 [[]|e]]; simpl; [| by subst].
    destruct Hsave as [Hslot Hflag]. by apply pending_consistent_cleared.
  - unfold proceed_to_review.
    pose proof (save_current_item_clears s Hcons) as Hsave.
    destruct (save_current_item s) as [s1 [[]|e]]; simpl; [| by subst].
    destruct Hsave as [Hslot Hflag].
    destruct (mark_line_item_complete_fields s1) as (Hd & Hf).
    destruct (negb _); simpl; apply pending_consistent_cleared; simpl;
      by rewrite ?Hd, ?Hf.
  - unfold update_invoice_field.
    assert (Hname : field_name <> "current_line_item")
      by (intros ->; by apply (Hedit field_value)).
    destruct (update_field_pending now field_name field_value s Hname) as [Hd Hf].
    destruct (update_field now field_name field_value s) as [s1 [[]|e]];
      by apply (pending_consistent_same s).
  - destruct (clear_line_item_pending item_index s) as [Hd Hf].
    by apply (pending_consistent_same s).
  - apply pending_consistent_cleared; simpl; [apply lookup_insert_eq | done].
  - eapply pending_consistent_same_invoice;
      [apply same_invoice_proceed_to_submit | done].
  - eapply pending_consistent_same_invoice; [apply same_invoice_submit | done].
  - by apply (pending_consistent_same s).
  - apply pending_consistent_cleared; [| done]. simpl.
    unfold initial_invoice_data.
    by rewrite !lookup_insert_ne, lookup_insert_eq by done.
Qed.

Lemma reachable_pending_consistent (s : session) :
  reachable_by keeps_pending_slot s -> pending_consistent s.
Proof.
  induction 1 as [sid uuid4 t1 t2 | s now o _ IH Hkeeps].
  - apply pending_consistent_cleared; [| done]. simpl.
    unfold initial_invoice_data.
    by rewrite !lookup_insert_ne, lookup_insert_eq by done.
  - by apply pending_consistent_handle.
Qed.

(** Only a voice submission for ["line_item"] raises the flag. *)
Lemma handle_raises_flag now (o : op) (s : session) :
  has_pending_item (handle now o s).1 = true ->
  has_pending_item s = true \/ line_item_submission o.
Proof.
  destruct o; simpl.
  - destruct (same_invoice_new step s) as (_ & _ & ->). by left.
  - destruct (same_invoice_start now s) as (_ & _ & ->). by left.
  - destruct (same_invoice_go_to_step step s) as (_ & _ & ->). by left.
  - by left.
  - unfold process_invoice_step.
    destruct (negb is_mobile && negb csrf_ok); [by left |].
    destruct (form_value api_key); [| by left].
    destruct (InvoiceSteps.process_voice_step client audio_file step)
      as [[[tr parsed]|e] calls]; [| destruct e; by left].
    simpl. intros [? | ->]%store_step_result_flag; [by left |].
    right. by exists is_mobile, csrf_ok, api_key, client, audio_file.
  - destruct (same_invoice_confirm_step now step s) as (_ & _ & ->). by left.
  - unfold confirm_line_item.
    pose proof (save_current_item_spec s) as Hsave.
    destruct (save_current_item s) as [s1 [[]|e]]; simpl; [| subst; by left].
    by destruct (String.eqb _ _).
  - unfold add_another_item.
    pose proof (save_current_item_spec s) as Hsave.
    destruct (save_current_item s) as [s1 [[]|e]]; simpl; [| subst; by left].
    destruct Hsave as [-> | (? & ? & _ & _ & _ & _ & _ & _ & Hf & _)];
      [by left | by rewrite Hf].
  - unfold proceed_to_review.
    pose proof (save_current_item_spec s) as Hsave.
    destruct (save_current_item s) as [s1 [[]|e]]; simpl; [| subst; by left].
    destruct (mark_line_item_complete_fields s1) as (_ & Hf').
    destruct Hsave as [-> | (? & ? & _ & _ & _ & _ & _ & _ & Hf & _)];
      destruct (negb _); simpl; rewrite ?Hf', ?Hf; by left.
  - unfold update_invoice_field.
    pose proof (update_field_flag now field_name field_value s) as Hf.
    destruct (update_field now field_name field_value s) as [s1 [[]|e]];
      simpl in *; rewrite Hf; by left.
  - destruct (clear_line_item_pending item_index s) as [_ ->]. by left.
  - done.
  - destruct (same_invoice_proceed_to_submit s) as (_ & _ & ->). by left.
  - destruct (same_invoice_submit xero s) as (_ & _ & ->). by left.
  - by left.
  - done.
Qed.
End WithBuiltins.
End Pending.

(** C8, as the code has it. In every session brought about by requests other
    than a reset and an edit of the pending slot itself, the pending flag is
    up exactly when the pending item is not [None]. The flag goes up only
    through a voice submission for ["line_item"]; after a successful
    "add another" or "proceed to review" the slot is empty and the flag is
    down. Navigation neither tests nor clears the pending item, so the
    current step need not be ["line_item"] while an item is pending. *)
Theorem pending_item_tracks_flag (B : Builtins) :
  (forall (s : Invoice.session),
      InvoiceRoutes.reachable_by keeps_pending_slot s ->
      (Invoice.has_pending_item s = true <-> pending_item s <> None))
  /\ (forall now (o : InvoiceRoutes.op) (s : Invoice.session),
        Invoice.has_pending_item (InvoiceRoutes.handle now o s).1 = true ->
        Invoice.has_pending_item s = true \/ line_item_submission o)
  /\ (forall now (o : InvoiceRoutes.op) (s : Invoice.session),
        InvoiceRoutes.reachable_by keeps_pending_slot s ->
        add_another_decision o \/ proceed_decision o ->
        (InvoiceRoutes.handle now o s).2 = InvoiceRoutes.Success ->
        Invoice.has_pending_item (InvoiceRoutes.handle now o s).1 = false
        /\ pending_item (InvoiceRoutes.handle now o s).1 = None)
  /\ (forall (target : string) (s : Invoice.session),
        Invoice.has_pending_item (InvoiceRoutes.go_to_step target s).1
          = Invoice.has_pending_item s
        /\ pending_item (InvoiceRoutes.go_to_step target s).1 = pending_item s).
Proof.
  split; [| split; [| split]].
  - intros s Hreach.
    by apply pending_consistent_flag, reachable_pending_consistent.
  - intros now o s. apply handle_raises_flag.
  - intros now o s Hreach Hdec Hok.
    assert (Hkeeps : keeps_pending_slot o).
    { split.
      - by destruct Hdec as [[-> | (? & -> & _)] | [-> | (? & -> & _)]].
      - intros v.
        by destruct Hdec as [[-> | (? & -> & _)] | [-> | (? & -> & _)]]. }
    pose proof (reachable_pending_consistent s Hreach) as Hcons.
    pose proof (pending_consistent_handle now o s Hkeeps Hcons) as Hcons'.
    assert (Hflag : Invoice.has_pending_item (InvoiceRoutes.handle now o s).1 = false).
    { pose proof (save_current_item_clears s Hcons) as Hsave.
      destruct Hdec as [[-> | (a & -> & _)] | [-> | (a & -> & _)]];
        simpl in *.
      - unfold InvoiceRoutes.add_another_item in *.
        destruct (InvoiceRoutes.save_current_item s) as [s1 [[]|e]];
          [by destruct Hsave | done].
      - unfold InvoiceRoutes.confirm_line_item in *.
        destruct (InvoiceRoutes.save_current_item s) as [s1 [[]|e]]; [| done].
        by destruct (String.eqb _ _).
      - unfold InvoiceRoutes.proceed_to_review in *.
        destruct (InvoiceRoutes.save_current_item s) as [s1 [[]|e]]; [| done].
        destruct (negb _); [done |]. simpl.
        destruct (mark_line_item_complete_fields s1) as (_ & ->).
        by destruct Hsave.
      - unfold InvoiceRoutes.confirm_line_item in *.
        destruct (InvoiceRoutes.save_current_item s) as [s1 [[]|e]]; [| done].
        by destruct (String.eqb _ _). }
    split; [done |].
    apply pending_consistent_flag in Hcons'.
    destruct (pending_item (InvoiceRoutes.handle now o s).1) eqn:Hp; [| done].
    assert (Invoice.has_pending_item (InvoiceRoutes.handle now o s).1 = true)
      by (by apply Hcons').
    congruence.
  - intros target s.
    destruct (same_invoice_go_to_step target s) as (Hd & _ & Hf).
    split; [done |]. unfold pending_item. by rewrite Hd.
Qed.

Lemma pending_item_tracks_flag_witness :
  (Invoice.has_pending_item Sample.with_pending = true
   <-> pending_item Sample.with_pending <> None)
  /\ Invoice.has_pending_item
       (InvoiceRoutes.handle (B := plain_builtins) 7
          InvoiceRoutes.AddAnotherItem Sample.with_pending).1 = false.
Proof.
  assert (Hreach : InvoiceRoutes.reachable_by (B := plain_builtins)
                     keeps_pending_slot Sample.with_pending).
  { unfold Sample.with_pending, Sample.at_line_item.
    do 2 (apply reachable_by_run; [repeat constructor; by intros ? |]).
    apply InvoiceRoutes.reach_init. }
  split.
  - exact (proj1 (pending_item_tracks_flag plain_builtins) _ Hreach).
  - apply (proj1 (proj2 (proj2 (pending_item_tracks_flag plain_builtins)))
             7 InvoiceRoutes.AddAnotherItem Sample.with_pending Hreach).
    + left. by left.
    + vm_compute. reflexivity.
Defined.

(** * Further properties of the embedded code

    As in the handlers above, [Success] and [Failure] are the verdict of a
    handler, the branch that it takes; building the body of the answer (a
    template, the JSON encoding of the data) is not part of the embedding. *)

(** ** Request sequences on an invoice session *)

(** X1. Whatever requests are served, in whatever order, no step is recorded
    twice in [completed_steps]. *)
Theorem completed_steps_never_repeat (B : Builtins)
    (allowed : InvoiceRoutes.op -> Prop) (s : Invoice.session) :
  InvoiceRoutes.reachable_by allowed s -> NoDup (Invoice.completed_steps s).
Proof. apply reachable_NoDup. Qed.

Lemma completed_steps_never_repeat_witness :
  NoDup (Invoice.completed_steps Sample.with_pending).
Proof.
  apply (completed_steps_never_repeat plain_builtins (fun _ => True)).
  unfold Sample.with_pending, Sample.at_line_item.
  apply (reachable_run (B := plain_builtins)).
  apply (reachable_run (B := plain_builtins)).
  apply InvoiceRoutes.reach_init.
Defined.

(** X2. As long as the confirm requests name steps of the workflow (or no
    step at all), the current step and every completed step are steps of the
    invoice workflow. *)
Theorem steps_stay_in_workflow (B : Builtins) (s : Invoice.session) :
  InvoiceRoutes.reachable_by names_known_step s ->
  In (Invoice.current_step s) Invoice.INVOICE_STEPS
  /\ forall x, In x (Invoice.completed_steps s) -> In x Invoice.INVOICE_STEPS.
Proof. apply reachable_known_steps. Qed.

Lemma steps_stay_in_workflow_witness :
  In (Invoice.current_step Sample.at_line_item) Invoice.INVOICE_STEPS
  /\ forall x, In x (Invoice.completed_steps Sample.at_line_item) ->
               In x Invoice.INVOICE_STEPS.
Proof.
  apply (steps_stay_in_workflow plain_builtins).
  unfold Sample.at_line_item.
  apply (reachable_by_run (B := plain_builtins)); [| apply InvoiceRoutes.reach_init].
  repeat (apply Forall_cons_2; [by intros step [=] |]).
  apply Forall_nil_2.
Defined.

Section Failures.
Import Invoice InvoiceRoutes.


Lemma set_invoice_data_same (s : session) : set_invoice_data (invoice_data s) s = s.
Proof. by destruct s. Qed.

Section WithBuiltins.
Context {B : Builtins}.


End WithBuiltins.
End Failures.



Section Count.
Import Invoice InvoiceRoutes.

Lemma count_in_sync_same (s s' : session) :
  line_item_count s' = line_item_count s ->
  invoice_data s' !! "line_items" = invoice_data s !! "line_items" ->
  count_in_sync s -> count_in_sync s'.
Proof.
  intros Hc Hd H l Hl. rewrite Hc. apply H. by rewrite <- Hd.
Qed.

Lemma count_in_sync_init sid uuid4 t1 t2 : count_in_sync (init sid uuid4 t1 t2).
Proof.
  intros l. simpl. unfold initial_invoice_data.
  rewrite lookup_insert_ne, lookup_insert_ne, lookup_insert_eq by done.
  by intros [= <-].
Qed.

Lemma advance_step_count now (s : session) :
  line_item_count (advance_step now s).1 = line_item_count s.
Proof.
  unfold advance_step. destruct (_ && _); [done |].
  by destruct (Base.advance_step now (base s)).
Qed.

Lemma count_in_sync_steps_only (s s' : session) :
  same_invoice s s' -> line_item_count s' = line_item_count s ->
  count_in_sync s -> count_in_sync s'.
Proof.
  intros (Hd & _) Hc. apply count_in_sync_same; [done | by rewrite Hd].
Qed.

Lemma count_in_sync_save (s : session) :
  count_in_sync s -> count_in_sync (save_current_item s).1.
Proof.
  intros H. unfold save_current_item.
  destruct (invoice_data s !! "current_line_item") as [item|]; [| done].
  destruct (truthy item); [| done].
  unfold add_line_item.
  repeat break_match; simpl; try done.
  intros l'. simpl. rewrite lookup_insert_ne, lookup_insert_eq by done.
  by intros [= <-].
Qed.

Lemma count_in_sync_store now step r t (s : session) :
  count_in_sync s -> count_in_sync (store_step_result now step r t s).
Proof.
  intros H. eapply count_in_sync_same; [| | exact H].
  - unfold store_step_result. by repeat break_match.
  - destruct (store_step_result_fields now step r t s) as (_ & -> & _).
    by rewrite lookup_union_r by apply parse_invoice_data_items.
Qed.

Section WithBuiltins.
Context {B : Builtins}.

Lemma update_field_count now name value (s : session) :
  line_item_count (update_field now name value s).1 = line_item_count s.
Proof. unfold update_field. by repeat break_match. Qed.

Lemma count_in_sync_update now name value (s : session) :
  count_in_sync s -> count_in_sync (update_field now name value s).1.
Proof.
  intros H l'. rewrite update_field_count. unfold update_field.
  destruct (String.prefix "line_item_" name) eqn:Hprefix.
  - repeat break_match; simpl; try apply H.
    rewrite lookup_insert_eq. intros [= ->].
    match goal with
    | Ha : assign_item_field _ _ _ _ = Return _ |- _ =>
        destruct (assign_item_field_list _ _ _ _ _ Ha) as (l0 & l1 & -> & [= ->] & ->)
    end.
    by apply H.
  - destruct (decide (name = "line_items")) as [-> | Hne].
    + simpl. by rewrite lookup_insert_eq.
    + repeat break_match; simpl;
        rewrite ?lookup_insert_ne by (done || congruence); try apply H.
Qed.

Lemma count_in_sync_handle now (o : op) (s : session) :
  count_in_sync s -> count_in_sync (handle now o s).1.
Proof.
  intros H. destruct o; simpl.
  - eapply count_in_sync_steps_only; [apply same_invoice_new | | done].
    unfold new_invoice_workflow. by repeat break_match.
  - eapply count_in_sync_steps_only; [apply same_invoice_start | | done].
    unfold start_invoice_workflow. destruct (String.eqb _ _); [| done].
    pose proof (advance_step_count now s) as Hc.
    by destruct (advance_step now s) as [s' [r|e]].
  - eapply count_in_sync_steps_only; [apply same_invoice_go_to_step | | done].
    unfold go_to_step. by repeat break_match.
  - unfold reset. intros l. simpl. unfold initial_invoice_data.
    rewrite lookup_insert_ne, lookup_insert_ne, lookup_insert_eq by done.
    by intros [= <-].
  - unfold process_invoice_step.
    repeat break_match; simpl; try done. by apply count_in_sync_store.
  - eapply count_in_sync_steps_only; [apply same_invoice_confirm_step | | done].
    unfold confirm_step. destruct (_ && _); [done |].
    match goal with
    | |- context [advance_step now ?s1] =>
        pose proof (advance_step_count now s1) as Hc;
          destruct (advance_step now s1) as [s' [r|e]]; simpl in *;
          rewrite Hc; by destruct (_ && _)
    end.
  - unfold confirm_line_item.
    pose proof (count_in_sync_save s H) as Hs.
    destruct (save_current_item s) as [s1 [[]|e]]; simpl in *; [| done].
    unfold mark_line_item_complete.
    repeat break_match; simpl;
      (eapply count_in_sync_same; [| | exact Hs]; reflexivity).
  - unfold add_another_item.
    pose proof (count_in_sync_save s H) as Hs.
    destruct (save_current_item s) as [s1 [[]|e]]; simpl in *; [| done].
    eapply count_in_sync_same; [| | exact Hs]; reflexivity.
  - unfold proceed_to_review.
    pose proof (count_in_sync_save s H) as Hs.
    destruct (save_current_item s) as [s1 [[]|e]]; simpl in *; [| done].
    unfold mark_line_item_complete.
    repeat break_match; simpl; try done;
      (eapply count_in_sync_same; [| | exact Hs]; reflexivity).
  - unfold update_invoice_field.
    pose proof (count_in_sync_update now field_name field_value s H) as Hu.
    by destruct (update_field now field_name field_value s) as [s1 [[]|e]].
  - unfold clear_line_item.
    repeat break_match; simpl; try done.
    intros l'. simpl. rewrite lookup_insert_eq. by intros [= <-].
  - unfold clear_all_line_items. intros l. simpl.
    rewrite lookup_insert_ne, lookup_insert_eq by done.
    by intros [= <-].
  - eapply count_in_sync_steps_only;
      [apply same_invoice_proceed_to_submit | | done].
    unfold proceed_to_submit, mark_review_complete. by repeat break_match.
  - eapply count_in_sync_steps_only; [apply same_invoice_submit | | done].
    unfold submit_to_xero. by repeat break_match.
  - done.
  - apply count_in_sync_init.
Qed.

Lemma reachable_count_in_sync (allowed : op -> Prop) (s : session) :
  reachable_by allowed s -> count_in_sync s.
Proof.
  induction 1 as [sid uuid4 t1 t2 | s now o _ IH _].
  - apply count_in_sync_init.
  - by apply count_in_sync_handle.
Qed.
End WithBuiltins.
End Count.

(** X4. On every session that requests can bring about, the counter
    [line_item_count] equals the length of the committed list, for as long
    as the value stored under ["line_items"] is a list. *)
Theorem line_item_count_in_sync (B : Builtins)
    (allowed : InvoiceRoutes.op -> Prop) (s : Invoice.session) (l : list pyval) :
  InvoiceRoutes.reachable_by allowed s ->
  Invoice.invoice_data s !! "line_items" = Some (PList l) ->
  Invoice.line_item_count s = Z.of_nat (length l).
Proof. intros Hs Hl. by apply (reachable_count_in_sync allowed s Hs). Qed.

Lemma line_item_count_in_sync_witness :
  Invoice.line_item_count Sample.full = 10.
Proof.
  apply (line_item_count_in_sync plain_builtins (fun _ => True) Sample.full
           (repeat Sample.item 10)).
  - unfold Sample.full, Sample.at_line_item.
    apply (reachable_run (B := plain_builtins)).
    apply (reachable_run (B := plain_builtins)).
    apply InvoiceRoutes.reach_init.
  - vm_compute. reflexivity.
Defined.

(** ** Edits and deletions of committed items *)

Lemma dict_get_set_eq {A} (k : string) (v : A) (d : list (string * A)) :
  dict_get k (dict_set k v d) = Some v.
Proof.
  induction d as [|[k' v'] d IH]; simpl.
  - by rewrite String.eqb_refl.
  - destruct (String.eqb k k') eqn:Hk; simpl.
    + by rewrite String.eqb_refl.
    + by rewrite Hk.
Qed.

Lemma dict_get_set_ne {A} (k k' : string) (v : A) (d : list (string * A)) :
  k <> k' -> dict_get k' (dict_set k v d) = dict_get k' d.
Proof.
  intros Hne. induction d as [|[k0 v0] d IH]; simpl.
  - by apply String.eqb_neq in Hne; rewrite String.eqb_sym, Hne.
  - destruct (String.eqb_spec k k0) as [-> | Hk]; simpl.
    + destruct (String.eqb_spec k' k0) as [-> | Hk']; [done |].
      by destruct (String.eqb_spec k' k0).
    + destruct (String.eqb_spec k' k0); [done | apply IH].
Qed.

Section Edits.
Import Invoice InvoiceRoutes.
Context {B : Builtins}.

Lemma update_field_frame now name value (s : session) :
  let s' := (update_field now name value s).1 in
  current_step s' = current_step s
  /\ completed_steps s' = completed_steps s
  /\ has_pending_item s' = has_pending_item s
  /\ line_item_count s' = line_item_count s
  /\ max_line_items s' = max_line_items s
  /\ (forall l, name <> "line_items" ->
        invoice_data s !! "line_items" = Some (PList l) ->
        exists l', invoice_data s' !! "line_items" = Some (PList l')
                   /\ length l' = length l).
Proof.
  cbv zeta.
  destruct (update_field_steps now name value s) as [Hcur Hdone].
  split; [done |]. split; [done |].
  split; [apply update_field_flag |].
  split; [apply update_field_count |].
  split; [unfold update_field; by repeat break_match |].
  intros l Hname Hl. unfold update_field.
  destruct (String.prefix "line_item_" name) eqn:Hprefix.
  - repeat break_match; simpl; simplify_eq;
      try (by eexists; split; [eassumption | done]).
    rewrite lookup_insert_eq.
    match goal with
    | Ha : assign_item_field _ _ _ _ = Return _ |- _ =>
        destruct (assign_item_field_list _ _ _ _ _ Ha) as (l0 & l1 & ? & -> & Hlen)
    end.
    simplify_eq. by exists l1.
  - exists l. split; [| done].
    repeat break_match; simpl;
      rewrite ?lookup_insert_ne by (done || congruence); done.
Qed.

(** What an accepted edit of a committed item writes. *)
Lemma line_item_edit now name value (s : session) (parts : list string)
    (idx : Z) (l : list pyval) (d : list (string * atom)) (v : atom) :
  let field := join "_" (skipn 3 parts) in
  let i := Z.to_nat (if (idx <? 0)%Z then idx + Z.of_nat (length l) else idx) in
  String.prefix "line_item_" name = true ->
  split_on "_" name = parts ->
  (4 <= length parts)%nat ->
  int_of_str (nth 2 parts "") = Some idx ->
  invoice_data s !! "line_items" = Some (PList l) ->
  (- Z.of_nat (length l) <= idx < Z.of_nat (length l))%Z ->
  l !! i = Some (PDict d) ->
  line_item_field_value field value = Return v ->
  update_field now name value s
    = (touch now (set_invoice_data
         (<["line_items" := PList (<[i := PDict (dict_set field v d)]> l)]>
            (invoice_data s)) s), Return tt).
Proof.
  intros field i Hprefix Hparts Hlen Hidx Hl Hrange Hi Hv.
  unfold update_field. rewrite Hprefix, Hparts.
  destruct (Z.leb_spec 4 (Z.of_nat (length parts))); [| lia].
  rewrite Hidx, Hl. simpl.
  destruct (Z.ltb_spec idx (Z.of_nat (length l))); [| lia].
  fold field. rewrite Hv. unfold assign_item_field.
  destruct (Z.ltb_spec idx (- Z.of_nat (length l))); [lia |].
  destruct (Z.leb_spec (Z.of_nat (length l)) idx); [lia |].
  simpl. fold i. by rewrite Hi.
Qed.
End Edits.

(** X5. Editing a field never moves the workflow: whatever field is named
    and whatever value is sent, accepted or not, the current step, the
    completed steps, the pending flag, the item counter and the capacity are
    what they were, and unless the field named is ["line_items"] itself the
    committed list keeps its length. *)
Theorem field_edit_moves_nothing (B : Builtins) (now : time)
    (name value : string) (s : Invoice.session) :
  let s' := (Invoice.update_field now name value s).1 in
  Invoice.current_step s' = Invoice.current_step s
  /\ Invoice.completed_steps s' = Invoice.completed_steps s
  /\ Invoice.has_pending_item s' = Invoice.has_pending_item s
  /\ Invoice.line_item_count s' = Invoice.line_item_count s
  /\ Invoice.max_line_items s' = Invoice.max_line_items s
  /\ (forall l, name <> "line_items" ->
        Invoice.invoice_data s !! "line_items" = Some (PList l) ->
        exists l', Invoice.invoice_data s' !! "line_items" = Some (PList l')
                   /\ length l' = length l).
Proof. apply update_field_frame. Qed.

Lemma field_edit_moves_nothing_witness :
  exists l',
    Invoice.invoice_data
      (Invoice.update_field (B := plain_builtins) 9 "line_item_0_quantity" "12"
         Sample.full).1 !! "line_items" = Some (PList l')
    /\ length l' = 10%nat.
Proof.
  assert (Hname : "line_item_0_quantity" <> "line_items") by discriminate.
  assert (Hl : Invoice.invoice_data Sample.full !! "line_items"
               = Some (PList (repeat Sample.item 10)))
    by (vm_compute; reflexivity).
  exact (proj2 (proj2 (proj2 (proj2 (proj2
           (field_edit_moves_nothing plain_builtins 9 "line_item_0_quantity"
              "12" Sample.full))))) (repeat Sample.item 10) Hname Hl).
Defined.

(** X6. An edit addressed to a committed item, by an index between
    [-len] and [len - 1], rewrites the named field of the item at the
    position that Python gives to that index (a negative index counts from
    the end), keeps every other item and every other field of that item, and
    refreshes [updated_at]. *)
Theorem line_item_edit_in_place (B : Builtins) (now : time)
    (name value : string) (s : Invoice.session) (parts : list string)
    (idx : Z) (l : list pyval) (d : list (string * atom)) (v : atom) :
  let field := join "_" (skipn 3 parts) in
  let i := Z.to_nat (if (idx <? 0)%Z then idx + Z.of_nat (length l) else idx) in
  let s' := (Invoice.update_field now name value s).1 in
  String.prefix "line_item_" name = true ->
  split_on "_" name = parts ->
  (4 <= length parts)%nat ->
  int_of_str (nth 2 parts "") = Some idx ->
  Invoice.invoice_data s !! "line_items" = Some (PList l) ->
  (- Z.of_nat (length l) <= idx < Z.of_nat (length l))%Z ->
  l !! i = Some (PDict d) ->
  Invoice.line_item_field_value field value = Return v ->
  (Invoice.update_field now name value s).2 = Return tt
  /\ Invoice.updated_at s' = now
  /\ exists l' d',
       Invoice.invoice_data s' !! "line_items" = Some (PList l')
       /\ length l' = length l
       /\ l' !! i = Some (PDict d')
       /\ dict_get field d' = Some v
       /\ (forall k, k <> field -> dict_get k d' = dict_get k d)
       /\ (forall j, j <> i -> l' !! j = l !! j).
Proof.
  intros field i s' Hprefix Hparts Hlen Hidx Hl Hrange Hi Hv. subst s'.
  rewrite (line_item_edit now name value s parts idx l d v
             Hprefix Hparts Hlen Hidx Hl Hrange Hi Hv).
  split; [done |]. split; [done |].
  exists (<[i := PDict (dict_set field v d)]> l), (dict_set field v d).
  simpl. rewrite lookup_insert_eq.
  pose proof (lookup_lt_Some _ _ _ Hi) as Hlt.
  split; [done |]. split; [apply length_insert |].
  split; [by apply list_lookup_insert_eq |].
  split; [apply dict_get_set_eq |].
  split.
  - intros k Hk. by apply dict_get_set_ne.
  - intros j Hj. by apply list_lookup_insert_ne.
Qed.

Lemma line_item_edit_in_place_witness :
  exists l' d',
    Invoice.invoice_data
      (Invoice.update_field (B := plain_builtins) 9 "line_item_-1_description"
         "Design" Sample.full).1 !! "line_items" = Some (PList l')
    /\ l' !! 9%nat = Some (PDict d')
    /\ dict_get "description" d' = Some (AStr "Design").
Proof.
  destruct (line_item_edit_in_place plain_builtins 9 "line_item_-1_description"
              "Design" Sample.full ["line"; "item"; "-1"; "description"] (-1)
              (repeat Sample.item 10)
              [("description", AStr "Consulting");
               ("quantity", AFloat (FloatOfDecimal (mkDecimal 10 0)));
               ("unit_price", AFloat (FloatOfDecimal (mkDecimal 150 0)));
               ("account_code", AStr "200");
               ("vat_rate", AStr "standard")]
              (AStr "Design"))
    as (_ & _ & l' & d' & H1 & _ & H2 & H3 & _).
  - reflexivity.
  - reflexivity.
  - simpl. lia.
  - reflexivity.
  - vm_compute. reflexivity.
  - simpl. lia.
  - reflexivity.
  - reflexivity.
  - exists l', d'. by split; [| split].
Defined.

Section Clear.
Import Invoice InvoiceRoutes.





End Clear.



(** ** Submission *)

Section Submission.
Import Invoice InvoiceRoutes.

Lemma to_invoice_create_true (s : session) :
  to_invoice_create s = Return true <-> draft_complete s.
Proof.
  unfold to_invoice_create, draft_complete. split.
  - destruct (invoice_data s !! "contact_name") as [c|]; [| done].
    destruct (invoice_data s !! "due_date") as [d|]; [| done].
    destruct (invoice_data s !! "line_items") as [items|]; [| done].
    destruct (py_len items) as [n|e] eqn:Hlen; [| done].
    intros [= H]. apply andb_true_iff in H as [H Hn].
    apply andb_true_iff in H as [Hc Hd].
    exists c, d, items, n. repeat split; try done.
    apply Z.gtb_lt in Hn. lia.
  - intros (c & d & items & n & -> & Hc & -> & Hd & -> & -> & Hn).
    rewrite Hc, Hd. simpl. f_equal. apply Z.gtb_lt. lia.
Qed.
End Submission.

(** X8. The two submission handlers go forward only on a complete draft.
    [proceed_to_submit] succeeds exactly when the draft has a contact name,
    a due date and a non-empty item list; it then records ["review"] and
    moves to ["final_submit"], and otherwise leaves the session as it was.
    [submit_to_xero] moves a session to ["complete"] only if the draft is
    complete and the accounting service accepted the invoice. *)
Theorem submission_needs_complete_draft (s : Invoice.session) :
  ((InvoiceRoutes.proceed_to_submit s).2 = InvoiceRoutes.Success
   <-> draft_complete s)
  /\ (draft_complete s ->
      Invoice.current_step (InvoiceRoutes.proceed_to_submit s).1 = "final_submit"
      /\ In "review" (Invoice.completed_steps (InvoiceRoutes.proceed_to_submit s).1))
  /\ (~ draft_complete s -> (InvoiceRoutes.proceed_to_submit s).1 = s)
  /\ (forall xero,
        Invoice.current_step (InvoiceRoutes.submit_to_xero xero s).1 = "complete" ->
        Invoice.current_step s = "complete"
        \/ (draft_complete s /\ xero = None))
  /\ (forall xero,
        ~ draft_complete s -> (InvoiceRoutes.submit_to_xero xero s).1 = s).
Proof.
  pose proof (to_invoice_create_true s) as Hiff.
  unfold InvoiceRoutes.proceed_to_submit, InvoiceRoutes.submit_to_xero.
  destruct (Invoice.to_invoice_create s) as [[|]|e].
  - assert (Hc : draft_complete s) by by apply Hiff.
    split; [done |]. split; [| split; [done |]].
    + intros _. split; [done |].
      unfold InvoiceRoutes.mark_review_complete.
      destruct (mem "review" (Invoice.completed_steps s)) eqn:Hmem; simpl.
      * by apply mem_In.
      * unfold Invoice.completed_steps. simpl. apply in_or_app. right. by left.
    + split; [| done]. intros [failure|]; [by left | by right].
  - assert (Hc : ~ draft_complete s) by (intros H; by apply Hiff in H).
    split; [split; [done | by intros ?] |].
    split; [done |]. split; [done |]. split; [| done]. intros xero. by left.
  - assert (Hc : ~ draft_complete s) by (intros H; by apply Hiff in H).
    split; [split; [done | by intros ?] |].
    split; [done |]. split; [done |]. split; [| done]. intros xero. by left.
Qed.

Lemma submission_needs_complete_draft_witness :
  (InvoiceRoutes.proceed_to_submit Sample.at_line_item).1 = Sample.at_line_item
  /\ (InvoiceRoutes.proceed_to_submit Sample.one_item_back_on_contact_name).2
     = InvoiceRoutes.Success.
Proof.
  split.
  - apply (proj1 (proj2 (proj2
             (submission_needs_complete_draft Sample.at_line_item)))).
    intros (c & d & items & n & _ & _ & _ & _ & Hitems & Hlen & Hn).
    vm_compute in Hitems. injection Hitems as <-.
    vm_compute in Hlen. injection Hlen as <-. lia.
  - apply (proj1 (submission_needs_complete_draft
                    Sample.one_item_back_on_contact_name)).
    exists (PStr "Acme Ltd"), (PStr "2025-12-31"), (PList [Sample.item]), 1.
    repeat split; vm_compute; reflexivity.
Defined.

(** ** Starting over *)

(** X9. What a reset leaves behind. A contact session that is reset is the
    session that the constructor builds for the same id, apart from the
    creation time, which is kept. An invoice session that is reset is such
    a new session exactly when no item was pending: the pending flag is the
    one attribute that [reset] does not assign. *)
Theorem reset_gives_new_session (now : time) (uuid4 : string) :
  (forall s : Contact.session,
      Base.session_id (Contact.base s) <> "" ->
      Contact.reset now s
        = Contact.init (Some (Base.session_id (Contact.base s))) uuid4
            (Base.created_at (Contact.base s)) now)
  /\ (forall s : Invoice.session,
        Base.session_id (Invoice.base s) <> "" ->
        Invoice.max_line_items s = 10 ->
        (Invoice.reset now s
           = Invoice.init (Some (Base.session_id (Invoice.base s))) uuid4
               (Base.created_at (Invoice.base s)) now
         <-> Invoice.has_pending_item s = false)).
Proof.
  split.
  - intros s Hid. unfold Contact.reset, Contact.init, Base.init.
    apply String.eqb_neq in Hid. by rewrite Hid.
  - intros s Hid Hmax. unfold Invoice.reset, Invoice.init, Base.init.
    apply String.eqb_neq in Hid. rewrite Hid, Hmax. split.
    + by intros [= ->].
    + by intros ->.
Qed.

Lemma reset_gives_new_session_witness :
  Contact.reset 9 Sample.contact_named = Contact.init (Some "c1") "" 0 9
  /\ Invoice.reset 9 Sample.with_pending <> Invoice.init (Some "s1") "" 0 9.
Proof.
  assert (Hc : Base.session_id (Contact.base Sample.contact_named) <> "")
    by (vm_compute; discriminate).
  assert (Hi : Base.session_id (Invoice.base Sample.with_pending) <> "")
    by (vm_compute; discriminate).
  assert (Hmax : Invoice.max_line_items Sample.with_pending = 10)
    by (vm_compute; reflexivity).
  split.
  - exact (proj1 (reset_gives_new_session 9 "") Sample.contact_named Hc).
  - intros Heq.
    pose proof (proj1 (proj2 (reset_gives_new_session 9 "")
                         Sample.with_pending Hi Hmax) Heq) as Hflag.
    vm_compute in Hflag. discriminate Hflag.
Defined.

(** ** The voice pipeline *)

Section Pipeline.
Import Invoice InvoiceSteps InvoiceRoutes.
Context {B : Builtins}.

Lemma transcribe_audio_calls client audio_file :
  (exists e, transcribe_audio client audio_file = (Raise e, []))
  \/ (exists name e,
        transcriptions_create client name (content audio_file) = Raise e
        /\ transcribe_audio client audio_file
           = (Raise (StepValidationError "audio"
                       "Failed to transcribe audio. Please try speaking again."),
              [WhisperCall name (content audio_file)]))
  \/ (exists name text,
        transcriptions_create client name (content audio_file) = Return text
        /\ transcribe_audio client audio_file
           = (Return (strip text), [WhisperCall name (content audio_file)])).
Proof.
  unfold transcribe_audio, transcribe_audio_try.
  destruct (match size audio_file with Some _ => _ | None => _ end);
    [left; by eexists |].
  destruct (_ >? _)%Z; [left; by eexists |].
  match goal with
  | |- context [transcriptions_create client ?n ?a] =>
      destruct (transcriptions_create client n a) as [text|e] eqn:Hw
  end.
  - right. right. by eexists _, _.
  - right. left. by eexists _, _.
Qed.


Lemma process_voice_step_unknown client audio_file step :
  ~ voice_step_name step ->
  (exists e, (process_voice_step client audio_file step).1 = Raise e)
  /\ (process_voice_step client audio_file step).2
     = (transcribe_audio client audio_file).2
  /\ forall model t,
       ~ In (ChatCall model t) (process_voice_step client audio_file step).2.
Proof.
  intros Hstep. unfold process_voice_step.
  destruct (transcribe_audio_calls client audio_file)
    as [[e ->] | [(name & e & _ & ->) | (name & text & Hw & ->)]].
  - split; [by eexists |]. split; [done |]. by intros model t [].
  - split; [by eexists |]. split; [done |]. by intros model t [? | []].
  - destruct (String.eqb_spec step "contact_name") as [-> | H1];
      [exfalso; apply Hstep; by left |].
    destruct (String.eqb_spec step "due_date") as [-> | H2];
      [exfalso; apply Hstep; by right; left |].
    destruct (String.eqb_spec step "line_item") as [-> | H3];
      [exfalso; apply Hstep; by right; right |].
    split; [by eexists |]. split; [done |]. by intros model t [? | []].
Qed.

Lemma process_invoice_step_raise now is_mobile csrf_ok api_key client audio_file
    step (s : session) (e : exn) :
  (process_voice_step client audio_file step).1 = Raise e ->
  let r := process_invoice_step now is_mobile csrf_ok api_key client audio_file
             step s in
  r.1.1 = s /\ r.1.2 <> Success.
Proof.
  intros He. cbv zeta. unfold process_invoice_step.
  destruct (negb is_mobile && negb csrf_ok); [done |].
  destruct (form_value api_key); [| done].
  destruct (process_voice_step client audio_file step) as [[[t p]|e'] calls];
    [done |].
  by destruct e'.
Qed.
End Pipeline.

(** X10. A voice submission for a step that takes no recording is refused
    and changes nothing, but only after the recording has gone to the
    transcription service: the requests made are those of the transcription
    alone, no parsing request is made, the pipeline raises, and the handler
    turns the request down and leaves the session as it was. *)
Theorem voice_step_unknown_name (B : Builtins) (now : time)
    (is_mobile csrf_ok : bool) (api_key : option string)
    (client : InvoiceSteps.OpenAI) (audio_file : InvoiceSteps.UploadFile)
    (step : string) (s : Invoice.session) :
  ~ voice_step_name step ->
  let r := InvoiceSteps.process_voice_step client audio_file step in
  let h := InvoiceRoutes.process_invoice_step now is_mobile csrf_ok api_key
             client audio_file step s in
  (exists e, r.1 = Raise e)
  /\ r.2 = (InvoiceSteps.transcribe_audio client audio_file).2
  /\ (forall model t, ~ In (InvoiceSteps.ChatCall model t) r.2)
  /\ h.1.1 = s
  /\ h.1.2 <> InvoiceRoutes.Success.
Proof.
  intros Hstep r h.
  destruct (process_voice_step_unknown client audio_file step Hstep)
    as ([e He] & Hcalls & Hchat).
  split; [by exists e |]. split; [done |]. split; [done |].
  by apply (process_invoice_step_raise now is_mobile csrf_ok api_key client
              audio_file step s e).
Qed.

Lemma voice_step_unknown_name_witness :
  (InvoiceSteps.process_voice_step (B := plain_builtins) Sample.client
     Sample.audio "review").2
    = [InvoiceSteps.WhisperCall "clip.webm" [Byte.x52; Byte.x49; Byte.x46]]
  /\ (InvoiceRoutes.process_invoice_step (B := plain_builtins) 6 true true
        (Some "sk-sample") Sample.client Sample.audio "review"
        Sample.at_line_item).1.1 = Sample.at_line_item.
Proof.
  assert (Hstep : ~ voice_step_name "review").
  { intros [H | [H | H]]; discriminate H. }
  destruct (voice_step_unknown_name plain_builtins 6 true true (Some "sk-sample")
              Sample.client Sample.audio "review" Sample.at_line_item Hstep)
    as (_ & Hcalls & _ & Hs & _).
  split; [| exact Hs].
  rewrite Hcalls. reflexivity.
Defined.



Section Recording.
Import Invoice InvoiceSteps InvoiceRoutes.
Context {B : Builtins}.

Lemma mark_step_complete_In {W : Workflow} now step data (b : Base.session) :
  In step (Base.completed_steps (Base.mark_step_complete now step data b))
  /\ Base.current_step (Base.mark_step_complete now step data b)
     = Base.current_step b.
Proof.
  unfold Base.mark_step_complete.
  destruct (mem step (Base.completed_steps b)) eqn:Hmem; simpl.
  - split; [by apply mem_In | done].
  - split; [apply in_or_app; right; by left | done].
Qed.

Lemma process_invoice_step_success now is_mobile csrf_ok api_key client
    audio_file step (s : session) :
  (process_invoice_step now is_mobile csrf_ok api_key client audio_file
     step s).1.2 = Success ->
  exists t parsed calls,
    process_voice_step client audio_file step = (Return (t, parsed), calls)
    /\ (process_invoice_step now is_mobile csrf_ok api_key client audio_file
          step s).1.1 = store_step_result now step parsed t s.
Proof.
  unfold process_invoice_step.
  destruct (negb is_mobile && negb csrf_ok); [done |].
  destruct (form_value api_key); [| done].
  destruct (process_voice_step client audio_file step) as [[[t p]|e] calls].
  - intros _. by exists t, p, calls.
  - by destruct e.
Qed.

Lemma process_voice_step_contact_name client audio_file t parsed calls :
  process_voice_step client audio_file "contact_name"
    = (Return (t, parsed), calls) ->
  exists raw org name,
    parse_contact_name client t = Parsed (raw, org)
    /\ sanitize_name raw = Return name
    /\ parsed = InvoiceContactNameStep name org.
Proof.
  unfold process_voice_step.
  destruct (transcribe_audio client audio_file) as [[tr|e] c]; [| done].
  simpl. unfold _parse_contact_name_step. intros [= Hp _].
  destruct (parse_contact_name client tr) as [[raw org] | | first | e] eqn:Hparse;
    try done.
  destruct (sanitize_name raw) as [name|e] eqn:Hname; [| by destruct e].
  injection Hp as <- <-. by exists raw, org, name.
Qed.

Lemma process_voice_step_due_date client audio_file t parsed calls :
  process_voice_step client audio_file "due_date"
    = (Return (t, parsed), calls) ->
  exists due days,
    parse_due_date client t = Parsed (due, days)
    /\ parsed = InvoiceDueDateStep due days.
Proof.
  unfold process_voice_step.
  destruct (transcribe_audio client audio_file) as [[tr|e] c]; [| done].
  simpl. unfold _parse_due_date_step. intros [= Hp _].
  destruct (parse_due_date client tr) as [[due days] | | first | e] eqn:Hparse;
    try done.
  injection Hp as <- <-. by exists due, days.
Qed.

Lemma store_step_result_transcripts now step r t (s : session) :
  transcripts (store_step_result now step r t s) = <[step := t]> (transcripts s).
Proof. unfold store_step_result. by repeat break_match. Qed.

(** Storing a value parsed for ["contact_name"] or ["due_date"]. *)
Lemma store_simple_step now step r t (s : session) (v : string) :
  step <> "line_item" ->
  parse_invoice_data step r = {[ step := PStr v ]} ->
  let s' := store_step_result now step r t s in
  invoice_data s' !! step = Some (PStr v)
  /\ (forall k, k <> step -> invoice_data s' !! k = invoice_data s !! k)
  /\ In step (completed_steps s')
  /\ current_step s' = current_step s
  /\ has_pending_item s' = has_pending_item s
  /\ transcripts s' !! step = Some t.
Proof.
  intros Hstep Hparse s'. subst s'.
  destruct (store_step_result_fields now step r t s) as (Hbase & Hdata & Hflag & _).
  rewrite Hparse in *.
  assert (Hne : ({[ step := PStr v ]} : gmap string pyval) <> ∅)
    by apply insert_non_empty.
  apply String.eqb_neq in Hstep. rewrite Hstep in *. simpl in *.
  rewrite bool_decide_eq_false_2 in Hbase by done. simpl in Hbase.
  unfold completed_steps, current_step. rewrite Hbase, Hdata, Hflag.
  split; [by rewrite lookup_union_l', lookup_singleton_eq
            by (rewrite lookup_singleton_eq; eauto) |].
  split; [intros k Hk; by rewrite lookup_union_r
                         by (by apply lookup_singleton_ne) |].
  destruct (mark_step_complete_In (W := workflow) now step
              ({[ step := PStr v ]})
              (Base.set_workflow_data
                 ({[ step := PStr v ]} ∪ Base.workflow_data (base s)) (base s)))
    as [Hin Hcur].
  split; [done |]. split; [done |]. split; [done |].
  rewrite store_step_result_transcripts. apply lookup_insert_eq.
Qed.
End Recording.

(** What an accepted voice submission for the contact name or the due date
    has done. *)
Lemma voice_step_records (B : Builtins) (now : time)
    (is_mobile csrf_ok : bool) (api_key : option string)
    (client : InvoiceSteps.OpenAI) (audio_file : InvoiceSteps.UploadFile)
    (step : string) (s : Invoice.session) :
  step = "contact_name" \/ step = "due_date" ->
  let h := InvoiceRoutes.process_invoice_step now is_mobile csrf_ok api_key
             client audio_file step s in
  h.1.2 = InvoiceRoutes.Success ->
  exists t parsed calls v,
    InvoiceSteps.process_voice_step client audio_file step
      = (Return (t, parsed), calls)
    /\ Invoice.invoice_data h.1.1 !! step = Some (PStr v)
    /\ Invoice.transcripts h.1.1 !! step = Some t
    /\ In step (Invoice.completed_steps h.1.1)
    /\ Invoice.current_step h.1.1 = Invoice.current_step s
    /\ Invoice.has_pending_item h.1.1 = Invoice.has_pending_item s
    /\ (forall k, k <> step ->
          Invoice.invoice_data h.1.1 !! k = Invoice.invoice_data s !! k)
    /\ (step = "contact_name" ->
        exists raw org,
          InvoiceSteps.parse_contact_name client t = InvoiceSteps.Parsed (raw, org)
          /\ sanitize_name raw = Return v)
    /\ (v <> "" -> Invoice.current_step s = step ->
        Invoice.can_advance h.1.1 = true).
Proof.
  intros Hstep h Hok. subst h.
  destruct (process_invoice_step_success now is_mobile csrf_ok api_key client
              audio_file step s Hok) as (t & parsed & calls & Hvoice & ->).
  assert (Hshape : exists v,
            Invoice.parse_invoice_data step parsed = {[ step := PStr v ]}
            /\ (step = "contact_name" ->
                exists raw org,
                  InvoiceSteps.parse_contact_name client t
                    = InvoiceSteps.Parsed (raw, org)
                  /\ sanitize_name raw = Return v)).
  { destruct Hstep as [-> | ->].
    - destruct (process_voice_step_contact_name client audio_file t parsed calls
                  Hvoice) as (raw & org & name & Hp & Hn & ->).
      exists name. split; [done |]. intros _. by exists raw, org.
    - destruct (process_voice_step_due_date client audio_file t parsed calls
                  Hvoice) as (due & days & Hp & ->).
      exists due. split; [done |]. by intros [=]. }
  destruct Hshape as (v & Hparse & Hname).
  assert (Hne : step <> "line_item") by (destruct Hstep as [-> | ->]; discriminate).
  destruct (store_simple_step now step parsed t s v Hne Hparse)
    as (Hv & Hframe & Hin & Hcur & Hflag & Ht).
  exists t, parsed, calls, v.
  split; [done |]. split; [done |]. split; [done |]. split; [done |].
  split; [done |]. split; [done |]. split; [done |]. split; [done |].
  intros Hv' Hs. unfold Invoice.can_advance. rewrite Hcur, Hs.
  unfold Invoice.validate_step_data_impl, truthy_get.
  destruct Hstep as [-> | ->]; simpl; rewrite Hv; simpl;
    by apply negb_true_iff, String.eqb_neq.
Qed.


(** X12. A voice submission for the contact name or the due date that is
    accepted has stored the parsed value under the key of the
    step and the transcript under the step, has recorded the step as
    completed, and has left the current step, the committed items, the
    pending item and the pending flag alone. The contact name that is stored
    is what the name sanitizer returned for the parsed name. When the step is
    the current step and the value is not empty, the session can advance. *)
Theorem voice_step_records_value (B : Builtins) (now : time)
    (is_mobile csrf_ok : bool) (api_key : option string)
    (client : InvoiceSteps.OpenAI) (audio_file : InvoiceSteps.UploadFile)
    (step : string) (s : Invoice.session) :
  step = "contact_name" \/ step = "due_date" ->
  let h := InvoiceRoutes.process_invoice_step now is_mobile csrf_ok api_key
             client audio_file step s in
  h.1.2 = InvoiceRoutes.Success ->
  exists t parsed calls v,
    InvoiceSteps.process_voice_step client audio_file step
      = (Return (t, parsed), calls)
    /\ Invoice.invoice_data h.1.1 !! step = Some (PStr v)
    /\ Invoice.transcripts h.1.1 !! step = Some t
    /\ In step (Invoice.completed_steps h.1.1)
    /\ Invoice.current_step h.1.1 = Invoice.current_step s
    /\ Invoice.has_pending_item h.1.1 = Invoice.has_pending_item s
    /\ (forall k, k <> step ->
          Invoice.invoice_data h.1.1 !! k = Invoice.invoice_data s !! k)
    /\ (step = "contact_name" ->
        exists raw org,
          InvoiceSteps.parse_contact_name client t = InvoiceSteps.Parsed (raw, org)
          /\ sanitize_name raw = Return v)
    /\ (v <> "" -> Invoice.current_step s = step ->
        Invoice.can_advance h.1.1 = true).
Proof. apply voice_step_records. Qed.

Lemma voice_step_records_value_witness :
  exists t parsed calls v,
    InvoiceSteps.process_voice_step (B := plain_builtins) Sample.client
      Sample.audio "contact_name" = (Return (t, parsed), calls)
    /\ Invoice.invoice_data
         (InvoiceRoutes.process_invoice_step (B := plain_builtins) 2 true true
            (Some "sk-sample") Sample.client Sample.audio "contact_name"
            Sample.fresh).1.1 !! "contact_name" = Some (PStr v)
    /\ v = "Acme Ltd".
Proof.
  destruct (voice_step_records_value plain_builtins 2 true true (Some "sk-sample")
              Sample.client Sample.audio "contact_name" Sample.fresh
              (or_introl eq_refl) eq_refl)
    as (t & parsed & calls & v & H1 & H2 & _ & _ & _ & _ & _ & Hname & _).
  exists t, parsed, calls, v. split; [done |]. split; [done |].
  destruct (Hname eq_refl) as (raw & org & Hp & Hs).
  injection Hp as <- _. by injection Hs as <-.
Defined.

(** ** The registries *)

Lemma foldl_delete_lookup_any {A} (ids : list string) (m : gmap string A)
    (k : string) :
  foldl (fun m' sid => delete sid m') m ids !! k
    = if decide (k ∈ ids) then None else m !! k.
Proof.
  revert m. induction ids as [|i ids IH]; intros m; [done |].
  cbn [foldl]. rewrite IH.
  destruct (decide (k ∈ ids)) as [Hin | Hnin].
  - rewrite decide_True; [done | by right].
  - destruct (decide (k = i)) as [-> | Hne].
    + rewrite decide_True by left. apply lookup_delete_eq.
    + rewrite decide_False; [by apply lookup_delete_ne |].
      by intros [?|?]%elem_of_cons.
Qed.

Lemma foldl_delete_size {A} (ids : list string) (m : gmap string A) :
  NoDup ids -> (forall k, k ∈ ids -> is_Some (m !! k)) ->
  (size (foldl (fun m' sid => delete sid m') m ids) + length ids = size m)%nat.
Proof.
  revert m. induction ids as [|i ids IH]; intros m Hdup Hin; simpl; [lia |].
  apply NoDup_cons in Hdup as [Hi Hdup].
  assert (Hrest : forall k, k ∈ ids -> is_Some (delete i m !! k)).
  { intros k Hk. rewrite lookup_delete_ne; [apply Hin; by right |].
    intros <-. done. }
  specialize (IH (delete i m) Hdup Hrest).
  rewrite map_size_delete_Some in IH by (apply Hin; left).
  assert (size m <> 0)%nat; [| lia].
  destruct (Hin i) as [x Hx]; [left |].
  by apply (map_size_ne_0_lookup_2 m i).
Qed.

Lemma NoDup_filtered_keys {A} (P : string * A -> Prop)
    `{forall x, Decision (P x)} (m : gmap string A) :
  NoDup (filter P (map_to_list m)).*1.
Proof.
  eapply sublist_NoDup; [apply (NoDup_fst_map_to_list m) |].
  apply fmap_sublist, sublist_filter.
Qed.

Section Registry.
Import Invoice.

Lemma cleanup_lookup now (st : store) (k : string) :
  (cleanup_expired_sessions now st).1 !! k
    = match st !! k with
      | Some s => if expired now s then None else Some s
      | None => None
      end.
Proof.
  unfold cleanup_expired_sessions. simpl. rewrite foldl_delete_lookup_any.
  destruct (decide (k ∈ expired_ids now st)) as [Hin | Hnin].
  - apply elem_of_expired_ids in Hin as (s & -> & ->). done.
  - destruct (st !! k) as [s|] eqn:Hk; [| done].
    destruct (expired now s) eqn:Hexp; [| done].
    exfalso. apply Hnin. apply elem_of_expired_ids. eauto.
Qed.

Lemma cleanup_count now (st : store) :
  (Z.of_nat (size (cleanup_expired_sessions now st).1)
   + (cleanup_expired_sessions now st).2 = Z.of_nat (size st))%Z.
Proof.
  unfold cleanup_expired_sessions. simpl.
  pose proof (foldl_delete_size (expired_ids now st) st) as H.
  rewrite <- H; [lia | apply NoDup_filtered_keys; apply _ |].
  intros k (s & Hs & _)%elem_of_expired_ids. eauto.
Qed.

Lemma cleanup_twice now (st : store) :
  cleanup_expired_sessions now (cleanup_expired_sessions now st).1
    = ((cleanup_expired_sessions now st).1, 0%Z).
Proof.
  assert (Hnil : expired_ids now (cleanup_expired_sessions now st).1 = []).
  { apply elem_of_nil_inv. intros k (s & Hs & Hexp)%elem_of_expired_ids.
    rewrite cleanup_lookup in Hs.
    destruct (st !! k) as [s0|]; [| done].
    destruct (expired now s0) eqn:H0; [done |]. congruence. }
  unfold cleanup_expired_sessions at 1. by rewrite Hnil.
Qed.

Lemma keyed_by_id_insert (st : store) (s : session) :
  keyed_by_id st -> keyed_by_id (<[Base.session_id (base s) := s]> st).
Proof.
  intros H k s'. destruct (decide (k = Base.session_id (base s))) as [-> | Hne].
  - rewrite lookup_insert_eq. by intros [= <-].
  - rewrite lookup_insert_ne by done. apply H.
Qed.
End Registry.

(** X13. The invoice registry stays keyed by session id. If every key maps
    to the session that carries it as its id, then after
    [get_invoice_session], whatever id was asked for (none and the empty
    string included), this is still so, the session handed out is the one
    stored under its own id, and no other entry has changed; and cleaning up
    keeps the registry keyed by id. *)
Theorem registry_keyed_by_id (now : time) (uuid4 : string)
    (t_created t_updated : time) (session_id : option string)
    (st : Invoice.store) :
  keyed_by_id st ->
  let r := Invoice.get_invoice_session now uuid4 t_created t_updated
             session_id st in
  keyed_by_id r.1
  /\ r.1 !! Base.session_id (Invoice.base r.2) = Some r.2
  /\ (forall k, k <> Base.session_id (Invoice.base r.2) -> r.1 !! k = st !! k)
  /\ keyed_by_id (Invoice.cleanup_expired_sessions now st).1.
Proof.
  intros Hst r.
  assert (Hclean : keyed_by_id (Invoice.cleanup_expired_sessions now st).1).
  { intros k s. rewrite cleanup_lookup.
    destruct (st !! k) as [s0|] eqn:Hk; [| done].
    destruct (Invoice.expired now s0); [done |]. intros [= <-]. by apply Hst. }
  set (fresh := Invoice.init session_id uuid4 t_created t_updated).
  assert (Hnew : forall st', st' = <[Base.session_id (Invoice.base fresh) := fresh]> st ->
            keyed_by_id st'
            /\ st' !! Base.session_id (Invoice.base fresh) = Some fresh
            /\ (forall k, k <> Base.session_id (Invoice.base fresh) ->
                  st' !! k = st !! k)).
  { intros st' ->. split; [by apply keyed_by_id_insert |].
    split; [apply lookup_insert_eq |].
    intros k Hk. by rewrite lookup_insert_ne. }
  subst r. unfold Invoice.get_invoice_session. fold fresh.
  destruct session_id as [sid|]; [| by destruct (Hnew _ eq_refl) as (? & ? & ?)].
  destruct (String.eqb_spec sid "") as [-> | Hsid]; simpl;
    [by destruct (Hnew _ eq_refl) as (? & ? & ?) |].
  assert (Hid : Base.session_id (Invoice.base fresh) = sid).
  { subst fresh. simpl. unfold Base.init. simpl.
    apply String.eqb_neq in Hsid. by rewrite Hsid. }
  destruct (st !! sid) as [s|] eqn:Hs.
  - destruct (Invoice.expired now s); cbn [fst snd].
    + rewrite Hid. split; [| split; [apply lookup_insert_eq |]].
      * intros k s'. destruct (decide (k = sid)) as [-> | Hne].
        -- rewrite lookup_insert_eq. by intros [= <-].
        -- rewrite lookup_insert_ne, lookup_delete_ne by done. apply Hst.
      * split; [| done]. intros k Hk.
        by rewrite lookup_insert_ne, lookup_delete_ne.
    + rewrite (Hst _ _ Hs). by split; [| split; [| split]].
  - destruct (Hnew _ eq_refl) as (? & ? & ?). by rewrite <- Hid at 3.
Qed.

Lemma registry_keyed_by_id_witness :
  (Invoice.get_invoice_session 10 "generated-id" 10 10 None
     {[ "s1" := Sample.fresh ]}).1 !! "generated-id"
    = Some (Invoice.init None "generated-id" 10 10).
Proof.
  assert (Hst : keyed_by_id {[ "s1" := Sample.fresh ]}).
  { intros k s Hk. apply lookup_singleton_Some in Hk as [<- <-]. reflexivity. }
  exact (proj1 (proj2 (registry_keyed_by_id 10 "generated-id" 10 10 None
                         {[ "s1" := Sample.fresh ]} Hst))).
Defined.

(** X14. Cleaning up the invoice registry returns the number of sessions
    that it removed, and cleaning up again at the same moment finds nothing
    left to remove. *)
Theorem cleanup_reports_removed (now : time) (st : Invoice.store) :
  (Z.of_nat (size (Invoice.cleanup_expired_sessions now st).1)
   + (Invoice.cleanup_expired_sessions now st).2 = Z.of_nat (size st))%Z
  /\ Invoice.cleanup_expired_sessions now
       (Invoice.cleanup_expired_sessions now st).1
     = ((Invoice.cleanup_expired_sessions now st).1, 0%Z).
Proof. split; [apply cleanup_count | apply cleanup_twice]. Qed.

(** ** Bearer tokens and mobile sessions *)

Lemma substring_all (s : string) : String.substring 0 (String.length s) s = s.
Proof. induction s as [|c s IH]; simpl; [done | by rewrite IH]. Qed.

Lemma prefix_drop (p s : string) :
  String.prefix p s = true -> s = p +:+ drop_prefix (String.length p) s.
Proof.
  revert s. induction p as [|a p IH]; intros s H.
  - unfold drop_prefix. simpl. by rewrite Nat.sub_0_r, substring_all.
  - destruct s as [|b s]; [done |]. simpl in H.
    destruct (ascii_dec a b) as [<- | ?]; [| done].
    change (String a s = String a (p +:+ drop_prefix (String.length p) s)).
    f_equal. by apply IH.
Qed.

Lemma prefix_app (p t : string) : String.prefix p (p +:+ t) = true.
Proof.
  induction p as [|a p IH]; [by destruct t |].
  change (String.prefix (String a p) (String a (p +:+ t)) = true). simpl.
  by destruct (ascii_dec a a).
Qed.

Lemma drop_prefix_app (p t : string) : drop_prefix (String.length p) (p +:+ t) = t.
Proof.
  induction p as [|a p IH].
  - unfold drop_prefix. change ("" +:+ t) with t. simpl.
    by rewrite Nat.sub_0_r, substring_all.
  - change (drop_prefix (String.length p) (p +:+ t) = t). apply IH.
Qed.

Section MobileSessions.
Import TokenAuth.

Lemma extract_bearer_token_Some (request : Request) (t : string) :
  extract_bearer_token request = Some t
  <-> authorization request = Some ("Bearer " +:+ t).
Proof.
  unfold extract_bearer_token. split.
  - destruct (String.prefix "Bearer " (default "" (authorization request)))
      eqn:Hp; [| done].
    intros [= <-]. apply prefix_drop in Hp.
    destruct (authorization request) as [h|]; simpl in *; [by f_equal |].
    discriminate Hp.
  - intros ->. cbn [default]. unfold id.
    rewrite (prefix_app "Bearer " t).
    change 7%nat with (String.length "Bearer ").
    by rewrite (drop_prefix_app "Bearer " t).
Qed.

Lemma elem_of_stale_ids now h (ms : mobile_sessions) (k : string) :
  k ∈ stale_ids now h ms <-> exists s, ms !! k = Some s /\ stale now h s = true.
Proof.
  unfold stale_ids. rewrite list_elem_of_fmap. split.
  - intros ([k' s] & -> & Hin). apply list_elem_of_filter in Hin as [Hexp Hin].
    apply elem_of_map_to_list in Hin. eauto.
  - intros (s & Hs & Hexp). exists (k, s). split; [done |].
    apply list_elem_of_filter. split; [done |]. by apply elem_of_map_to_list.
Qed.

Lemma mobile_cleanup_lookup now h (ms : mobile_sessions) (k : string) :
  (cleanup_expired_sessions now h ms).1 !! k
    = match ms !! k with
      | Some s => if stale now h s then None else Some s
      | None => None
      end.
Proof.
  unfold cleanup_expired_sessions. simpl. rewrite foldl_delete_lookup_any.
  destruct (decide (k ∈ stale_ids now h ms)) as [Hin | Hnin].
  - apply elem_of_stale_ids in Hin as (s & -> & ->). done.
  - destruct (ms !! k) as [s|] eqn:Hk; [| done].
    destruct (stale now h s) eqn:Hexp; [| done].
    exfalso. apply Hnin. apply elem_of_stale_ids. eauto.
Qed.

Lemma mobile_cleanup_count now h (ms : mobile_sessions) :
  (Z.of_nat (size (cleanup_expired_sessions now h ms).1)
   + (cleanup_expired_sessions now h ms).2 = Z.of_nat (size ms))%Z.
Proof.
  unfold cleanup_expired_sessions. simpl.
  pose proof (foldl_delete_size (stale_ids now h ms) ms) as H.
  rewrite <- H; [lia | apply NoDup_filtered_keys; apply _ |].
  intros k (s & Hs & _)%elem_of_stale_ids. eauto.
Qed.
End MobileSessions.

(** X15. The bearer token read from a request is [t] exactly when the
    [Authorization] header is the text ["Bearer "] followed by [t]; any
    other header, and a missing one, gives no token. *)
Theorem bearer_token_round_trip (request : TokenAuth.Request) (t : string) :
  TokenAuth.extract_bearer_token request = Some t
  <-> TokenAuth.authorization request = Some ("Bearer " +:+ t).
Proof. apply extract_bearer_token_Some. Qed.

Lemma bearer_token_round_trip_witness :
  TokenAuth.authorization Sample.good_request = Some ("Bearer " +:+ "good.jwt").
Proof.
  apply (proj1 (bearer_token_round_trip Sample.good_request "good.jwt")).
  reflexivity.
Defined.

(** X16. The mobile session registry, one id at a time. A session that was
    created is found again with what was stored, its access time refreshed;
    an update keeps the creation time and every credential for which no new
    value is given; a deleted session is no longer found, and deleting
    reports whether there was one. None of the four operations touches the
    entry of another id. *)
Theorem mobile_session_lifecycle (t1 t2 : time) (sid : string)
    (xero : option (list (string * string))) (api_key tenant : option string)
    (ms : TokenAuth.mobile_sessions) :
  (TokenAuth.get_mobile_session t2 sid
     (TokenAuth.create_mobile_session t1 sid xero api_key tenant ms).1).2
    = Some (TokenAuth.mkMobile sid xero api_key tenant t1 t2)
  /\ (forall s, ms !! sid = Some s ->
        exists s',
          TokenAuth.update_mobile_session t2 sid xero api_key tenant ms
            = (<[sid := s']> ms, Some s')
          /\ TokenAuth.created_at s' = TokenAuth.created_at s
          /\ TokenAuth.last_accessed s' = t2
          /\ TokenAuth.xero_token s'
             = match xero with Some _ => xero | None => TokenAuth.xero_token s end
          /\ TokenAuth.openai_api_key s'
             = match api_key with
               | Some _ => api_key
               | None => TokenAuth.openai_api_key s
               end)
  /\ (ms !! sid = None ->
      TokenAuth.update_mobile_session t2 sid xero api_key tenant ms = (ms, None))
  /\ (TokenAuth.get_mobile_session t2 sid
        (TokenAuth.delete_mobile_session sid ms).1).2 = None
  /\ ((TokenAuth.delete_mobile_session sid ms).2 = true <-> is_Some (ms !! sid))
  /\ (forall k, k <> sid ->
        (TokenAuth.create_mobile_session t1 sid xero api_key tenant ms).1 !! k
          = ms !! k
        /\ (TokenAuth.get_mobile_session t2 sid ms).1 !! k = ms !! k
        /\ (TokenAuth.update_mobile_session t2 sid xero api_key tenant ms).1 !! k
           = ms !! k
        /\ (TokenAuth.delete_mobile_session sid ms).1 !! k = ms !! k).
Proof.
  split; [| split; [| split; [| split; [| split]]]].
  - unfold TokenAuth.create_mobile_session, TokenAuth.get_mobile_session.
    simpl. by rewrite lookup_insert_eq.
  - intros s Hs. unfold TokenAuth.update_mobile_session. rewrite Hs.
    by eexists.
  - intros Hs. unfold TokenAuth.update_mobile_session. by rewrite Hs.
  - unfold TokenAuth.delete_mobile_session, TokenAuth.get_mobile_session.
    destruct (ms !! sid) eqn:Hs; simpl.
    + by rewrite lookup_delete_eq.
    + by rewrite Hs.
  - unfold TokenAuth.delete_mobile_session.
    destruct (ms !! sid) eqn:Hs; simpl.
    + split; [by eexists | done].
    + split; [done | by intros [? ?]].
  - intros k Hk.
    unfold TokenAuth.create_mobile_session, TokenAuth.get_mobile_session,
      TokenAuth.update_mobile_session, TokenAuth.delete_mobile_session.
    destruct (ms !! sid) eqn:Hs; simpl;
      by rewrite ?lookup_insert_ne, ?lookup_delete_ne by done.
Qed.

Lemma mobile_session_lifecycle_witness :
  exists s',
    TokenAuth.update_mobile_session 5 "m1" None (Some "sk-new") None
      {[ "m1" := TokenAuth.mkMobile "m1" (Some [("access_token", "xero")])
                   None None 1 1 ]}
      = (<["m1" := s']>
           {[ "m1" := TokenAuth.mkMobile "m1" (Some [("access_token", "xero")])
                        None None 1 1 ]}, Some s')
    /\ TokenAuth.xero_token s' = Some [("access_token", "xero")]
    /\ TokenAuth.openai_api_key s' = Some "sk-new".
Proof.
  destruct (proj1 (proj2 (mobile_session_lifecycle 1 5 "m1" None (Some "sk-new")
                            None
                            {[ "m1" := TokenAuth.mkMobile "m1"
                                         (Some [("access_token", "xero")])
                                         None None 1 1 ]}))
              (TokenAuth.mkMobile "m1" (Some [("access_token", "xero")])
                 None None 1 1))
    as (s' & H1 & _ & _ & H2 & H3).
  - apply lookup_singleton_eq.
  - exists s'. by split; [| split].
Defined.

(** X17. Cleaning up the mobile registry removes exactly the sessions last
    accessed before the cut-off (a session accessed exactly at the cut-off
    stays), returns the number of sessions removed, and never removes a
    session that has been looked up within the allowed age. *)
Theorem mobile_cleanup_spec (now : time) (max_age_hours : Z)
    (ms : TokenAuth.mobile_sessions) :
  (forall k s, ms !! k = Some s ->
     ((TokenAuth.cleanup_expired_sessions now max_age_hours ms).1 !! k = None
      <-> (TokenAuth.last_accessed s < now - TokenAuth.hours max_age_hours)%Z)
     /\ ((TokenAuth.cleanup_expired_sessions now max_age_hours ms).1 !! k = Some s
         <-> (now - TokenAuth.hours max_age_hours <= TokenAuth.last_accessed s)%Z))
  /\ (forall k, ms !! k = None ->
        (TokenAuth.cleanup_expired_sessions now max_age_hours ms).1 !! k = None)
  /\ (Z.of_nat (size (TokenAuth.cleanup_expired_sessions now max_age_hours ms).1)
      + (TokenAuth.cleanup_expired_sessions now max_age_hours ms).2
      = Z.of_nat (size ms))%Z
  /\ (forall t sid s,
        (TokenAuth.get_mobile_session t sid ms).2 = Some s ->
        (now - t <= TokenAuth.hours max_age_hours)%Z ->
        (TokenAuth.cleanup_expired_sessions now max_age_hours
           (TokenAuth.get_mobile_session t sid ms).1).1 !! sid = Some s).
Proof.
  split; [| split; [| split]].
  - intros k s Hs. rewrite mobile_cleanup_lookup, Hs. unfold TokenAuth.stale.
    destruct (Z.ltb_spec (TokenAuth.last_accessed s)
                (now - TokenAuth.hours max_age_hours));
      split; split; try done; try lia.
  - intros k Hk. by rewrite mobile_cleanup_lookup, Hk.
  - apply mobile_cleanup_count.
  - intros t sid s Hget Hage. rewrite mobile_cleanup_lookup.
    unfold TokenAuth.get_mobile_session in *.
    destruct (ms !! sid) as [s0|]; [| done].
    simpl in *. injection Hget as <-. rewrite lookup_insert_eq.
    unfold TokenAuth.stale. simpl.
    by destruct (Z.ltb_spec t (now - TokenAuth.hours max_age_hours)); [lia |].
Qed.

Lemma mobile_cleanup_spec_witness :
  (TokenAuth.cleanup_expired_sessions 86400000001 24
     {[ "m1" := TokenAuth.mkMobile "m1" None None None 0 0 ]}).1 !! "m1" = None
  /\ (TokenAuth.cleanup_expired_sessions 86400000000 24
        {[ "m1" := TokenAuth.mkMobile "m1" None None None 0 0 ]}).1 !! "m1"
     = Some (TokenAuth.mkMobile "m1" None None None 0 0).
Proof.
  split.
  - apply (proj1 (mobile_cleanup_spec 86400000001 24
                    {[ "m1" := TokenAuth.mkMobile "m1" None None None 0 0 ]})
             "m1" (TokenAuth.mkMobile "m1" None None None 0 0)
             (lookup_singleton_eq _ _)).
    vm_compute. reflexivity.
  - apply (proj1 (mobile_cleanup_spec 86400000000 24
                    {[ "m1" := TokenAuth.mkMobile "m1" None None None 0 0 ]})
             "m1" (TokenAuth.mkMobile "m1" None None None 0 0)
             (lookup_singleton_eq _ _)).
    vm_compute. discriminate.
Defined.

(** X18. [require_mobile_auth] lets a request through, with the payload of
    its token, exactly when the [Authorization] header carries a non-empty
    bearer token that the manager accepts; every other request is refused
    with status 401. The cookie session plays no part. *)
Theorem require_mobile_auth_spec (request : TokenAuth.Request)
    (mobile_auth : string -> option TokenAuth.TokenPayload) :
  (forall payload,
     TokenAuth.require_mobile_auth request mobile_auth = inr payload
     <-> exists t, t <> ""
           /\ TokenAuth.authorization request = Some ("Bearer " +:+ t)
           /\ mobile_auth t = Some payload)
  /\ (forall status code,
        TokenAuth.require_mobile_auth request mobile_auth = inl (status, code) ->
        status = 401)
  /\ (forall cookie,
        TokenAuth.require_mobile_auth
          (TokenAuth.mkRequest (TokenAuth.authorization request) cookie) mobile_auth
        = TokenAuth.require_mobile_auth request mobile_auth).
Proof.
  split; [| split].
  - intros payload. unfold TokenAuth.require_mobile_auth.
    destruct (TokenAuth.extract_bearer_token request) as [token|] eqn:Htok.
    + apply extract_bearer_token_Some in Htok.
      destruct (String.eqb_spec token "") as [-> | Hne].
      * split; [done |]. intros (t & Ht & Hauth & _).
        rewrite Htok in Hauth. injection Hauth as Hauth.
        change ("" = t) in Hauth. congruence.
      * destruct (mobile_auth token) as [p|] eqn:Hp; split.
        -- intros [= <-]. by exists token.
        -- intros (t & Ht & Hauth & Hm). rewrite Htok in Hauth.
           injection Hauth as Hauth. change (token = t) in Hauth.
           congruence.
        -- done.
        -- intros (t & Ht & Hauth & Hm). rewrite Htok in Hauth.
           injection Hauth as Hauth. change (token = t) in Hauth.
           congruence.
    + split; [done |]. intros (t & _ & Hauth & _).
      apply extract_bearer_token_Some in Hauth. congruence.
  - intros status code. unfold TokenAuth.require_mobile_auth.
    repeat break_match; congruence.
  - intros cookie. unfold TokenAuth.require_mobile_auth,
      TokenAuth.extract_bearer_token. done.
Qed.

Lemma require_mobile_auth_spec_witness :
  TokenAuth.require_mobile_auth Sample.good_request
    (TokenAuth.validate_token Sample.jwt_app) = inr Sample.payload.
Proof.
  apply (proj1 (require_mobile_auth_spec Sample.good_request
                  (TokenAuth.validate_token Sample.jwt_app))).
  exists "good.jwt". split; [discriminate |]. split; reflexivity.
Defined.

(** X19. Storing a validated key for a mobile client, then resolving it.
    When [/auth/mobile/validate-openai] is called with a bearer token that
    the manager accepts and the key passes validation, the key is stored
    under the session of the token, whether or not that session existed; a
    later request with a token of the same session resolves the OpenAI key to
    the stored one, and the Xero token to what it resolved to before; no
    other session is touched. When the key does not pass validation, or the
    validation itself fails, the registry is left as it was. *)
Theorem validated_key_is_resolved (app app' : TokenAuth.AppState)
    (t_read t_write now : time) (request request' : TokenAuth.Request)
    (api_key token token' : string) (payload payload' : TokenAuth.TokenPayload)
    (ms : TokenAuth.mobile_sessions) :
  TokenAuth.extract_bearer_token request = Some token -> token <> "" ->
  TokenAuth.validate_token app token = Some payload ->
  TokenAuth.extract_bearer_token request' = Some token' -> token' <> "" ->
  TokenAuth.validate_token app' token' = Some payload' ->
  TokenAuth.session_id payload' = TokenAuth.session_id payload ->
  api_key <> "" ->
  let r := AuthRoutes.mobile_validate_openai app t_read t_write (Return true)
             request api_key ms in
  (TokenAuth.get_openai_api_key app' now request' r.1).2 = Some api_key
  /\ (TokenAuth.get_xero_token app' now request' r.1).2
     = (TokenAuth.get_xero_token app' now request' ms).2
  /\ (forall k, k <> TokenAuth.session_id payload -> r.1 !! k = ms !! k)
  /\ (forall key_check,
        key_check <> Return true ->
        (AuthRoutes.mobile_validate_openai app t_read t_write key_check
           request api_key ms).1 = ms).
Proof.
  intros Htok Hne Hval Htok' Hne' Hval' Hsid Hkey r. subst r.
  apply String.eqb_neq in Hne, Hne', Hkey.
  unfold AuthRoutes.mobile_validate_openai, TokenAuth.get_openai_api_key,
    TokenAuth.get_xero_token.
  rewrite Htok, Hne, Hval, Htok', Hne', Hval', Hsid. simpl.
  unfold TokenAuth.get_mobile_session, TokenAuth.update_mobile_session,
    TokenAuth.create_mobile_session.
  destruct (ms !! TokenAuth.session_id payload) as [s|] eqn:Hs; simpl.
  - rewrite lookup_insert_eq. simpl. rewrite lookup_insert_eq. simpl.
    rewrite Hkey. simpl.
    split; [done |].
    split; [by destruct (TokenAuth.dict_truthy _) |].
    split.
    + intros k Hk. by rewrite !lookup_insert_ne.
    + intros [[|]|e] Hc; done.
  - rewrite lookup_insert_eq. simpl. rewrite Hkey. simpl.
    split; [done |]. split; [done |].
    split.
    + intros k Hk. by rewrite lookup_insert_ne.
    + intros [[|]|e] Hc; done.
Qed.

Lemma validated_key_is_resolved_witness :
  (TokenAuth.get_openai_api_key Sample.jwt_app 9 Sample.good_request
     (AuthRoutes.mobile_validate_openai Sample.jwt_app 1 2 (Return true)
        Sample.good_request "sk-mobile" ∅).1).2 = Some "sk-mobile".
Proof.
  assert (Hne : "good.jwt" <> "") by discriminate.
  assert (Hkey : "sk-mobile" <> "") by discriminate.
  exact (proj1 (validated_key_is_resolved Sample.jwt_app Sample.jwt_app
                  1 2 9 Sample.good_request Sample.good_request
                  "sk-mobile" "good.jwt" "good.jwt" Sample.payload
                  Sample.payload ∅ eq_refl Hne eq_refl eq_refl Hne
                  eq_refl eq_refl Hkey)).
Defined.

(** ** Step transitions *)

Section Transitions.
Import SessionValidators.

Lemma validate_step_transition_cases (current next : string)
    (steps completed : list string) :
  exists r,
    validate_step_transition current next steps completed = Return r
    /\ (is_valid r = true <->
        In current steps /\ In next steps
        /\ ((exists i, index current steps = Some i
                       /\ index next steps = Some (S i))
            \/ In next completed \/ next = current))
    /\ (can_proceed r = true <->
        exists i, index current steps = Some i /\ index next steps = Some (S i))
    /\ (error r = None <-> is_valid r = true).
Proof.
  unfold validate_step_transition.
  destruct (mem current steps) eqn:Hcur; simpl.
  2: { apply mem_false in Hcur. eexists. split; [done |]. simpl.
       split; [split; [done | tauto] |]. split; [| done].
       split; [done |]. intros (i & Hi & _). by apply index_Some_In in Hi. }
  destruct (mem next steps) eqn:Hnext; simpl.
  2: { apply mem_false in Hnext. eexists. split; [done |]. simpl.
       split; [split; [done | tauto] |]. split; [| done].
       split; [done |]. intros (i & _ & Hi). by apply index_Some_In in Hi. }
  apply mem_In in Hcur, Hnext.
  destruct (index_In _ _ Hcur) as [i Hi], (index_In _ _ Hnext) as [j Hj].
  rewrite Hi, Hj.
  destruct (Z.eqb_spec (Z.of_nat j) (Z.of_nat i + 1)) as [Hsucc | Hsucc].
  { assert (j = S i) as -> by lia. eexists. split; [done |]. simpl.
    split; [split; [| done] |].
    - intros _. split; [done |]. split; [done |]. left. by exists i.
    - split; [| done]. split; [| done]. intros _. by exists i. }
  assert (Hno : ~ exists i', Some i = Some i' /\ Some j = Some (S i')).
  { intros (i' & [= <-] & [= ->]). lia. }
  destruct (mem next completed) eqn:Hdone.
  { apply mem_In in Hdone. eexists. split; [done |]. simpl.
    split; [split; [| done] |].
    - intros _. split; [done |]. split; [done |]. right. by left.
    - split; [| done]. split; [done | by intros ?]. }
  apply mem_false in Hdone.
  destruct (String.eqb_spec next current) as [-> | Hne].
  { eexists. split; [done |]. simpl.
    split; [split; [| done] |].
    - intros _. split; [done |]. split; [done |]. right. by right.
    - split; [| done]. split; [done | by intros ?]. }
  eexists. split; [done |]. simpl.
  split; [split; [done |] |].
  - intros (_ & _ & [H | [H | H]]); tauto.
  - split; [| done]. split; [done | by intros ?].
Qed.
End Transitions.

(** X20. [validate_step_transition] always returns a verdict. A transition
    is valid exactly when both steps belong to the workflow and the target
    is the step right after the current one, or a completed step, or the
    current step itself; only a move to the step right after the current one
    may proceed; and an error message is given exactly when the transition
    is not valid. *)
Theorem validate_step_transition_spec (current next : string)
    (steps completed : list string) :
  exists r,
    SessionValidators.validate_step_transition current next steps completed
      = Return r
    /\ (SessionValidators.is_valid r = true <->
        In current steps /\ In next steps
        /\ ((exists i, index current steps = Some i
                       /\ index next steps = Some (S i))
            \/ In next completed \/ next = current))
    /\ (SessionValidators.can_proceed r = true <->
        exists i, index current steps = Some i /\ index next steps = Some (S i))
    /\ (SessionValidators.error r = None <-> SessionValidators.is_valid r = true).
Proof. apply validate_step_transition_cases. Qed.

Lemma validate_step_transition_spec_witness :
  exists r,
    SessionValidators.validate_step_transition "name" "address"
      Contact.CONTACT_STEPS ["name"] = Return r
    /\ SessionValidators.is_valid r <> true.
Proof.
  destruct (validate_step_transition_spec "name" "address"
              Contact.CONTACT_STEPS ["name"]) as (r & Hr & Hvalid & _).
  exists r. split; [exact Hr |].
  intros H. apply (proj1 Hvalid) in H as (_ & _ & [H | [H | H]]).
  - destruct H as (i & Hi & Hj). vm_compute in Hi. injection Hi as <-.
    vm_compute in Hj. discriminate Hj.
  - destruct H as [H | []]. discriminate H.
  - discriminate H.
Defined.

Section ContactNavigation.
Import Contact ContactRoutes.

End ContactNavigation.



(** ** Walking through the steps *)

Lemma index_nth (l : list string) (j : nat) :
  NoDup l -> (j < length l)%nat -> index (nth j l "") l = Some j.
Proof.
  intros Hdup. revert j. induction Hdup as [|x l Hx Hdup IH]; intros j Hj;
    simpl in *; [lia |].
  destruct j as [|j].
  - by rewrite String.eqb_refl.
  - destruct (String.eqb_spec (nth j l "") x) as [Heq | Hne].
    + exfalso. apply Hx. rewrite <- Heq. apply list_elem_of_In, nth_In. lia.
    + rewrite IH by lia. done.
Qed.

Section Walk.
Context {W : Workflow}.

Lemma advance_times_current (now : time) (k : nat) (b : Base.session) (i : nat) :
  NoDup get_workflow_steps ->
  index (Base.current_step b) get_workflow_steps = Some i ->
  Base.current_step (advance_times now k b)
    = nth (Nat.min (i + k) (length get_workflow_steps - 1)) get_workflow_steps ""
  /\ Base.completed_steps (advance_times now k b) = Base.completed_steps b
  /\ Base.workflow_data (advance_times now k b) = Base.workflow_data b.
Proof.
  intros Hdup Hi. pose proof (index_lt _ _ _ Hi) as Hlt.
  induction k as [|k (IHcur & IHdone & IHdata)].
  - simpl. rewrite Nat.add_0_r, Nat.min_l by lia.
    pose proof (index_lookup _ _ _ Hi) as Hl.
    split; [| done]. by rewrite nth_lookup, Hl.
  - change (advance_times now (S k) b)
      with (Base.advance_step now (advance_times now k b)).1.
    set (b' := advance_times now k b) in *.
    unfold Base.advance_step. rewrite IHcur.
    rewrite index_nth by (done || lia).
    destruct (Z.ltb_spec
                (Z.of_nat (Nat.min (i + k) (length get_workflow_steps - 1)))
                (Z.of_nat (length get_workflow_steps) - 1)) as [Hnext | Hlast];
      cbn [fst Base.current_step Base.completed_steps Base.workflow_data
           Base.set_updated_at Base.set_current_step].
    + split; [| done]. f_equal. lia.
    + split; [| done]. rewrite IHcur. f_equal. lia.
Qed.
End Walk.

(** X22. Advancing again and again walks through the workflow in order and
    stops on the last step: in a workflow whose steps are pairwise distinct,
    [k] calls of [advance_step] from the [i]-th step lead to step [i + k],
    or to the last step when there are not that many steps left, and touch
    neither the completed steps nor the collected data. *)
Theorem advance_step_walks_the_workflow (W : Workflow) (now : time) (k : nat)
    (b : Base.session) (i : nat) :
  NoDup get_workflow_steps ->
  index (Base.current_step b) get_workflow_steps = Some i ->
  Base.current_step (advance_times now k b)
    = nth (Nat.min (i + k) (length get_workflow_steps - 1)) get_workflow_steps ""
  /\ Base.completed_steps (advance_times now k b) = Base.completed_steps b
  /\ Base.workflow_data (advance_times now k b) = Base.workflow_data b.
Proof. apply advance_times_current. Qed.

Lemma advance_step_walks_the_workflow_witness :
  Base.current_step
    (advance_times (W := Contact.workflow) 7 9 (Contact.base Sample.contact_named))
    = "complete".
Proof.
  assert (Hdup : NoDup (@get_workflow_steps Contact.workflow)).
  { apply NoDup_ListNoDup. vm_compute.
    repeat (constructor; [simpl; intuition discriminate |]). constructor. }
  exact (proj1 (advance_step_walks_the_workflow Contact.workflow 7 9
                  (Contact.base Sample.contact_named) 0 Hdup eq_refl)).
Defined.

(** ** The name sanitizer *)

Section Sanitizer.
Import FieldValidators.

Lemma append_empty_r (w : string) : w +:+ "" = w.
Proof.
  induction w as [|c w IH]; [done |].
  change (String c w +:+ "") with (String c (w +:+ "")). by rewrite IH.
Qed.

Lemma word_cons (c : ascii) (w : string) :
  word (String c w) -> is_space c = false /\ (w = "" \/ word w).
Proof.
  intros [_ H]. simpl in H. apply andb_true_iff in H as [Hc Hw].
  split; [by apply negb_true_iff |].
  destruct w as [|c' w]; [by left |]. right. by split.
Qed.

Lemma split_ws_words (s : string) : Forall word (split_ws s).
Proof.
  induction s as [|c s IH]; simpl; [constructor |].
  destruct (is_space c) eqn:Hc; [done |].
  assert (Hone : word (String c "")).
  { split; [done |]. simpl. by rewrite Hc. }
  destruct s as [|c' s']; [by constructor |].
  destruct (is_space c') eqn:Hc'; [by constructor |].
  destruct (split_ws (String c' s')) as [|w ws]; [by constructor |].
  apply Forall_cons in IH as [[Hw1 Hw2] Hws]. constructor; [| done].
  split; [done |]. simpl. by rewrite Hc, Hw2.
Qed.

Lemma split_ws_word_then (w rest : string) :
  word w -> (rest = "" \/ exists r, rest = String " " r) ->
  split_ws (w +:+ rest) = w :: split_ws rest.
Proof.
  intros Hw Hrest. induction w as [|c w IH]; [by destruct Hw |].
  apply word_cons in Hw as [Hc Hw].
  change (String c w +:+ rest) with (String c (w +:+ rest)).
  cbn [split_ws]. rewrite Hc.
  destruct Hw as [-> | Hw].
  - change ("" +:+ rest) with rest.
    destruct Hrest as [-> | [r ->]]; [done |]. done.
  - rewrite (IH Hw).
    destruct w as [|c' w']; [by destruct Hw |].
    change (String c' w' +:+ rest) with (String c' (w' +:+ rest)).
    apply word_cons in Hw as [Hc' _]. by rewrite Hc'.
Qed.

Lemma split_ws_join (ws : list string) :
  Forall word ws -> split_ws (join " " ws) = ws.
Proof.
  induction 1 as [|w ws Hw Hws IH]; [done |].
  destruct ws as [|w' ws'].
  - simpl. rewrite <- (append_empty_r w) at 1.
    by rewrite split_ws_word_then by (done || by left).
  - change (join " " (w :: w' :: ws'))
      with (w +:+ String " " (join " " (w' :: ws'))).
    rewrite split_ws_word_then by (done || (right; by eexists)).
    f_equal. cbn [split_ws]. change (is_space " ") with true. cbn iota.
    exact IH.
Qed.

Lemma join_starts_with_word (w : string) (ws : list string) :
  word w ->
  exists c s, is_space c = false /\ join " " (w :: ws) = String c s.
Proof.
  intros Hw. destruct w as [|c w]; [by destruct Hw |].
  apply word_cons in Hw as [Hc _].
  destruct ws as [|w' ws']; [by exists c, w |].
  exists c, (w +:+ String " " (join " " (w' :: ws'))). by split.
Qed.

Lemma rstrip_app (x r : string) :
  rstrip r = r -> r <> "" -> rstrip (x +:+ r) = x +:+ r.
Proof.
  intros Hr Hne. induction x as [|c x IH]; [done |].
  change (String c x +:+ r) with (String c (x +:+ r)).
  cbn [rstrip]. rewrite IH.
  destruct (x +:+ r) eqn:Hx; [| done].
  destruct x; [by subst | done].
Qed.

Lemma rstrip_word (w : string) : word w -> rstrip w = w.
Proof.
  induction w as [|c w IH]; [by intros [? _] |].
  intros Hw. apply word_cons in Hw as [Hc [-> | Hw]].
  - simpl. by rewrite Hc.
  - cbn [rstrip]. rewrite (IH Hw). destruct w; [by destruct Hw | done].
Qed.

Lemma rstrip_join (ws : list string) :
  Forall word ws -> rstrip (join " " ws) = join " " ws.
Proof.
  induction 1 as [|w ws Hw Hws IH]; [done |].
  destruct ws as [|w' ws']; [by apply rstrip_word |].
  change (join " " (w :: w' :: ws'))
    with (w +:+ String " " (join " " (w' :: ws'))).
  apply Forall_cons in Hws as [Hw' _].
  destruct (join_starts_with_word w' ws' Hw') as (c & s & _ & Hj).
  apply rstrip_app; [| done].
  cbn [rstrip]. rewrite IH. by rewrite Hj.
Qed.

Lemma sanitize_name_fixed (name out : string) :
  sanitize_name name = Return out ->
  sanitize_name out = Return out
  /\ out = join " " (split_ws name)
  /\ split_ws out = split_ws name
  /\ join " " (split_ws out) = out
  /\ out <> ""
  /\ strip out = out
  /\ (String.length out <= 255)%nat
  /\ all_chars name_char out = true.
Proof.
  unfold sanitize_name at 1.
  destruct (String.eqb name "" || String.eqb (strip name) ""); [done |].
  destruct (Z.gtb_spec (Z.of_nat (String.length (join " " (split_ws name)))) 255)
    as [| Hlen]; [done |].
  destruct (matches_class name_char (join " " (split_ws name))) eqn:Hclass;
    [| done].
  intros [= <-]. set (out := join " " (split_ws name)) in *.
  assert (Hsplit : split_ws out = split_ws name)
    by apply split_ws_join, split_ws_words.
  assert (Hjoin : join " " (split_ws out) = out) by by rewrite Hsplit.
  unfold matches_class in Hclass. apply andb_true_iff in Hclass as [Hne Hall].
  apply negb_true_iff, String.eqb_neq in Hne.
  assert (Hstart : exists c s, is_space c = false /\ out = String c s).
  { pose proof (split_ws_words name) as Hws. subst out.
    destruct (split_ws name) as [|w ws]; [done |].
    apply Forall_cons in Hws as [Hw _]. by apply join_starts_with_word. }
  destruct Hstart as (c & s & Hc & Hout).
  assert (Hl : lstrip out = out) by (rewrite Hout; simpl; by rewrite Hc).
  assert (Hs : strip out = out).
  { unfold strip. rewrite Hl. subst out. apply rstrip_join, split_ws_words. }
  split; [| by repeat split; try lia].
  unfold sanitize_name. rewrite Hjoin, Hs.
  apply String.eqb_neq in Hne. rewrite Hne. cbn [orb].
  destruct (Z.gtb_spec (Z.of_nat (String.length out)) 255); [lia |].
  unfold matches_class. by rewrite Hne, Hall.
Qed.
End Sanitizer.

(** X23. What the name sanitizer lets through is in normal form and passes
    unchanged a second time: the result is the words of the name joined by
    single spaces, it neither starts nor ends with white space, it is not
    empty and not longer than 255 characters, and it consists of letters,
    digits, spaces and the five punctuation marks of the pattern. *)
Theorem sanitize_name_normal_form (name out : string) :
  ascii_text name ->
  FieldValidators.sanitize_name name = Return out ->
  FieldValidators.sanitize_name out = Return out
  /\ out = join " " (FieldValidators.split_ws name)
  /\ FieldValidators.split_ws out = FieldValidators.split_ws name
  /\ join " " (FieldValidators.split_ws out) = out
  /\ out <> ""
  /\ strip out = out
  /\ (String.length out <= 255)%nat
  /\ FieldValidators.all_chars FieldValidators.name_char out = true.
Proof. intros _. apply sanitize_name_fixed. Qed.

Lemma sanitize_name_normal_form_witness :
  FieldValidators.sanitize_name "  Smith   &  Sons,  Ltd. "
    = Return "Smith & Sons, Ltd."
  /\ FieldValidators.sanitize_name "Smith & Sons, Ltd."
     = Return "Smith & Sons, Ltd.".
Proof.
  assert (H : FieldValidators.sanitize_name "  Smith   &  Sons,  Ltd. "
              = Return "Smith & Sons, Ltd.") by reflexivity.
  split; [exact H |].
  apply (sanitize_name_normal_form "  Smith   &  Sons,  Ltd. "
           "Smith & Sons, Ltd."); [reflexivity | exact H].
Defined.

(** ** Address fields of an invoice *)

Section Address.
Import Invoice InvoiceRoutes.
Context {B : Builtins}.

Lemma address_field_branch (f : string) :
  In f ["address_line1"; "city"; "postal_code"; "country"] ->
  String.prefix "line_item_" f = false
  /\ mem f ["contact_name"; "contact_id"; "due_date"] = false
  /\ mem f ["address_line1"; "city"; "postal_code"; "country"] = true
  /\ f <> "address".
Proof.
  intros [<- | [<- | [<- | [<- | []]]]]; by repeat split.
Qed.

Lemma address_edit now f v (s : session) (a : list (string * atom)) :
  In f ["address_line1"; "city"; "postal_code"; "country"] ->
  invoice_data s !! "address" = Some (PDict a)
  \/ (get_is_none (invoice_data s) "address" = true /\ a = []) ->
  update_field now f v s
    = (touch now (set_invoice_data
         (<["address" := PDict (dict_set (address_key f) (AStr v) a)]>
            (invoice_data s)) s), Return tt).
Proof.
  intros Hf Ha. destruct (address_field_branch f Hf) as (Hp & Hs & Hm & _).
  unfold update_field. rewrite Hp, Hs, Hm.
  destruct Ha as [Ha | [Hnone ->]].
  - unfold get_is_none. rewrite Ha. simpl. by rewrite Ha.
  - rewrite Hnone, lookup_insert_eq. by rewrite insert_insert_eq.
Qed.

Lemma address_edit_refused now f v (s : session) (x : string) :
  In f ["address_line1"; "city"; "postal_code"; "country"] ->
  invoice_data s !! "address" = Some (PStr x) ->
  update_invoice_field now f v s = (s, Failure 500 "UPDATE_ERROR").
Proof.
  intros Hf Ha. destruct (address_field_branch f Hf) as (Hp & Hs & Hm & _).
  unfold update_invoice_field, update_field. rewrite Hp, Hs, Hm.
  unfold get_is_none. rewrite Ha. simpl. rewrite Ha.
  by rewrite set_invoice_data_same.
Qed.
End Address.

(** X24. Editing one of the four address fields of an invoice. When the
    address is missing, is [None] or is a dict, the edit is accepted: the
    address is then a dict in which the Xero name of the field reads back
    the value sent and every other entry is what it was, and no other key of
    the invoice data changes. When the address holds plain text, as it does
    after an edit of the field ["address"] itself, the edit is turned down
    with status 500 and the session is left as it was. *)
Theorem address_field_edit (B : Builtins) (now : time) (f v : string)
    (s : Invoice.session) :
  In f ["address_line1"; "city"; "postal_code"; "country"] ->
  (forall a,
     Invoice.invoice_data s !! "address" = Some (PDict a)
     \/ (get_is_none (Invoice.invoice_data s) "address" = true /\ a = []) ->
     let r := InvoiceRoutes.update_invoice_field now f v s in
     r.2 = InvoiceRoutes.Success
     /\ exists a',
          Invoice.invoice_data r.1 !! "address" = Some (PDict a')
          /\ dict_get (Invoice.address_key f) a' = Some (AStr v)
          /\ (forall k, k <> Invoice.address_key f -> dict_get k a' = dict_get k a)
          /\ (forall k, k <> "address" ->
                Invoice.invoice_data r.1 !! k = Invoice.invoice_data s !! k))
  /\ (forall x,
        Invoice.invoice_data s !! "address" = Some (PStr x) ->
        InvoiceRoutes.update_invoice_field now f v s
          = (s, InvoiceRoutes.Failure 500 "UPDATE_ERROR"))
  /\ (forall t x,
        InvoiceRoutes.update_invoice_field now f v
          (InvoiceRoutes.update_invoice_field t "address" x s).1
        = ((InvoiceRoutes.update_invoice_field t "address" x s).1,
           InvoiceRoutes.Failure 500 "UPDATE_ERROR")).
Proof.
  intros Hf. split; [| split].
  - intros a Ha r. subst r. unfold InvoiceRoutes.update_invoice_field.
    rewrite (address_edit now f v s a Hf Ha). simpl.
    split; [done |].
    exists (dict_set (Invoice.address_key f) (AStr v) a).
    rewrite lookup_insert_eq. split; [done |].
    split; [apply dict_get_set_eq |].
    split; [intros k Hk; by apply dict_get_set_ne |].
    intros k Hk. by rewrite lookup_insert_ne.
  - intros x. by apply address_edit_refused.
  - intros t x. apply (address_edit_refused now f v _ x Hf).
    unfold InvoiceRoutes.update_invoice_field, Invoice.update_field. simpl.
    apply lookup_insert_eq.
Qed.

Lemma address_field_edit_witness :
  exists a',
    Invoice.invoice_data
      (InvoiceRoutes.update_invoice_field (B := plain_builtins) 9 "city"
         "Leeds" Sample.fresh).1 !! "address" = Some (PDict a')
    /\ dict_get "City" a' = Some (AStr "Leeds").
Proof.
  destruct (proj1 (address_field_edit plain_builtins 9 "city" "Leeds"
                     Sample.fresh (or_intror (or_introl eq_refl))) [])
    as (_ & a' & H1 & H2 & _).
  - right. split; reflexivity.
  - exists a'. by split.
Defined.

(** ** Readiness of the address step of a contact *)

Section ContactReadiness.
Import Contact.

Lemma contact_store_address now a c p co t (s : session) :
  contact_data (store_step_result now "address" (ContactAddressStep a c p co) t s)
    !! "address"
    = Some (PDict [("AddressLine1", AStr a); ("City", AStr c);
                   ("PostalCode", AStr p); ("Country", AStr co)])
  /\ current_step (store_step_result now "address" (ContactAddressStep a c p co) t s)
     = current_step s.
Proof.
  unfold store_step_result, current_step. simpl. split.
  - by rewrite lookup_union_l', lookup_singleton_eq
      by (rewrite lookup_singleton_eq; eauto).
  - rewrite bool_decide_eq_false_2 by apply insert_non_empty. simpl.
    by destruct (mem "address" (Base.completed_steps (base s))).
Qed.
End ContactReadiness.

(** X25. [can_advance] of a contact session that is on the address step.
    Once a parsed address has been stored, the answer is whether its street
    line, city and postal code are all non-empty. While the address slot
    still holds [None], as it does from the start and after a reset, the
    call does not answer [False]: it raises [AttributeError]. *)
Theorem contact_address_readiness (now : time) (s : Contact.session) :
  Contact.current_step s = "address" ->
  (forall a c p co t,
     Contact.can_advance
       (Contact.store_step_result now "address" (ContactAddressStep a c p co) t s)
     = Return (negb (String.eqb a "") && negb (String.eqb c "")
               && negb (String.eqb p "")))
  /\ (Contact.contact_data s !! "address" = Some PNone ->
      Contact.can_advance s = Raise AttributeError)
  /\ Contact.can_advance
       (ContactRoutes.set_current_step "address" (Contact.reset now s))
     = Raise AttributeError.
Proof.
  intros Hstep. split; [| split].
  - intros a c p co t.
    destruct (contact_store_address now a c p co t s) as [Hdata Hcur].
    unfold Contact.can_advance. rewrite Hcur, Hstep.
    unfold Contact.validate_step_data_impl. by rewrite Hdata.
  - intros Hnone. unfold Contact.can_advance. rewrite Hstep.
    unfold Contact.validate_step_data_impl. by rewrite Hnone.
  - reflexivity.
Qed.

Lemma contact_address_readiness_witness :
  Contact.can_advance
    (ContactRoutes.set_current_step "address" (Contact.init (Some "c1") "" 0 0))
    = Raise AttributeError.
Proof.
  apply (proj1 (proj2 (contact_address_readiness 0
                         (ContactRoutes.set_current_step "address"
                            (Contact.init (Some "c1") "" 0 0)) eq_refl))).
  reflexivity.
Defined.

(** ** Leaving a step, confirming a step, emptying the list *)

Section Stranding.
Import Invoice InvoiceRoutes.

Lemma go_to_step_back_refused (target : string) (s : session) :
  (go_to_step target s).2 = Success ->
  target <> current_step s ->
  In (current_step s) INVOICE_STEPS ->
  ~ In (current_step s) (completed_steps s) ->
  ~ (current_step s = "line_item"
     /\ truthy_get (invoice_data s) "line_items" = true) ->
  go_to_step (current_step s) (go_to_step target s).1
    = ((go_to_step target s).1, Failure 400 "STEP_NOT_ACCESSIBLE").
Proof.
  intros Hok Hne Hcur Hdone Hitems.
  rewrite route_go_to_step_effect, Hok.
  unfold go_to_step.
  change (@get_workflow_steps workflow) with INVOICE_STEPS.
  apply mem_In in Hcur. rewrite Hcur. cbn [negb].
  change (invoice_data (set_current_step target s)) with (invoice_data s).
  change (completed_steps (set_current_step target s)) with (completed_steps s).
  change (current_step (set_current_step target s)) with target.
  apply mem_false in Hdone. rewrite Hdone.
  assert (Hloop : String.eqb (current_step s) "line_item"
                  && truthy_get (invoice_data s) "line_items" = false).
  { apply not_true_is_false. intros [H1 H2]%andb_true_iff.
    apply Hitems. split; [by apply String.eqb_eq | done]. }
  rewrite Hloop.
  assert (Hsame : String.eqb (current_step s) target = false).
  { apply String.eqb_neq. congruence. }
  by rewrite Hsame.
Qed.

Lemma contact_go_to_step_back_refused (target : string) (s : Contact.session) :
  (ContactRoutes.go_to_step target s).2 = Success ->
  target <> Contact.current_step s ->
  In (Contact.current_step s) Contact.CONTACT_STEPS ->
  ~ In (Contact.current_step s) (Contact.completed_steps s) ->
  ContactRoutes.go_to_step (Contact.current_step s)
    (ContactRoutes.go_to_step target s).1
    = ((ContactRoutes.go_to_step target s).1, Failure 400 "STEP_NOT_ACCESSIBLE").
Proof.
  intros Hok Hne Hcur Hdone.
  assert (Heff : (ContactRoutes.go_to_step target s).1
                 = ContactRoutes.set_current_step target s).
  { revert Hok. unfold ContactRoutes.go_to_step. by repeat break_match. }
  rewrite Heff. unfold ContactRoutes.go_to_step.
  change (@get_workflow_steps Contact.workflow) with Contact.CONTACT_STEPS.
  apply mem_In in Hcur. rewrite Hcur. cbn [negb].
  change (Contact.completed_steps (ContactRoutes.set_current_step target s))
    with (Contact.completed_steps s).
  change (Contact.current_step (ContactRoutes.set_current_step target s))
    with target.
  apply mem_false in Hdone. rewrite Hdone.
  assert (Hsame : String.eqb (Contact.current_step s) target = false).
  { apply String.eqb_neq. congruence. }
  by rewrite Hsame.
Qed.

End Stranding.

(** X26. Leaving a step that is not completed cuts the way back. After the
    invoice route has moved the session from its current step to another
    step, a request to go back to the step that was left is refused with
    [STEP_NOT_ACCESSIBLE] and changes nothing, unless that step is completed
    or is ["line_item"] with a committed item; the contact route does the
    same, unless that step is completed. *)
Theorem leaving_a_step_cuts_the_way_back (target : string) :
  (forall s : Invoice.session,
     (InvoiceRoutes.go_to_step target s).2 = InvoiceRoutes.Success ->
     target <> Invoice.current_step s ->
     In (Invoice.current_step s) Invoice.INVOICE_STEPS ->
     ~ In (Invoice.current_step s) (Invoice.completed_steps s) ->
     ~ (Invoice.current_step s = "line_item"
        /\ truthy_get (Invoice.invoice_data s) "line_items" = true) ->
     InvoiceRoutes.go_to_step (Invoice.current_step s)
       (InvoiceRoutes.go_to_step target s).1
       = ((InvoiceRoutes.go_to_step target s).1,
          InvoiceRoutes.Failure 400 "STEP_NOT_ACCESSIBLE"))
  /\ (forall s : Contact.session,
        (ContactRoutes.go_to_step target s).2 = InvoiceRoutes.Success ->
        target <> Contact.current_step s ->
        In (Contact.current_step s) Contact.CONTACT_STEPS ->
        ~ In (Contact.current_step s) (Contact.completed_steps s) ->
        ContactRoutes.go_to_step (Contact.current_step s)
          (ContactRoutes.go_to_step target s).1
          = ((ContactRoutes.go_to_step target s).1,
             InvoiceRoutes.Failure 400 "STEP_NOT_ACCESSIBLE")).
Proof.
  split.
  - intros s. apply go_to_step_back_refused.
  - intros s. apply contact_go_to_step_back_refused.
Qed.

Lemma leaving_a_step_cuts_the_way_back_witness :
  InvoiceRoutes.go_to_step "line_item"
    (InvoiceRoutes.go_to_step "contact_name" Sample.at_line_item).1
    = ((InvoiceRoutes.go_to_step "contact_name" Sample.at_line_item).1,
       InvoiceRoutes.Failure 400 "STEP_NOT_ACCESSIBLE")
  /\ ContactRoutes.go_to_step "email"
       (ContactRoutes.go_to_step "name"
          (ContactRoutes.set_current_step "email" Sample.contact_named)).1
     = ((ContactRoutes.go_to_step "name"
           (ContactRoutes.set_current_step "email" Sample.contact_named)).1,
        InvoiceRoutes.Failure 400 "STEP_NOT_ACCESSIBLE").
Proof.
  split.
  - apply (proj1 (leaving_a_step_cuts_the_way_back "contact_name")
             Sample.at_line_item).
    + vm_compute. reflexivity.
    + vm_compute. discriminate.
    + vm_compute. tauto.
    + vm_compute. intuition discriminate.
    + intros [_ H]. vm_compute in H. discriminate H.
  - apply (proj2 (leaving_a_step_cuts_the_way_back "name")
             (ContactRoutes.set_current_step "email" Sample.contact_named)).
    + vm_compute. reflexivity.
    + vm_compute. discriminate.
    + vm_compute. tauto.
    + vm_compute. intuition discriminate.
Defined.



(** X28. Emptying the list. After [clear_all_line_items] there is no
    committed item, no pending item and no pending flag, and the counter is
    zero, whatever the session held; the steps and every other key of the
    invoice data are kept. A request to proceed to the review is then
    refused with [NO_LINE_ITEMS] and a request to proceed to the submission
    is refused as well, both without changing the session. *)
Theorem cleared_list_blocks_review (s : Invoice.session) :
  let s' := (InvoiceRoutes.clear_all_line_items s).1 in
  Invoice.invoice_data s' !! "line_items" = Some (PList [])
  /\ Invoice.invoice_data s' !! "current_line_item" = Some PNone
  /\ Invoice.has_pending_item s' = false
  /\ Invoice.line_item_count s' = 0
  /\ Invoice.base s' = Invoice.base s
  /\ (forall k, k <> "line_items" -> k <> "current_line_item" ->
        Invoice.invoice_data s' !! k = Invoice.invoice_data s !! k)
  /\ InvoiceRoutes.proceed_to_review s'
     = (s', InvoiceRoutes.Failure 400 "NO_LINE_ITEMS")
  /\ (InvoiceRoutes.proceed_to_submit s').2 <> InvoiceRoutes.Success
  /\ (InvoiceRoutes.proceed_to_submit s').1 = s'.
Proof.
  intros s'.
  assert (Hitems : Invoice.invoice_data s' !! "line_items" = Some (PList []))
    by (subst s'; simpl; by rewrite lookup_insert_ne, lookup_insert_eq).
  assert (Hcur : Invoice.invoice_data s' !! "current_line_item" = Some PNone)
    by (subst s'; simpl; by rewrite lookup_insert_eq).
  split; [done |]. split; [done |]. split; [done |]. split; [done |].
  split; [done |].
  split; [intros k H1 H2; subst s'; simpl; by rewrite !lookup_insert_ne |].
  clearbody s'. split.
  - unfold InvoiceRoutes.proceed_to_review, InvoiceRoutes.save_current_item.
    rewrite Hcur. simpl. unfold truthy_get. by rewrite Hitems.
  - unfold InvoiceRoutes.proceed_to_submit, Invoice.to_invoice_create.
    rewrite Hitems.
    destruct (Invoice.invoice_data s' !! "contact_name") as [c|]; [| done].
    destruct (Invoice.invoice_data s' !! "due_date") as [d|]; [| done].
    simpl. by rewrite !andb_false_r.
Qed.

Lemma cleared_list_blocks_review_witness :
  InvoiceRoutes.proceed_to_review (InvoiceRoutes.clear_all_line_items Sample.full).1
    = ((InvoiceRoutes.clear_all_line_items Sample.full).1,
       InvoiceRoutes.Failure 400 "NO_LINE_ITEMS")
  /\ Invoice.invoice_data (InvoiceRoutes.clear_all_line_items Sample.full).1
       !! "contact_name" = Invoice.invoice_data Sample.full !! "contact_name".
Proof.
  destruct (cleared_list_blocks_review Sample.full)
    as (_ & _ & _ & _ & _ & Hframe & Hreview & _).
  split; [exact Hreview |]. by apply Hframe.
Defined.

(** X29. With the name sanitizer of the source in place, the contact name
    that an accepted voice submission stores is in normal form: it is not
    empty, it neither starts nor ends with white space, its words are
    separated by single spaces, it is not longer than 255 characters and it
    holds no character outside the pattern; and a session that is on the
    contact-name step can then advance. *)
Theorem stored_contact_name_normal_form (B : Builtins) (now : time)
    (is_mobile csrf_ok : bool) (api_key : option string)
    (client : InvoiceSteps.OpenAI) (audio_file : InvoiceSteps.UploadFile)
    (s : Invoice.session) :
  (forall n, sanitize_name n = FieldValidators.sanitize_name n) ->
  (forall t raw org,
     InvoiceSteps.parse_contact_name client t = InvoiceSteps.Parsed (raw, org) ->
     ascii_text raw) ->
  let h := InvoiceRoutes.process_invoice_step now is_mobile csrf_ok api_key
             client audio_file "contact_name" s in
  h.1.2 = InvoiceRoutes.Success ->
  exists v,
    Invoice.invoice_data h.1.1 !! "contact_name" = Some (PStr v)
    /\ v <> ""
    /\ strip v = v
    /\ join " " (FieldValidators.split_ws v) = v
    /\ (String.length v <= 255)%nat
    /\ FieldValidators.all_chars FieldValidators.name_char v = true
    /\ (Invoice.current_step s = "contact_name" ->
        Invoice.can_advance h.1.1 = true).
Proof.
  intros Hsan _ h Hok.
  destruct (voice_step_records B now is_mobile csrf_ok api_key client audio_file
              "contact_name" s (or_introl eq_refl) Hok)
    as (t & parsed & calls & v & _ & Hv & _ & _ & _ & _ & _ & Hname & Hadv).
  destruct (Hname eq_refl) as (raw & org & Hparse & Hraw).
  rewrite Hsan in Hraw.
  destruct (sanitize_name_fixed raw v Hraw)
    as (_ & _ & _ & Hjoin & Hne & Hstrip & Hlen & Hall).
  exists v. repeat split; try done. intros Hcur. by apply Hadv.
Qed.

Lemma stored_contact_name_normal_form_witness :
  exists v,
    Invoice.invoice_data
      (InvoiceRoutes.process_invoice_step (B := Sample.sanitizing_builtins) 2
         true true (Some "sk-sample") Sample.client Sample.audio "contact_name"
         Sample.fresh).1.1 !! "contact_name" = Some (PStr v)
    /\ strip v = v.
Proof.
  assert (Hsan : forall n,
            sanitize_name (Builtins := Sample.sanitizing_builtins) n
              = FieldValidators.sanitize_name n) by (intros n; reflexivity).
  assert (Hascii : forall t raw org,
            InvoiceSteps.parse_contact_name Sample.client t
              = InvoiceSteps.Parsed (raw, org) -> ascii_text raw).
  { intros t raw org H. injection H as <- _. vm_compute. reflexivity. }
  assert (Hok : (InvoiceRoutes.process_invoice_step
                   (B := Sample.sanitizing_builtins) 2 true true
                   (Some "sk-sample") Sample.client Sample.audio "contact_name"
                   Sample.fresh).1.2 = InvoiceRoutes.Success)
    by (vm_compute; reflexivity).
  destruct (stored_contact_name_normal_form Sample.sanitizing_builtins 2 true
              true (Some "sk-sample") Sample.client Sample.audio Sample.fresh
              Hsan Hascii Hok)
    as (v & Hv & _ & Hstrip & _).
  exists v. split; [exact Hv | exact Hstrip].
Defined.
